(** * Media-group aggregation and multi-target forwarding

    A shallow embedding of [telegram_forward_bot.py] (the media-group
    handler, the message classifier and filter, the dispatcher, the
    delivery log and the admin notifier; the configuration commands, the
    loading of the configuration file and the escaping for MarkdownV2)
    and of the [RateLimiter] and the [MessageFilter] of [utils.py].

    Python coroutines are embedded as resumptions: a coroutine runs on the
    shared state until it returns, raises, or reaches an [await] that
    suspends it on a request to the outside world.  The asyncio event loop
    is a step function over external events (an incoming update, the
    completion of an awaited request). *)

From stdpp Require Import gmap strings list fin_maps sorting pretty.
From Stdlib Require Import ZArith Lia.

Open Scope Z_scope.

(** ** Strings *)

Module Str.

(** [needle in hay] on Python [str]. *)
Fixpoint contains (hay needle : string) : bool :=
  String.prefix needle hay
  || match hay with
     | EmptyString => false
     | String _ hay' => contains hay' needle
     end.

Definition lower_ascii (c : Ascii.ascii) : Ascii.ascii :=
  let n := Ascii.nat_of_ascii c in
  if ((65 <=? n)%nat && (n <=? 90)%nat)%bool
  then Ascii.ascii_of_nat (n + 32) else c.

(** [str.lower()] on texts of ASCII letters: a string is the sequence of
    the bytes of the text, and the bytes of the letters [A] to [Z] are
    lowered; every other byte is kept, so a cased letter outside ASCII is
    not folded as Python folds it. *)
Fixpoint lower (s : string) : string :=
  match s with
  | EmptyString => EmptyString
  | String c s' => String (lower_ascii c) (lower s')
  end.

(** Truth value of an optional string: [None] and the empty string are
    falsy. *)
Definition truthy (o : option string) : bool :=
  match o with
  | Some (String _ _) => true
  | _ => false
  end.

(** [o or empty]: the string, or the empty string. *)
Definition or_empty (o : option string) : string :=
  match o with
  | Some (String c s) => String c s
  | _ => EmptyString
  end.

End Str.

(** ** Telegram objects *)

Record DateTime := mkDateTime {
  year : Z; month : Z; day : Z; hour : Z; minute : Z; second : Z
}.

Definition pad2 (n : Z) : string :=
  if n <? 10 then "0" +:+ pretty n else pretty n.

(** [strftime('%Y-%m-%d %H:%M:%S')]. *)
Definition strftime (d : DateTime) : string :=
  pretty (year d) +:+ "-" +:+ pad2 (month d) +:+ "-" +:+ pad2 (day d)
  +:+ " " +:+ pad2 (hour d) +:+ ":" +:+ pad2 (minute d) +:+ ":" +:+ pad2 (second d).

Record User := mkUser { user_id : Z; full_name : string }.

Record Chat := mkChat { chat_ident : Z; title : option string }.

(** An attachment, by its [file_id] (and [file_size] where known). *)
Record File := mkFile { file_id : string; file_size : Z }.

Record Message := mkMessage {
  message_id : Z;
  chat : Chat;
  media_group_id : option string;
  text : option string;
  caption : option string;
  photo : list File;            (* the sizes of one photo, best last *)
  video : option File;
  document : option File;
  audio : option File;
  voice : option File;
  sticker : option File;
  animation : option File;
  location : bool;
  poll : bool;
  from_user : option User;
  date : DateTime
}.

Definition chat_id (m : Message) : Z := chat_ident (chat m).

#[global] Instance File_eq_dec : EqDecision File.
Proof. solve_decision. Defined.
#[global] Instance DateTime_eq_dec : EqDecision DateTime.
Proof. solve_decision. Defined.
#[global] Instance User_eq_dec : EqDecision User.
Proof. solve_decision. Defined.
#[global] Instance Chat_eq_dec : EqDecision Chat.
Proof. solve_decision. Defined.
#[global] Instance Message_eq_dec : EqDecision Message.
Proof. solve_decision. Defined.

Inductive InputMedia :=
| InputMediaPhoto (media : string) (cap : option string)
| InputMediaVideo (media : string) (cap : option string)
| InputMediaDocument (media : string) (cap : option string)
| InputMediaAudio (media : string) (cap : option string).

(** ** Exceptions, requests and coroutines *)

(** [CancelledError] derives from [BaseException]: an [except Exception]
    clause does not catch it. *)
Inductive exn :=
| Exception (msg : string)
| CancelledError.

(** The awaited calls of the program. *)
Inductive Request :=
| Sleep (seconds : Z)
| CopyMessage (to_chat from_chat msg_id : Z) (cap : option string)
| SendMediaGroup (to_chat : Z) (media : list InputMedia)
| SendMessage (to_chat : Z) (body : string).

Inductive Value :=
| VNone
| VMessageId (mid : Z)
| VMessages (mids : list Z).

Inductive Response :=
| Returned (v : Value)
| Raised (e : exn).

Section Coroutines.
Context {Σ : Type}.

Inductive Outcome (A : Type) :=
| Done (a : A) (σ : Σ)
| Failed (e : exn) (σ : Σ)
| Suspended (r : Request) (σ : Σ) (k : Response -> Σ -> Outcome A).

#[global] Arguments Done {A} a σ.
#[global] Arguments Failed {A} e σ.
#[global] Arguments Suspended {A} r σ k.

Definition Coro (A : Type) : Type := Σ -> Outcome A.

Fixpoint obind {A B} (o : Outcome A) (f : A -> Coro B) : Outcome B :=
  match o with
  | Done a σ => f a σ
  | Failed e σ => Failed e σ
  | Suspended r σ k => Suspended r σ (fun resp σ' => obind (k resp σ') f)
  end.

Definition ret {A} (a : A) : Coro A := fun σ => Done a σ.
Definition bind {A B} (m : Coro A) (f : A -> Coro B) : Coro B :=
  fun σ => obind (m σ) f.
Definition raise {A} (e : exn) : Coro A := fun σ => Failed e σ.
Definition get : Coro Σ := fun σ => Done σ σ.
Definition gets {A} (f : Σ -> A) : Coro A := fun σ => Done (f σ) σ.
Definition modify (f : Σ -> Σ) : Coro unit := fun σ => Done tt (f σ).

(** [await r]: suspend on [r]; resumed with its value or with the
    exception thrown into the coroutine at this point. *)
Definition await (r : Request) : Coro Value :=
  fun σ => Suspended r σ (fun resp σ' =>
    match resp with
    | Returned v => Done v σ'
    | Raised e => Failed e σ'
    end).

(** [try: ... except Exception as e: ...] *)
Fixpoint ocatch {A} (o : Outcome A) (h : string -> Coro A) : Outcome A :=
  match o with
  | Done a σ => Done a σ
  | Failed (Exception msg) σ => h msg σ
  | Failed CancelledError σ => Failed CancelledError σ
  | Suspended r σ k => Suspended r σ (fun resp σ' => ocatch (k resp σ') h)
  end.

Definition try_except {A} (m : Coro A) (h : string -> Coro A) : Coro A :=
  fun σ => ocatch (m σ) h.

End Coroutines.

#[global] Arguments Outcome : clear implicits.
#[global] Arguments Coro : clear implicits.

#[global] Instance coro_ret {Σ} : MRet (Coro Σ) := fun A => @ret Σ A.
#[global] Instance coro_bind {Σ} : MBind (Coro Σ) := fun A B f m => @bind Σ A B m f.

(** [for x in xs: body x] *)
Fixpoint for_each {Σ A} (xs : list A) (body : A -> Coro Σ unit) : Coro Σ unit :=
  match xs with
  | [] => ret tt
  | x :: xs' => body x ;; for_each xs' body
  end.

Definition when {Σ} (b : bool) (m : Coro Σ unit) : Coro Σ unit :=
  if b then m else ret tt.

(** ** The bot's state *)

Record ForwardSettings := mkForwardSettings {
  preserve_sender : bool;
  add_source_info : bool;
  filter_content_types : list string;
  keyword_filter : list string;
  delay_seconds : Z;
  max_forwards_per_minute : Z;
  media_group_timeout : Z
}.

Record Config := mkConfig {
  admins : list Z;
  source_channels : list Z;
  target_channels : list Z;
  forward_settings : ForwardSettings;
  notify_admin_on_error : bool
}.

Record Stats := mkStats {
  messages_received : Z;
  messages_forwarded : Z;
  failed_forwards : Z;
  media_groups_forwarded : Z
}.

(** A row of the [forward_logs] table. *)
Record ForwardLog := mkForwardLog {
  source_chat_id : Z;
  target_chat_id : Z;
  original_message_id : Z;
  forwarded_message_id : option Z;
  content_type : string;
  log_media_group_id : option string;
  is_media_group : bool;
  success : bool;
  error_message : option string
}.

(** The lines written through [logger]. *)
Inductive LogLine :=
| InfoReceived (from_chat : Z) (group : option string)
| InfoFiltered (kind : string)
| InfoForwardingGroup (count : nat)
| InfoForwardingSingle
| InfoGroupForwarded (from_chat to_chat : Z) (count : nat)
| InfoForwarded (from_chat to_chat : Z)
| WarnUnsupportedMedia (kind : string)
| ErrGroupForwardFailed (from_chat to_chat : Z) (err : string)
| ErrForwardFailed (from_chat to_chat : Z) (err : string)
| ErrLogForwardFailed (err : string)
| ErrNotifyAdminFailed (admin : Z) (err : string).

(** The part of [TelegramForwardBot] the dispatcher works on.  [db_faults]
    is the behaviour of the database for the coming writes, one entry per
    write: [Some err] makes that write raise [err]; [None], or no entry,
    lets it commit.  [clock] is what [datetime.now()] reads. *)
Record Bot := mkBot {
  config : Config;
  stats : Stats;
  forward_logs : list ForwardLog;
  db_faults : list (option string);
  logger : list LogLine;
  clock : DateTime
}.

Definition with_stats (f : Stats -> Stats) (b : Bot) : Bot :=
  mkBot (config b) (f (stats b)) (forward_logs b) (db_faults b) (logger b) (clock b).

Definition with_logger (f : list LogLine -> list LogLine) (b : Bot) : Bot :=
  mkBot (config b) (stats b) (forward_logs b) (db_faults b) (f (logger b)) (clock b).

Definition add_received (n : Z) (s : Stats) : Stats :=
  mkStats (messages_received s + n) (messages_forwarded s)
          (failed_forwards s) (media_groups_forwarded s).
Definition add_forwarded (n : Z) (s : Stats) : Stats :=
  mkStats (messages_received s) (messages_forwarded s + n)
          (failed_forwards s) (media_groups_forwarded s).
Definition add_failed (n : Z) (s : Stats) : Stats :=
  mkStats (messages_received s) (messages_forwarded s)
          (failed_forwards s + n) (media_groups_forwarded s).
Definition add_groups_forwarded (n : Z) (s : Stats) : Stats :=
  mkStats (messages_received s) (messages_forwarded s)
          (failed_forwards s) (media_groups_forwarded s + n).

Definition logger_write (l : LogLine) : Coro Bot unit :=
  modify (with_logger (fun ls => ls ++ [l])).

(** ** Classifier and filter *)

Definition get_message_type (message : Message) : string :=
  if Str.truthy (text message) then "text"
  else if bool_decide (photo message ≠ []) then "photo"
  else if bool_decide (is_Some (video message)) then "video"
  else if bool_decide (is_Some (document message)) then "document"
  else if bool_decide (is_Some (audio message)) then "audio"
  else if bool_decide (is_Some (voice message)) then "voice"
  else if bool_decide (is_Some (sticker message)) then "sticker"
  else if bool_decide (is_Some (animation message)) then "animation"
  else if location message then "location"
  else if poll message then "poll"
  else "other".

Definition should_filter_message (cfg : Config) (message : Message)
    (kind : string) : bool :=
  if bool_decide (kind ∈ filter_content_types (forward_settings cfg)) then true
  else if Str.truthy (text message)
          && bool_decide (keyword_filter (forward_settings cfg) ≠ [])
  then
    let text_lower := Str.lower (Str.or_empty (text message)) in
    existsb (fun keyword => Str.contains text_lower (Str.lower keyword))
            (keyword_filter (forward_settings cfg))
  else false.

(** ** Captions and album items *)

Definition build_caption (cfg : Config) (message : Message) : string :=
  let original_caption := Str.or_empty (caption message) in
  if negb (add_source_info (forward_settings cfg)) then original_caption
  else
    let chat_title :=
      if Str.truthy (title (chat message))
      then Str.or_empty (title (chat message))
      else pretty (chat_ident (chat message)) in
    let source_info := EmptyString in
    let source_info :=
      match from_user message with
      | Some u =>
          if preserve_sender (forward_settings cfg)
          then let sender_name := full_name u in source_info +:+ EmptyString
          else source_info
      | None => source_info
      end in
    let time_str := strftime (date message) in
    let source_info := source_info +:+ EmptyString in
    original_caption +:+ source_info.

(** Nothing in the [try] of [create_input_media] can raise here (the photo
    list is indexed only when it is not empty), so its [except] clause is
    never entered. *)
Definition create_input_media (message : Message) (cap : option string)
    : Coro Bot (option InputMedia) :=
  match last (photo message) with
  | Some p => mret (Some (InputMediaPhoto (file_id p) cap))
  | None =>
    match video message with
    | Some v => mret (Some (InputMediaVideo (file_id v) cap))
    | None =>
      match document message with
      | Some d => mret (Some (InputMediaDocument (file_id d) cap))
      | None =>
        match audio message with
        | Some a => mret (Some (InputMediaAudio (file_id a) cap))
        | None =>
            logger_write (WarnUnsupportedMedia (get_message_type message));;
            mret None
        end
      end
    end
  end.

(** ** Delivery log *)

(** The [INSERT] and [commit] of [log_forward]. *)
Definition sqlite_insert (row : ForwardLog) : Coro Bot unit := fun b =>
  match db_faults b with
  | Some err :: rest =>
      Failed (Exception err)
        (mkBot (config b) (stats b) (forward_logs b) rest (logger b) (clock b))
  | None :: rest =>
      Done tt (mkBot (config b) (stats b) (forward_logs b ++ [row]) rest
                     (logger b) (clock b))
  | [] =>
      Done tt (mkBot (config b) (stats b) (forward_logs b ++ [row]) []
                     (logger b) (clock b))
  end.

Definition log_forward (row : ForwardLog) : Coro Bot unit :=
  try_except (sqlite_insert row)
             (fun e => logger_write (ErrLogForwardFailed e)).

(** ** Notifier *)

Definition error_text (chat_title : string) (target_id : Z)
    (error_msg time_str : string) : string :=
  "❌ 转发失败通知

源频道: " +:+ chat_title +:+ "
目标频道: " +:+ pretty target_id +:+ "
错误信息: " +:+ error_msg +:+ "
时间: " +:+ time_str.

Definition notify_admins_error (message : Message) (target_id : Z)
    (error_msg : string) : Coro Bot unit :=
  let chat_title :=
    if Str.truthy (title (chat message))
    then Str.or_empty (title (chat message))
    else pretty (chat_ident (chat message)) in
  now ← gets clock;
  let time_str := strftime now in
  let body := error_text chat_title target_id error_msg time_str in
  admin_ids ← gets (fun b => admins (config b));
  for_each admin_ids (fun admin_id =>
    try_except
      (await (SendMessage admin_id body);; mret tt)
      (fun e => logger_write (ErrNotifyAdminFailed admin_id e))).

(** ** Dispatcher *)

(** [messages[0]] *)
Definition first_message {Σ} (messages : list Message) : Coro Σ Message :=
  match messages with
  | m :: _ => mret m
  | [] => raise (Exception "IndexError: list index out of range")
  end.

(** The value of [send_media_group]: the sent messages. *)
Definition sent_messages_of {Σ} (v : Value) : Coro Σ (list Z) :=
  match v with
  | VMessages mids => mret mids
  | _ => raise (Exception "TypeError: not a sequence of messages")
  end.

(** [forwarded_message.message_id] on the value of [copy_message]. *)
Definition message_id_of {Σ} (v : Value) : Coro Σ Z :=
  match v with
  | VMessageId mid => mret mid
  | _ => raise (Exception "AttributeError: message_id")
  end.

(** The loop of [forward_media_group] that fills [media_list]; [i] is the
    index [enumerate] gives to the head of [messages]. *)
Fixpoint build_media_list (i : nat) (messages : list Message)
    (caption_text : option string) : Coro Bot (list InputMedia) :=
  match messages with
  | [] => mret []
  | message :: rest =>
      input_media ←
        (if (i =? 0)%nat && Str.truthy caption_text
         then create_input_media message caption_text
         else create_input_media message None);
      media_tail ← build_media_list (S i) rest caption_text;
      mret (match input_media with
            | Some im => im :: media_tail
            | None => media_tail
            end)
  end.

Definition success_row (target_id : Z) (is_group : bool)
    (original_msg : Message) (sent_id : Z) : ForwardLog :=
  mkForwardLog (chat_id original_msg) target_id (message_id original_msg)
    (Some sent_id) (get_message_type original_msg)
    (media_group_id original_msg) is_group true None.

Definition failure_row (target_id : Z) (is_group : bool)
    (error_msg : string) (message : Message) : ForwardLog :=
  mkForwardLog (chat_id message) target_id (message_id message)
    None (get_message_type message)
    (media_group_id message) is_group false (Some error_msg).

Definition forward_media_group (messages : list Message) : Coro Bot unit :=
  targets ← gets (fun b => target_channels (config b));
  for_each targets (fun target_id =>
    try_except
      (cfg ← gets config;
       caption_text ←
         (if add_source_info (forward_settings cfg)
          then m0 ← first_message messages; mret (Some (build_caption cfg m0))
          else mret None);
       media_list ← build_media_list 0 messages caption_text;
       match media_list with
       | [] => mret tt
       | _ :: _ =>
           v ← await (SendMediaGroup target_id media_list);
           sent_messages ← sent_messages_of v;
           for_each (zip messages sent_messages) (fun '(original_msg, sent_id) =>
             log_forward (success_row target_id true original_msg sent_id));;
           modify (with_stats (add_forwarded (Z.of_nat (length messages))));;
           modify (with_stats (add_groups_forwarded 1));;
           m0 ← first_message messages;
           logger_write (InfoGroupForwarded (chat_id m0) target_id (length messages))
       end)
      (fun error_msg =>
         m0 ← first_message messages;
         logger_write (ErrGroupForwardFailed (chat_id m0) target_id error_msg);;
         for_each messages (fun message =>
           log_forward (failure_row target_id true error_msg message));;
         modify (with_stats (add_failed (Z.of_nat (length messages))));;
         notify ← gets (fun b => notify_admin_on_error (config b));
         when notify
           (m0 ← first_message messages;
            notify_admins_error m0 target_id error_msg))).

Definition forward_single_message (message : Message) : Coro Bot unit :=
  targets ← gets (fun b => target_channels (config b));
  let kind := get_message_type message in
  for_each targets (fun target_id =>
    try_except
      (cfg ← gets config;
       let cap :=
         if add_source_info (forward_settings cfg)
         then Some (build_caption cfg message) else None in
       v ← await (CopyMessage target_id (chat_id message) (message_id message) cap);
       forwarded_id ← message_id_of v;
       log_forward (success_row target_id false message forwarded_id);;
       modify (with_stats (add_forwarded 1));;
       logger_write (InfoForwarded (chat_id message) target_id))
      (fun error_msg =>
         logger_write (ErrForwardFailed (chat_id message) target_id error_msg);;
         log_forward (failure_row target_id false error_msg message);;
         modify (with_stats (add_failed 1));;
         notify ← gets (fun b => notify_admin_on_error (config b));
         when notify (notify_admins_error message target_id error_msg))).

(** [len(messages) > 1 and messages[0].media_group_id], as a truth value. *)
Definition is_media_group_batch (messages : list Message) : bool :=
  bool_decide (1 < length messages)%nat
  && match messages with
     | m0 :: _ => Str.truthy (media_group_id m0)
     | [] => false
     end.

Definition forward_messages_group (messages : list Message) : Coro Bot unit :=
  match messages with
  | [] => mret tt
  | m0 :: _ =>
      targets ← gets (fun b => target_channels (config b));
      match targets with
      | [] => mret tt
      | _ :: _ =>
          delay ← gets (fun b => delay_seconds (forward_settings (config b)));
          when (0 <? delay) (await (Sleep delay);; mret tt);;
          if is_media_group_batch messages
          then logger_write (InfoForwardingGroup (length messages));;
               forward_media_group messages
          else logger_write InfoForwardingSingle;;
               forward_single_message m0
      end
  end.

(** ** Running a coroutine to completion

    [complete provider n o] runs [o] with nothing else interleaved and
    without cancellation: [asyncio.sleep] returns [None], and the [i]-th
    awaited request [r] of the run, when it is a call of the Telegram
    client, returns the value or raises the error that [provider i r]
    gives.  The run yields the result, the final state and the requests
    made, with their answers. *)

Record Run (Σ A : Type) := mkRun {
  result : exn + A;
  final : Σ;
  trace : list (Request * Response)
}.
#[global] Arguments mkRun {Σ A} _ _ _.
#[global] Arguments result {Σ A} _.
#[global] Arguments final {Σ A} _.
#[global] Arguments trace {Σ A} _.

Definition Provider := nat -> Request -> string + Value.

Definition answer (provider : Provider) (n : nat) (r : Request) : Response :=
  match r with
  | Sleep _ => Returned VNone
  | _ => match provider n r with
         | inl err => Raised (Exception err)
         | inr v => Returned v
         end
  end.

Fixpoint complete {Σ A} (provider : Provider) (n : nat) (o : Outcome Σ A)
    : Run Σ A :=
  match o with
  | Done a σ => mkRun (inr a) σ []
  | Failed e σ => mkRun (inl e) σ []
  | Suspended r σ k =>
      let resp := answer provider n r in
      let run := complete provider (S n) (k resp σ) in
      mkRun (result run) (final run) ((r, resp) :: trace run)
  end.

(** What [complete] does on [obind o f] and on [ocatch o h]. *)
Definition run_bind {Σ A B} (provider : Provider) (n : nat) (r1 : Run Σ A)
    (f : A -> Coro Σ B) : Run Σ B :=
  match result r1 with
  | inr a =>
      let r2 := complete provider (n + length (trace r1)) (f a (final r1)) in
      mkRun (result r2) (final r2) (trace r1 ++ trace r2)
  | inl e => mkRun (inl e) (final r1) (trace r1)
  end.

Definition run_catch {Σ A} (provider : Provider) (n : nat) (r1 : Run Σ A)
    (h : string -> Coro Σ A) : Run Σ A :=
  match result r1 with
  | inl (Exception msg) =>
      let r2 := complete provider (n + length (trace r1)) (h msg (final r1)) in
      mkRun (result r2) (final r2) (trace r1 ++ trace r2)
  | other => mkRun other (final r1) (trace r1)
  end.

(** The provider sends of a trace: destination and answer. *)
Definition send_attempt (ev : Request * Response) : option (Z * Response) :=
  match ev with
  | (CopyMessage to_chat _ _ _, resp) => Some (to_chat, resp)
  | (SendMediaGroup to_chat _, resp) => Some (to_chat, resp)
  | _ => None
  end.

Definition send_attempts (tr : list (Request * Response)) : list (Z * Response) :=
  omap send_attempt tr.

(** The [copy_message] calls of a trace: destination and message. *)
Definition copy_send (ev : Request * Response) : option (Z * Z) :=
  match ev with
  | (CopyMessage to_chat _ msg_id _, _) => Some (to_chat, msg_id)
  | _ => None
  end.

Definition copy_sends (tr : list (Request * Response)) : list (Z * Z) :=
  omap copy_send tr.

(** The [send_media_group] calls of a trace: destination and album. *)
Definition album_send (ev : Request * Response)
    : option (Z * list InputMedia) :=
  match ev with
  | (SendMediaGroup to_chat media, _) => Some (to_chat, media)
  | _ => None
  end.

Definition album_sends (tr : list (Request * Response))
    : list (Z * list InputMedia) :=
  omap album_send tr.

(** The admin notifications of a trace: admin and text. *)
Definition notification (ev : Request * Response) : option (Z * string) :=
  match ev with
  | (SendMessage to_chat body, _) => Some (to_chat, body)
  | _ => None
  end.

Definition notifications (tr : list (Request * Response)) : list (Z * string) :=
  omap notification tr.

(** The suspensions on [asyncio.sleep] of a trace. *)
Definition sleep_of (ev : Request * Response) : option Z :=
  match ev with
  | (Sleep d, _) => Some d
  | _ => None
  end.

Definition sleeps (tr : list (Request * Response)) : list Z := omap sleep_of tr.

(** ** Media-group handler *)

(** [list.sort(key=lambda m: m.message_id)]: the stable sort by message id. *)
Fixpoint insert_by_id (x : Message) (l : list Message) : list Message :=
  match l with
  | [] => [x]
  | y :: l' =>
      if message_id x <=? message_id y then x :: y :: l'
      else y :: insert_by_id x l'
  end.

Fixpoint sort_by_id (l : list Message) : list Message :=
  match l with
  | [] => []
  | x :: l' => insert_by_id x (sort_by_id l')
  end.

Record MediaGroupHandler := mkHandler {
  media_groups : gmap string (list Message);
  group_timers : gmap string nat;        (* group id to task *)
  timeout_seconds : Z
}.

(** What the asyncio loop knows of the tasks made by [create_task]: the
    next task identifier, the timer tasks created and not yet started (by
    the group they serve), and the tasks with a pending [cancel()]. *)
Record Asyncio := mkAsyncio {
  next_task : nat;
  created : gmap nat string;
  cancel_requested : gset nat
}.

(** The state the coroutines share: the handler, the loop's task table
    and the rest of the program, [W]. *)
Record St (W : Type) := mkSt {
  handler : MediaGroupHandler;
  aio : Asyncio;
  world : W
}.
#[global] Arguments mkSt {W} _ _ _.
#[global] Arguments handler {W} _.
#[global] Arguments aio {W} _.
#[global] Arguments world {W} _.

Section Handler.
Context {W : Type}.

Definition with_handler (f : MediaGroupHandler -> MediaGroupHandler)
    (σ : St W) : St W :=
  mkSt (f (handler σ)) (aio σ) (world σ).

Definition with_aio (f : Asyncio -> Asyncio) (σ : St W) : St W :=
  mkSt (handler σ) (f (aio σ)) (world σ).

Definition with_media_groups
    (f : gmap string (list Message) -> gmap string (list Message))
    (h : MediaGroupHandler) : MediaGroupHandler :=
  mkHandler (f (media_groups h)) (group_timers h) (timeout_seconds h).

Definition with_group_timers (f : gmap string nat -> gmap string nat)
    (h : MediaGroupHandler) : MediaGroupHandler :=
  mkHandler (media_groups h) (f (group_timers h)) (timeout_seconds h).

(** [asyncio.create_task(self._process_group_after_timeout(group_id, ..))] *)
Definition create_task (group_id : string) : Coro (St W) nat := fun σ =>
  let tid := next_task (aio σ) in
  Done tid (with_aio (fun a =>
    mkAsyncio (S tid) (<[tid := group_id]> (created a)) (cancel_requested a)) σ).

(** [task.cancel()] *)
Definition cancel (tid : nat) : Coro (St W) unit :=
  modify (with_aio (fun a =>
    mkAsyncio (next_task a) (created a) ({[tid]} ∪ cancel_requested a))).

(** [media_groups] is a [defaultdict(list)]: a group that has no buffer
    yet starts from the empty list. *)
Definition add_message (message : Message)
    (forward_callback : list Message -> Coro (St W) unit)
    : Coro (St W) unit :=
  if negb (Str.truthy (media_group_id message))
  then forward_callback [message]
  else
    let group_id := Str.or_empty (media_group_id message) in
    modify (with_handler (with_media_groups (fun groups =>
      <[group_id := default [] (groups !! group_id) ++ [message]]> groups)));;
    timers ← gets (fun σ => group_timers (handler σ));
    match timers !! group_id with
    | Some old => cancel old
    | None => mret tt
    end;;
    tid ← create_task group_id;
    modify (with_handler (with_group_timers (fun timers =>
      <[group_id := tid]> timers))).

(** The list handed to [forward_callback] is the one kept in
    [media_groups], sorted in place.  It is handed over by value: a
    message of the group that arrives while the callback is suspended is
    appended to the kept list, but [add_message] then cancels this very
    task, which reads the list no more. *)
Definition _process_group_after_timeout (group_id : string)
    (forward_callback : list Message -> Coro (St W) unit)
    : Coro (St W) unit :=
  seconds ← gets (fun σ => timeout_seconds (handler σ));
  await (Sleep seconds);;
  groups ← gets (fun σ => media_groups (handler σ));
  match groups !! group_id with
  | None => mret tt
  | Some buffered =>
      let messages := sort_by_id buffered in
      modify (with_handler (with_media_groups (fun groups =>
        <[group_id := messages]> groups)));;
      forward_callback messages;;
      groups ← gets (fun σ => media_groups (handler σ));
      match groups !! group_id with
      | None => raise (Exception "KeyError")
      | Some _ =>
          modify (with_handler (with_media_groups (delete group_id)))
      end;;
      timers ← gets (fun σ => group_timers (handler σ));
      when (bool_decide (is_Some (timers !! group_id)))
        (modify (with_handler (with_group_timers (delete group_id))))
  end.

(** Running a coroutine of the rest of the program on the shared state. *)
Fixpoint ozoom {A} (o : Outcome W A) (σ : St W) : Outcome (St W) A :=
  match o with
  | Done a w => Done a (mkSt (handler σ) (aio σ) w)
  | Failed e w => Failed e (mkSt (handler σ) (aio σ) w)
  | Suspended r w k =>
      Suspended r (mkSt (handler σ) (aio σ) w)
        (fun resp σ' => ozoom (k resp (world σ')) σ')
  end.

Definition zoom {A} (m : Coro W A) : Coro (St W) A :=
  fun σ => ozoom (m (world σ)) σ.

End Handler.

(** ** The event loop *)

(** A suspended task: the request it awaits and how it goes on. *)
Record Task (W : Type) := mkTask {
  awaiting : Request;
  resume : Response -> St W -> Outcome (St W) unit
}.
#[global] Arguments mkTask {W} _ _.
#[global] Arguments awaiting {W} _.
#[global] Arguments resume {W} _.

Record Loop (W : Type) := mkLoop {
  shared : St W;
  suspended : gmap nat (Task W)
}.
#[global] Arguments mkLoop {W} _ _.
#[global] Arguments shared {W} _.
#[global] Arguments suspended {W} _.

(** What happens outside: a message arrives, or the loop runs task [tid],
    whose awaited request (if it is suspended on one) has completed with
    [resp]. *)
Inductive Event :=
| Update (message : Message)
| Wake (tid : nat) (resp : Response).

Section EventLoop.
Context {W : Type}.
Variable on_update : Message -> Coro (St W) unit.
Variable forward_callback : list Message -> Coro (St W) unit.

(** A task ran up to [o]: it is finished (an exception that escapes a
    task stays in the task) or suspended again. *)
Definition settle (tid : nat) (o : Outcome (St W) unit)
    (tasks : gmap nat (Task W)) : Loop W :=
  match o with
  | Done _ σ => mkLoop σ (delete tid tasks)
  | Failed _ σ => mkLoop σ (delete tid tasks)
  | Suspended r σ k => mkLoop σ (<[tid := mkTask r k]> tasks)
  end.

Definition take_task_id (σ : St W) : St W :=
  with_aio (fun a =>
    mkAsyncio (S (next_task a)) (created a) (cancel_requested a)) σ.

Definition forget_created (tid : nat) (σ : St W) : St W :=
  with_aio (fun a =>
    mkAsyncio (next_task a) (delete tid (created a)) (cancel_requested a)) σ.

Definition clear_cancel (tid : nat) (σ : St W) : St W :=
  with_aio (fun a =>
    mkAsyncio (next_task a) (created a) (cancel_requested a ∖ {[tid]})) σ.

(** One turn of the loop.  An update starts its handler, which runs up to
    its first suspension.  A task that is run for the first time starts
    the coroutine it was created for, unless it was cancelled before,
    in which case it never runs.  A suspended task is resumed with the
    answer to its request, or, when [cancel()] was called on it in the
    meantime, with [CancelledError] thrown at its [await]. *)
Definition step (L : Loop W) (ev : Event) : Loop W :=
  let σ := shared L in
  match ev with
  | Update message =>
      settle (next_task (aio σ)) (on_update message (take_task_id σ))
             (suspended L)
  | Wake tid resp =>
      match created (aio σ) !! tid with
      | Some group_id =>
          (* first run of a timer task *)
          if bool_decide (tid ∈ cancel_requested (aio σ))
          then mkLoop (clear_cancel tid (forget_created tid σ)) (suspended L)
          else settle tid
                 (_process_group_after_timeout group_id forward_callback
                    (forget_created tid σ))
                 (suspended L)
      | None =>
          match suspended L !! tid with
          | Some task =>
              if bool_decide (tid ∈ cancel_requested (aio σ))
              then settle tid
                     (resume task (Raised CancelledError) (clear_cancel tid σ))
                     (suspended L)
              else settle tid (resume task resp σ) (suspended L)
          | None => L
          end
      end
  end.

Definition run_events (L : Loop W) (evs : list Event) : Loop W :=
  foldl step L evs.

End EventLoop.

(** ** The bot on the loop *)

Definition new_handler : MediaGroupHandler := mkHandler ∅ ∅ 3.

Definition new_asyncio : Asyncio := mkAsyncio 0 ∅ ∅.

Definition bot_callback (messages : list Message) : Coro (St Bot) unit :=
  zoom (forward_messages_group messages).

Definition handle_message (update_message : option Message)
    : Coro (St Bot) unit :=
  match update_message with
  | None => mret tt
  | Some message =>
      zoom (logger_write
              (InfoReceived (chat_id message) (media_group_id message)));;
      sources ← gets (fun σ => source_channels (config (world σ)));
      if negb (bool_decide (chat_id message ∈ sources)) then mret tt
      else
        zoom (modify (with_stats (add_received 1)));;
        let kind := get_message_type message in
        cfg ← gets (fun σ => config (world σ));
        if should_filter_message cfg message kind
        then zoom (logger_write (InfoFiltered kind))
        else add_message message bot_callback
  end.

Definition bot_step : Loop Bot -> Event -> Loop Bot :=
  step (fun message => handle_message (Some message)) bot_callback.

Definition bot_run (L : Loop Bot) (evs : list Event) : Loop Bot :=
  foldl bot_step L evs.

(** [TelegramForwardBot.__init__] followed by [run]: the handler's timeout
    is taken from the configuration. *)
Definition start_bot (b : Bot) : Loop Bot :=
  mkLoop
    (mkSt (mkHandler ∅ ∅ (media_group_timeout (forward_settings (config b))))
          new_asyncio b)
    ∅.

(** ** [utils.RateLimiter]

    A [datetime] is the number of microseconds since the epoch, a
    [timedelta] a number of microseconds. *)

Module RateLimiter.

Record t := mk {
  max_per_minute : Z;
  requests : list Z
}.

Definition second_us : Z := 1000000.
Definition minute_us : Z := 60 * second_us.
Definition day_us : Z := 86400 * second_us.

(** [timedelta.seconds]: the seconds field of the normalised delta. *)
Definition seconds (delta : Z) : Z := (delta `mod` day_us) `div` second_us.

(** [acquire], called when [datetime.now()] reads [now]. *)
Definition acquire (now : Z) (self : t) : bool * t :=
  let kept :=
    filter (fun req_time => now - req_time < minute_us) (requests self) in
  if bool_decide (max_per_minute self <= Z.of_nat (length kept))
  then (false, mk (max_per_minute self) kept)
  else (true, mk (max_per_minute self) (kept ++ [now])).

(** [min(self.requests)]; [ValueError] on the empty list. *)
Definition minimum (l : list Z) : option Z :=
  match l with
  | [] => None
  | x :: l' => Some (foldl Z.min x l')
  end.

(** [wait_if_needed]: the clock reads [now] in [acquire] and [later]
    when the sleep time is computed.  The result is the time the caller
    sleeps ([None]: it does not sleep), or the error raised. *)
Definition wait_if_needed (now later : Z) (self : t)
    : (string + option Z) * t :=
  let '(granted, self') := acquire now self in
  if granted then (inr None, self')
  else
    match minimum (requests self') with
    | None => (inl "ValueError: min() arg is an empty sequence", self')
    | Some oldest => (inr (Some (60 - seconds (later - oldest))), self')
    end.

(** A client that calls [wait_if_needed] before each send, at the
    times [calls], and sends as soon as the call returns: the times of
    its sends.  [asyncio.sleep] of a non-positive time returns at once. *)
Fixpoint send_times (calls : list Z) (self : t) : list Z :=
  match calls with
  | [] => []
  | now :: calls' =>
      let '(outcome, self') := wait_if_needed now now self in
      match outcome with
      | inl _ => send_times calls' self'
      | inr None => now :: send_times calls' self'
      | inr (Some slept) =>
          (now + Z.max 0 slept * second_us) :: send_times calls' self'
      end
  end.

(** The sends that fall in the 60 seconds from [start]. *)
Definition sends_in_window (start : Z) (sends : list Z) : nat :=
  length (filter (fun s => start <= s < start + minute_us) sends).

End RateLimiter.

(** ** What a dispatch leaves behind

    The rows and notifications that the answers of the provider call for,
    against which the runs of the dispatcher are compared. *)

(** The state after [log_forward row]. *)
Definition record_row (row : ForwardLog) (b : Bot) : Bot :=
  match db_faults b with
  | Some err :: rest =>
      mkBot (config b) (stats b) (forward_logs b) rest
            (logger b ++ [ErrLogForwardFailed err]) (clock b)
  | None :: rest =>
      mkBot (config b) (stats b) (forward_logs b ++ [row]) rest
            (logger b) (clock b)
  | [] =>
      mkBot (config b) (stats b) (forward_logs b ++ [row]) []
            (logger b) (clock b)
  end.

(** The rows of [rows] that a database behaving as [faults] commits. *)
Fixpoint commit_rows (faults : list (option string)) (rows : list ForwardLog)
    : list ForwardLog :=
  match rows with
  | [] => []
  | row :: rows' =>
      match faults with
      | Some _ :: rest => commit_rows rest rows'
      | None :: rest => row :: commit_rows rest rows'
      | [] => row :: commit_rows [] rows'
      end
  end.

(** What [create_input_media] returns. *)
Definition input_media_of (message : Message) (cap : option string)
    : option InputMedia :=
  match last (photo message) with
  | Some p => Some (InputMediaPhoto (file_id p) cap)
  | None =>
    match video message with
    | Some v => Some (InputMediaVideo (file_id v) cap)
    | None =>
      match document message with
      | Some d => Some (InputMediaDocument (file_id d) cap)
      | None =>
        match audio message with
        | Some a => Some (InputMediaAudio (file_id a) cap)
        | None => None
        end
      end
    end
  end.

(** What [build_media_list] returns. *)
Fixpoint media_list_of (i : nat) (messages : list Message)
    (caption_text : option string) : list InputMedia :=
  match messages with
  | [] => []
  | message :: rest =>
      let cap := if (i =? 0)%nat && Str.truthy caption_text
                 then caption_text else None in
      match input_media_of message cap with
      | Some im => im :: media_list_of (S i) rest caption_text
      | None => media_list_of (S i) rest caption_text
      end
  end.

(** The caption [forward_media_group] computes for the album. *)
Definition album_caption (cfg : Config) (messages : list Message)
    : option string :=
  match messages with
  | m0 :: _ =>
      if add_source_info (forward_settings cfg)
      then Some (build_caption cfg m0) else None
  | [] => None
  end.

(** [message.chat.title or str(message.chat.id)] *)
Definition chat_title_of (message : Message) : string :=
  if Str.truthy (title (chat message))
  then Str.or_empty (title (chat message))
  else pretty (chat_ident (chat message)).

Section Expected.
Variable cfg : Config.
Variable clk : DateTime.

(** The texts sent to the admins when forwarding [message] to
    [target_id] fails with [error_msg]. *)
Definition failure_notes (message : Message) (target_id : Z)
    (error_msg : string) : list (Z * string) :=
  if notify_admin_on_error cfg
  then
    let chat_title :=
      if Str.truthy (title (chat message))
      then Str.or_empty (title (chat message))
      else pretty (chat_ident (chat message)) in
    map (fun admin_id =>
           (admin_id, error_text chat_title target_id error_msg (strftime clk)))
        (admins cfg)
  else [].

(** The error with which a [copy_message] attempt ends, if any. *)
Definition copy_error (resp : Response) : option string :=
  match resp with
  | Returned (VMessageId _) => None
  | Returned _ => Some "AttributeError: message_id"
  | Raised (Exception err) => Some err
  | Raised CancelledError => None
  end.

(** The error with which a [send_media_group] attempt ends, if any. *)
Definition album_error (resp : Response) : option string :=
  match resp with
  | Returned (VMessages _) => None
  | Returned _ => Some "TypeError: not a sequence of messages"
  | Raised (Exception err) => Some err
  | Raised CancelledError => None
  end.

Definition single_rows (message : Message) (attempt : Z * Response)
    : list ForwardLog :=
  let '(target_id, resp) := attempt in
  match resp with
  | Returned (VMessageId mid) => [success_row target_id false message mid]
  | Raised CancelledError => []
  | _ =>
      match copy_error resp with
      | Some err => [failure_row target_id false err message]
      | None => []
      end
  end.

Definition single_notes (message : Message) (attempt : Z * Response)
    : list (Z * string) :=
  let '(target_id, resp) := attempt in
  match copy_error resp with
  | Some err => failure_notes message target_id err
  | None => []
  end.

Definition group_rows (messages : list Message) (attempt : Z * Response)
    : list ForwardLog :=
  let '(target_id, resp) := attempt in
  match resp with
  | Returned (VMessages mids) =>
      map (fun '(original_msg, sent_id) =>
             success_row target_id true original_msg sent_id)
          (zip messages mids)
  | Raised CancelledError => []
  | _ =>
      match album_error resp with
      | Some err => map (failure_row target_id true err) messages
      | None => []
      end
  end.

Definition group_notes (messages : list Message) (attempt : Z * Response)
    : list (Z * string) :=
  let '(target_id, resp) := attempt in
  match album_error resp, messages with
  | Some err, m0 :: _ => failure_notes m0 target_id err
  | _, _ => []
  end.

End Expected.

(** [run], started in [b], made the send attempts [expected] in order
    (as albums of [media] if [album], as copies otherwise), slept [slept],
    wrote the
    rows [rows_of] gives for the attempts as far as the database committed
    them, sent the notifications [notes_of] gives for them, and returned
    normally. *)
Record Dispatched (album : bool) (media : list InputMedia)
    (rows_of : Z * Response -> list ForwardLog)
    (notes_of : Z * Response -> list (Z * string))
    (expected : list Z) (slept : list Z) (b : Bot) (run : Run Bot unit)
    : Prop := {
  d_result : result run = inr tt;
  d_copies : album = true -> copy_sends (trace run) = [];
  d_albums : album = false -> album_sends (trace run) = [];
  d_media : Forall (fun a => a.2 = media) (album_sends (trace run));
  d_config : config (final run) = config b;
  d_clock : clock (final run) = clock b;
  d_attempts : (send_attempts (trace run)).*1 = expected;
  d_sleeps : sleeps (trace run) = slept;
  d_notes :
    notifications (trace run) = flat_map notes_of (send_attempts (trace run));
  d_rows :
    forward_logs (final run)
    = forward_logs b
      ++ commit_rows (db_faults b)
           (flat_map rows_of (send_attempts (trace run)));
  d_faults :
    db_faults (final run)
    = drop (length (flat_map rows_of (send_attempts (trace run)))) (db_faults b)
}.

(** The parts of the state that notifying leaves alone. *)
Record Untouched (b : Bot) (run : Run Bot unit) : Prop := {
  u_result : result run = inr tt;
  u_config : config (final run) = config b;
  u_clock : clock (final run) = clock b;
  u_rows : forward_logs (final run) = forward_logs b;
  u_faults : db_faults (final run) = db_faults b;
  u_attempts : send_attempts (trace run) = [];
  u_copies : copy_sends (trace run) = [];
  u_albums : album_sends (trace run) = [];
  u_sleeps : sleeps (trace run) = []
}.

(** The destinations of one round of [forward_media_group]: none when no
    message of the album can be represented. *)
Definition album_targets (cfg : Config) (messages : list Message) (t : Z)
    : list Z :=
  match media_list_of 0 messages (album_caption cfg messages) with
  | [] => []
  | _ :: _ => [t]
  end.

(** The outbound album format can represent [message]. *)
Definition representable (message : Message) : Prop :=
  is_Some (input_media_of message None).

(** When [send_media_group] succeeds it returns one sent message per item
    of the album. *)
Definition returns_album (provider : Provider) : Prop :=
  forall i to_chat media v,
    provider i (SendMediaGroup to_chat media) = inr v ->
    exists mids, v = VMessages mids /\ length mids = length media.

(** The batch [forward_messages_group] dispatches. *)
Definition dispatched_batch (messages : list Message) : list Message :=
  if is_media_group_batch messages then messages else take 1 messages.

(** A send is attempted for the batch at all. *)
Definition sendable (cfg : Config) (messages : list Message) : bool :=
  if is_media_group_batch messages
  then bool_decide (media_list_of 0 messages (album_caption cfg messages) ≠ [])
  else bool_decide (messages ≠ []).

(** The album sent for the batch, when it is sent as an album. *)
Definition batch_media (cfg : Config) (messages : list Message)
    : list InputMedia :=
  if is_media_group_batch messages
  then media_list_of 0 messages (album_caption cfg messages) else [].

Definition batch_targets (cfg : Config) (messages : list Message) : list Z :=
  if sendable cfg messages then target_channels cfg else [].

Definition batch_sleeps (cfg : Config) (messages : list Message) : list Z :=
  match messages, target_channels cfg with
  | _ :: _, _ :: _ =>
      if 0 <? delay_seconds (forward_settings cfg)
      then [delay_seconds (forward_settings cfg)] else []
  | _, _ => []
  end.

Definition batch_rows (messages : list Message) (attempt : Z * Response)
    : list ForwardLog :=
  if is_media_group_batch messages then group_rows messages attempt
  else match messages with
       | m0 :: _ => single_rows m0 attempt
       | [] => []
       end.

Definition batch_notes (cfg : Config) (clk : DateTime)
    (messages : list Message) (attempt : Z * Response) : list (Z * string) :=
  if is_media_group_batch messages then group_notes cfg clk messages attempt
  else match messages with
       | m0 :: _ => single_notes cfg clk m0 attempt
       | [] => []
       end.

(** ** An observer for the handler: the batches given to the callback *)

Definition emit (messages : list Message)
    : Coro (St (list (list Message))) unit :=
  modify (fun σ => mkSt (handler σ) (aio σ) (world σ ++ [messages])).

Definition observer_step
    : Loop (list (list Message)) -> Event -> Loop (list (list Message)) :=
  step (fun message => add_message message emit) emit.

(** ** The handler, step by step *)

(** The state after [add_message] of a message of group [group_id]. *)
Definition arrive {W} (group_id : string) (message : Message) (σ : St W)
    : St W :=
  let h := handler σ in
  let a := aio σ in
  mkSt
    (mkHandler
       (<[group_id := default [] (media_groups h !! group_id) ++ [message]]>
          (media_groups h))
       (<[group_id := next_task a]> (group_timers h))
       (timeout_seconds h))
    (mkAsyncio
       (S (next_task a))
       (<[next_task a := group_id]> (created a))
       (match group_timers h !! group_id with
        | Some old => {[old]} ∪ cancel_requested a
        | None => cancel_requested a
        end))
    (world σ).

(** How [_process_group_after_timeout] goes on when its sleep is over. *)
Definition after_sleep {W} (group_id : string)
    (forward_callback : list Message -> Coro (St W) unit)
    : Response -> St W -> Outcome (St W) unit :=
  fun resp σ' =>
    obind
      match resp with
      | Returned v => Done v σ'
      | Raised e => Failed e σ'
      end
      (fun _ =>
         groups ← gets (fun σ => media_groups (handler σ));
         match groups !! group_id with
         | None => mret tt
         | Some buffered =>
             let messages := sort_by_id buffered in
             modify (with_handler (with_media_groups (fun groups =>
               <[group_id := messages]> groups)));;
             forward_callback messages;;
             groups ← gets (fun σ => media_groups (handler σ));
             match groups !! group_id with
             | None => raise (Exception "KeyError")
             | Some _ =>
                 modify (with_handler (with_media_groups (delete group_id)))
             end;;
             timers ← gets (fun σ => group_timers (handler σ));
             when (bool_decide (is_Some (timers !! group_id)))
               (modify (with_handler (with_group_timers (delete group_id))))
         end).

(** ** The debounce window of a group *)

(** The messages that arrive in a sequence of events. *)
Definition arrival (ev : Event) : option Message :=
  match ev with
  | Update message => Some message
  | Wake _ _ => None
  end.

Definition arrivals (evs : list Event) : list Message := omap arrival evs.

(** The task registered as the timer of [group_id]. *)
Definition live_timer {W} (L : Loop W) (group_id : string) : option nat :=
  group_timers (handler (shared L)) !! group_id.

(** [ev] ends the debounce of [group_id]: it wakes its timer from the
    sleep. *)
Definition expires {W} (group_id : string) (L : Loop W) (ev : Event) : bool :=
  match ev with
  | Update _ => false
  | Wake tid _ =>
      bool_decide (live_timer L group_id = Some tid)
      && bool_decide (is_Some (suspended L !! tid))
  end.

(** The events [evs], from [L] on, fall within one debounce window of
    [group_id]: the messages that arrive belong to the group, and its
    timer does not run out.  (Timers that were replaced may be run, and
    the current one may be started.) *)
Fixpoint within_window (group_id : string) (L : Loop (list (list Message)))
    (evs : list Event) : Prop :=
  match evs with
  | [] => True
  | ev :: evs' =>
      match ev with
      | Update message => media_group_id message = Some group_id
      | Wake _ _ => True
      end
      /\ expires group_id L ev = false
      /\ within_window group_id (observer_step L ev) evs'
  end.

(** No task is pending and nothing is buffered for [group_id]. *)
Record at_rest {W} (group_id : string) (L : Loop W) : Prop := {
  rest_suspended : suspended L = ∅;
  rest_created : created (aio (shared L)) = ∅;
  rest_cancel : cancel_requested (aio (shared L)) = ∅;
  rest_buffer : media_groups (handler (shared L)) !! group_id = None;
  rest_timer : group_timers (handler (shared L)) !! group_id = None
}.

(** The debounce of [group_id] runs out: its timer is started if it has
    not been yet, and its sleep returns. *)
Definition expire (group_id : string) (L : Loop (list (list Message)))
    : Loop (list (list Message)) :=
  match live_timer L group_id with
  | Some tid =>
      let L' :=
        if bool_decide (is_Some (created (aio (shared L)) !! tid))
        then observer_step L (Wake tid (Returned VNone)) else L in
      observer_step L' (Wake tid (Returned VNone))
  | None => L
  end.

(** Ascending message ids. *)
Definition id_le (m1 m2 : Message) : Prop := message_id m1 <= message_id m2.

Abbreviation Batches := (list (list Message)).

(** What holds of the loop while the debounce window of [g] is open and
    the messages [ms] have arrived in it. *)
Record window_inv (g : string) (w0 : Batches) (ms : list Message)
    (L : Loop Batches) : Prop := {
  wi_world : world (shared L) = w0;
  wi_buffer :
    media_groups (handler (shared L)) !! g
    = (match ms with [] => None | _ :: _ => Some ms end);
  wi_timer :
    match ms with
    | [] => live_timer L g = None
    | _ :: _ =>
        exists tid, live_timer L g = Some tid
          /\ (tid ∉ cancel_requested (aio (shared L)))
          /\ (is_Some (created (aio (shared L)) !! tid)
              \/ is_Some (suspended L !! tid))
    end;
  wi_created : forall tid g',
    created (aio (shared L)) !! tid = Some g' ->
    g' = g /\ (tid < next_task (aio (shared L)))%nat
    /\ suspended L !! tid = None
    /\ (live_timer L g ≠ Some tid -> tid ∈ cancel_requested (aio (shared L)));
  wi_suspended : forall tid task,
    suspended L !! tid = Some task ->
    resume task = after_sleep g emit
    /\ (tid < next_task (aio (shared L)))%nat
    /\ (live_timer L g ≠ Some tid -> tid ∈ cancel_requested (aio (shared L)));
  wi_cancel : forall tid,
    tid ∈ cancel_requested (aio (shared L)) ->
    (tid < next_task (aio (shared L)))%nat;
  wi_live : forall tid,
    live_timer L g = Some tid -> (tid < next_task (aio (shared L)))%nat
}.

(** ** Sample data *)

Module Sample.

Definition date0 : DateTime := mkDateTime 2024 1 2 3 4 5.
Definition chat0 : Chat := mkChat (-100) (Some "src").
Definition alice : User := mkUser 7 "Alice".

Definition text_message (mid : Z) (body : string) : Message :=
  mkMessage mid chat0 None (Some body) None [] None None None None None None
            false false (Some alice) date0.

Definition photo_message (mid : Z) (group : option string)
    (cap : option string) : Message :=
  mkMessage mid chat0 group None cap [mkFile "photo-file" 1000]
            None None None None None None false false (Some alice) date0.

Definition video_message (mid : Z) (group : option string) : Message :=
  mkMessage mid chat0 group None None [] (Some (mkFile "video-file" 5000))
            None None None None None false false (Some alice) date0.

Definition sticker_message (mid : Z) (group : option string) : Message :=
  mkMessage mid chat0 group None None [] None None None None
            (Some (mkFile "sticker-file" 10)) None false false
            (Some alice) date0.

Definition settings0 : ForwardSettings :=
  mkForwardSettings true true [] [] 0 60 3.

Definition config0 (targets : list Z) : Config :=
  mkConfig [1] [-100] targets settings0 true.

Definition bot0 (targets : list Z) : Bot :=
  mkBot (config0 targets) (mkStats 0 0 0 0) [] [] [] date0.

(** The handler alone, observed through [emit], before any message. *)
Definition observer0 : Loop (list (list Message)) :=
  mkLoop (mkSt new_handler new_asyncio []) ∅.

(** The messages 5, 3 and 4 of the album [g1] arrive in this order; the
    timer of each is started, and the timers that were replaced are
    cancelled in their sleep. *)
Definition album_events : list Event :=
  [Update (photo_message 5 (Some "g1") None); Wake 1 (Returned VNone);
   Update (photo_message 3 (Some "g1") None); Wake 1 (Returned VNone);
   Wake 3 (Returned VNone);
   Update (photo_message 4 (Some "g1") None); Wake 3 (Returned VNone)].

(** The album [g1] to two destinations: message 1 arrives, its timer
    runs out and the copy to the first destination is delivered; while
    the copy to the second destination is awaited, message 2 of the
    album arrives; the provider then answers, the new timer runs out and
    both album sends are delivered. *)
Definition race_events : list Event :=
  [Update (photo_message 1 (Some "g1") None);
   Wake 1 (Returned VNone);
   Wake 1 (Returned VNone);
   Wake 1 (Returned (VMessageId 1001));
   Update (photo_message 2 (Some "g1") None);
   Wake 1 (Returned (VMessageId 1001));
   Wake 3 (Returned VNone);
   Wake 3 (Returned VNone);
   Wake 3 (Returned (VMessages [2001; 2002]));
   Wake 3 (Returned (VMessages [2003; 2004]))].

(** A bot that filters videos out, with one destination. *)
Definition no_video_bot : Bot :=
  mkBot (mkConfig [1] [-100] [10]
                  (mkForwardSettings true true ["video"] [] 0 60 3) true)
        (mkStats 0 0 0 0) [] [] [] date0.

(** What is seen of the rows of [forward_logs]: message, destination,
    group flag and success. *)
Definition row_view (row : ForwardLog) : Z * Z * bool * bool :=
  (original_message_id row, target_chat_id row, is_media_group row,
   success row).

(** A provider that accepts everything: the copy of message [m] gets
    the id [1000 + m], an album one sent message per item. *)
Definition obliging : Provider := fun _ r =>
  match r with
  | Sleep _ => inr VNone
  | CopyMessage _ _ mid _ => inr (VMessageId (1000 + mid))
  | SendMediaGroup _ media =>
      inr (VMessages (map (fun i => 2000 + Z.of_nat i) (seq 0 (length media))))
  | SendMessage _ _ => inr VNone
  end.

(** A provider that rejects every send to [bad] with [err]. *)
Definition failing_on (bad : Z) (err : string) : Provider := fun n r =>
  match r with
  | CopyMessage to_chat _ _ _ =>
      if bool_decide (to_chat = bad) then inl err else obliging n r
  | SendMediaGroup to_chat _ =>
      if bool_decide (to_chat = bad) then inl err else obliging n r
  | _ => obliging n r
  end.

End Sample.

(** ** More of what the runs are compared with *)

(** The line [notify_admins_error] writes to the operational log for an
    awaited send, when the send raised. *)
Definition notify_failure (ev : Request * Response) : option LogLine :=
  match ev with
  | (SendMessage admin_id _, Raised (Exception err)) =>
      Some (ErrNotifyAdminFailed admin_id err)
  | _ => None
  end.

(** The provider accepted the send: it returned what the dispatcher reads
    the sent messages from. *)
Definition accepted (album : bool) (attempt : Z * Response) : bool :=
  match attempt.2 with
  | Returned (VMessages _) => album
  | Returned (VMessageId _) => negb album
  | _ => false
  end.

(** What one send attempt for a batch of [size] messages adds to [stats]. *)
Definition count_attempt (album : bool) (size : Z) (attempt : Z * Response)
    (s : Stats) : Stats :=
  if accepted album attempt
  then if album then add_groups_forwarded 1 (add_forwarded size s)
       else add_forwarded size s
  else add_failed size s.

(** [run], started in [b], returned normally and counted its send
    attempts with [count]. *)
Record Tallied (count : Z * Response -> Stats -> Stats) (b : Bot)
    (run : Run Bot unit) : Prop := {
  t_result : result run = inr tt;
  t_stats :
    stats (final run)
    = foldl (fun s a => count a s) (stats b) (send_attempts (trace run))
}.

(** What [handle_message] does before it reaches the filter. *)
Definition received (message : Message) (σ : St Bot) : St Bot :=
  mkSt (handler σ) (aio σ)
    (with_stats (add_received 1)
       (with_logger
          (fun ls => ls ++ [InfoReceived (chat_id message)
                                         (media_group_id message)])
          (world σ))).

(** The timers of different groups are different tasks, and all were made
    by the loop. *)
Record timers_wf {W} (L : Loop W) : Prop := {
  wf_distinct : forall g1 g2 tid,
    group_timers (handler (shared L)) !! g1 = Some tid ->
    group_timers (handler (shared L)) !! g2 = Some tid ->
    g1 = g2;
  wf_made : forall g tid,
    group_timers (handler (shared L)) !! g = Some tid ->
    (tid < next_task (aio (shared L)))%nat
}.

(** The content types that [create_input_media] has a case for. *)
Definition album_kinds : list string := ["photo"; "video"; "document"; "audio"].

(** A row agrees with itself: a success carries the id of the sent
    message and no error, a failure an error and no id. *)
Definition row_consistent (row : ForwardLog) : Prop :=
  if success row
  then is_Some (forwarded_message_id row) /\ error_message row = None
  else forwarded_message_id row = None /\ is_Some (error_message row).

(** A row is about the message [m], forwarded to [target_id]. *)
Definition row_about (target_id : Z) (m : Message) (row : ForwardLog)
    : Prop :=
  target_chat_id row = target_id
  /\ source_chat_id row = chat_id m
  /\ original_message_id row = message_id m
  /\ content_type row = get_message_type m
  /\ log_media_group_id row = media_group_id m.

(** ** Clients of the rate limiter *)

(** A client that sends only when [acquire] returns [True], and calls it
    at the times [calls]: the times of its sends. *)
Fixpoint granted_times (calls : list Z) (self : RateLimiter.t) : list Z :=
  match calls with
  | [] => []
  | now :: calls' =>
      let '(granted, self') := RateLimiter.acquire now self in
      if granted then now :: granted_times calls' self'
      else granted_times calls' self'
  end.

(** What relates a limiter to the sends [history] it has granted so far,
    the clock having last read [last]: it remembers the sends of the last
    minute, and no minute holds more than [max_per_minute] sends. *)
Record limiter_inv (history : list Z) (last : Z) (self : RateLimiter.t)
    : Prop := {
  li_requests :
    RateLimiter.requests self
    = filter (fun h => last - h < RateLimiter.minute_us) history;
  li_bound : forall start,
    Z.of_nat (RateLimiter.sends_in_window start history)
    <= Z.max 0 (RateLimiter.max_per_minute self)
}.

(** ** Escaping for MarkdownV2

    A [str] is embedded as the bytes of its UTF-8 encoding.  The reserved
    characters are ASCII, and an ASCII byte occurs in the encoding of no
    other character, so substituting per byte is substituting per
    character. *)

Definition escape_chars : string := "_*[]()~`>#+-=|{}.!".

(** [c] is one of the characters of [s]. *)
Fixpoint char_in (c : Ascii.ascii) (s : string) : bool :=
  match s with
  | EmptyString => false
  | String d s' => Ascii.eqb c d || char_in c s'
  end.

(** The character class [[...]] built from [re.escape(escape_chars)]. *)
Definition is_escape_char (c : Ascii.ascii) : bool := char_in c escape_chars.

Definition backslash : Ascii.ascii := Eval cbv in Ascii.ascii_of_nat 92.

(** [re.sub(f'([{re.escape(escape_chars)}])', r'\\\1', text)]: a backslash
    is put in front of every reserved character. *)
Fixpoint escape_markdown_v2 (text : string) : string :=
  match text with
  | EmptyString => EmptyString
  | String c rest =>
      if is_escape_char c
      then String backslash (String c (escape_markdown_v2 rest))
      else String c (escape_markdown_v2 rest)
  end.

(** Reading an escaped text back: a backslash in front of a reserved
    character is dropped. *)
Fixpoint unescape (s : string) : string :=
  match s with
  | EmptyString => EmptyString
  | String c tail =>
      match tail with
      | EmptyString => String c EmptyString
      | String d rest =>
          if Ascii.eqb c backslash && is_escape_char d
          then String d (unescape rest)
          else String c (unescape tail)
      end
  end.

(** ** Admin commands

    The handlers of the configuration commands.  [Panel] is the part of
    [TelegramForwardBot] they work on: the bot, and the configuration
    file, seen through the calls of [save_config].  A call writes the
    configuration of the moment; [file_faults] is the behaviour of the
    file system for the coming writes, one entry per write, as
    [db_faults] is for the database.  [save_config] catches the error of
    a failed write and logs it: the error is kept with the write. *)

Record Panel := mkPanel {
  panel_bot : Bot;
  config_writes : list (Config * option string);
  file_faults : list (option string)
}.

(** A command update: the user it comes from, the chat of its message
    and the words after the command. *)
Record CommandUpdate := mkCommandUpdate {
  effective_user_id : Z;
  reply_chat : Z;
  args : list string
}.

Definition with_config (f : Config -> Config) (p : Panel) : Panel :=
  let b := panel_bot p in
  mkPanel (mkBot (f (config b)) (stats b) (forward_logs b) (db_faults b)
                 (logger b) (clock b))
          (config_writes p) (file_faults p).

Definition set_admins (l : list Z) (cfg : Config) : Config :=
  mkConfig l (source_channels cfg) (target_channels cfg)
           (forward_settings cfg) (notify_admin_on_error cfg).

Definition set_source_channels (l : list Z) (cfg : Config) : Config :=
  mkConfig (admins cfg) l (target_channels cfg)
           (forward_settings cfg) (notify_admin_on_error cfg).

Definition set_target_channels (l : list Z) (cfg : Config) : Config :=
  mkConfig (admins cfg) (source_channels cfg) l
           (forward_settings cfg) (notify_admin_on_error cfg).

Definition set_delay_seconds (d : Z) (cfg : Config) : Config :=
  let s := forward_settings cfg in
  mkConfig (admins cfg) (source_channels cfg) (target_channels cfg)
           (mkForwardSettings (preserve_sender s) (add_source_info s)
              (filter_content_types s) (keyword_filter s) d
              (max_forwards_per_minute s) (media_group_timeout s))
           (notify_admin_on_error cfg).

Definition set_add_source_info (v : bool) (cfg : Config) : Config :=
  let s := forward_settings cfg in
  mkConfig (admins cfg) (source_channels cfg) (target_channels cfg)
           (mkForwardSettings (preserve_sender s) v
              (filter_content_types s) (keyword_filter s) (delay_seconds s)
              (max_forwards_per_minute s) (media_group_timeout s))
           (notify_admin_on_error cfg).

(** [list.remove(x)], for an [x] that is in the list: the first
    occurrence goes. *)
Fixpoint list_remove (x : Z) (l : list Z) : list Z :=
  match l with
  | [] => []
  | y :: l' => if bool_decide (y = x) then l' else y :: list_remove x l'
  end.

(** [save_config()]: the configuration of the moment is dumped to the
    file; a failure is logged, not raised. *)
Definition save_config : Coro Panel unit := fun p =>
  let cfg := config (panel_bot p) in
  match file_faults p with
  | outcome :: rest =>
      Done tt (mkPanel (panel_bot p) (config_writes p ++ [(cfg, outcome)]) rest)
  | [] =>
      Done tt (mkPanel (panel_bot p) (config_writes p ++ [(cfg, None)]) [])
  end.

(** [update.message.reply_text(body)]: a message to the chat of the
    command.  (The parse mode is left out of the request.) *)
Definition reply_text (update : CommandUpdate) (body : string)
    : Coro Panel unit :=
  await (SendMessage (reply_chat update) body);; mret tt.

Definition is_admin (user_id : Z) : Coro Panel bool :=
  gets (fun p => bool_decide (user_id ∈ admins (config (panel_bot p)))).

(** The lines of the [list_] commands: [text += f"{i}\\. `{id}`\n"] for
    [i, id] in [enumerate(ids, 1)]. *)
Definition numbered (header : string) (ids : list Z) : string :=
  foldl (fun text '(i, id) =>
           text +:+ pretty i +:+ "\. `" +:+ pretty id +:+ "`
")
        header
        (zip (seqZ 1 (Z.of_nat (length ids))) ids).

Section Commands.

(** [int(s)] on a word of the command: the integer, or [None] for
    [ValueError].  Which words Python reads as integers does not matter
    to what follows.  The errors of the Telegram client are none of them
    [ValueError]s, so the [except ValueError] of a handler is entered
    for a word that is not an integer, and only then. *)
Variable int : string -> option Z.

Definition start_command (update : CommandUpdate) : Coro Panel unit :=
  let user_id := effective_user_id update in
  admin ← is_admin user_id;
  if negb admin
  then reply_text update "❌ 您没有权限使用此机器人"
  else
    let welcome_text := "🤖 *Telegram 转发机器人已启动*

*主要功能:*
📢 自动转发指定频道/群组的消息到多个目标
📊 详细的转发统计和日志
⚙️ 灵活的配置选项
🔒 管理员权限控制
🖼️ 支持媒体组完整转发

*快速开始:*
1\. `/add_source <频道ID>` \- 添加源频道
2\. `/add_target <频道ID>` \- 添加目标频道
3\. `/status` \- 查看当前状态

输入 `/help` 查看所有命令" in
    reply_text update welcome_text.

Definition add_source_command (update : CommandUpdate) : Coro Panel unit :=
  let user_id := effective_user_id update in
  admin ← is_admin user_id;
  if negb admin then mret tt
  else
    match args update with
    | [] => reply_text update "❌ 请提供频道ID
用法: `/add_source -1001234567890`"
    | arg0 :: _ =>
        match int arg0 with
        | Some channel_id =>
            sources ← gets (fun p => source_channels (config (panel_bot p)));
            if bool_decide (channel_id ∉ sources)
            then
              modify (with_config (fun cfg =>
                set_source_channels (source_channels cfg ++ [channel_id]) cfg));;
              save_config;;
              reply_text update
                ("✅ 已添加源频道: `" +:+ pretty channel_id +:+ "`")
            else reply_text update "❌ 该频道已存在于源列表中"
        | None => reply_text update "❌ 无效的频道ID"
        end
    end.

Definition add_target_command (update : CommandUpdate) : Coro Panel unit :=
  let user_id := effective_user_id update in
  admin ← is_admin user_id;
  if negb admin then mret tt
  else
    match args update with
    | [] => reply_text update "❌ 请提供频道ID
用法: `/add_target -1001234567890`"
    | arg0 :: _ =>
        match int arg0 with
        | Some channel_id =>
            targets ← gets (fun p => target_channels (config (panel_bot p)));
            if bool_decide (channel_id ∉ targets)
            then
              modify (with_config (fun cfg =>
                set_target_channels (target_channels cfg ++ [channel_id]) cfg));;
              save_config;;
              reply_text update
                ("✅ 已添加目标频道: `" +:+ pretty channel_id +:+ "`")
            else reply_text update "❌ 该频道已存在于目标列表中"
        | None => reply_text update "❌ 无效的频道ID"
        end
    end.

Definition remove_source_command (update : CommandUpdate)
    : Coro Panel unit :=
  let user_id := effective_user_id update in
  admin ← is_admin user_id;
  if negb admin then mret tt
  else
    match args update with
    | [] => reply_text update "❌ 请提供频道ID
用法: `/remove_source -1001234567890`"
    | arg0 :: _ =>
        match int arg0 with
        | Some channel_id =>
            sources ← gets (fun p => source_channels (config (panel_bot p)));
            if bool_decide (channel_id ∈ sources)
            then
              modify (with_config (fun cfg =>
                set_source_channels
                  (list_remove channel_id (source_channels cfg)) cfg));;
              save_config;;
              reply_text update
                ("✅ 已移除源频道: `" +:+ pretty channel_id +:+ "`")
            else reply_text update "❌ 该频道不在源列表中"
        | None => reply_text update "❌ 无效的频道ID"
        end
    end.

Definition remove_target_command (update : CommandUpdate)
    : Coro Panel unit :=
  let user_id := effective_user_id update in
  admin ← is_admin user_id;
  if negb admin then mret tt
  else
    match args update with
    | [] => reply_text update "❌ 请提供频道ID
用法: `/remove_target -1001234567890`"
    | arg0 :: _ =>
        match int arg0 with
        | Some channel_id =>
            targets ← gets (fun p => target_channels (config (panel_bot p)));
            if bool_decide (channel_id ∈ targets)
            then
              modify (with_config (fun cfg =>
                set_target_channels
                  (list_remove channel_id (target_channels cfg)) cfg));;
              save_config;;
              reply_text update
                ("✅ 已移除目标频道: `" +:+ pretty channel_id +:+ "`")
            else reply_text update "❌ 该频道不在目标列表中"
        | None => reply_text update "❌ 无效的频道ID"
        end
    end.

Definition list_sources_command (update : CommandUpdate) : Coro Panel unit :=
  let user_id := effective_user_id update in
  admin ← is_admin user_id;
  if negb admin then mret tt
  else
    sources ← gets (fun p => source_channels (config (panel_bot p)));
    match sources with
    | [] => reply_text update "📢 当前没有配置源频道"
    | _ :: _ => reply_text update (numbered "📢 *源频道列表:*

" sources)
    end.

Definition list_targets_command (update : CommandUpdate) : Coro Panel unit :=
  let user_id := effective_user_id update in
  admin ← is_admin user_id;
  if negb admin then mret tt
  else
    targets ← gets (fun p => target_channels (config (panel_bot p)));
    match targets with
    | [] => reply_text update "🎯 当前没有配置目标频道"
    | _ :: _ => reply_text update (numbered "🎯 *目标频道列表:*

" targets)
    end.

Definition add_admin_command (update : CommandUpdate) : Coro Panel unit :=
  let user_id := effective_user_id update in
  admin ← is_admin user_id;
  if negb admin then mret tt
  else
    match args update with
    | [] => reply_text update "❌ 请提供用户ID
用法: `/add_admin 123456789`"
    | arg0 :: _ =>
        match int arg0 with
        | Some new_admin_id =>
            admin_ids ← gets (fun p => admins (config (panel_bot p)));
            if bool_decide (new_admin_id ∉ admin_ids)
            then
              modify (with_config (fun cfg =>
                set_admins (admins cfg ++ [new_admin_id]) cfg));;
              save_config;;
              reply_text update
                ("✅ 已添加管理员: `" +:+ pretty new_admin_id +:+ "`")
            else reply_text update "❌ 该用户已是管理员"
        | None => reply_text update "❌ 无效的用户ID"
        end
    end.

Definition list_admins_command (update : CommandUpdate) : Coro Panel unit :=
  let user_id := effective_user_id update in
  admin ← is_admin user_id;
  if negb admin then mret tt
  else
    admin_ids ← gets (fun p => admins (config (panel_bot p)));
    match admin_ids with
    | [] => reply_text update "👥 当前没有配置管理员"
    | _ :: _ => reply_text update (numbered "👥 *管理员列表:*

" admin_ids)
    end.

Definition set_delay_command (update : CommandUpdate) : Coro Panel unit :=
  let user_id := effective_user_id update in
  admin ← is_admin user_id;
  if negb admin then mret tt
  else
    match args update with
    | [] => reply_text update "❌ 请提供延迟秒数
用法: `/set_delay 5`"
    | arg0 :: _ =>
        match int arg0 with
        | Some delay =>
            if delay <? 0
            then reply_text update "❌ 延迟时间不能为负数"
            else
              modify (with_config (set_delay_seconds delay));;
              save_config;;
              reply_text update
                ("✅ 转发延迟已设置为 " +:+ pretty delay +:+ " 秒")
        | None => reply_text update "❌ 无效的数字"
        end
    end.

Definition toggle_source_info_command (update : CommandUpdate)
    : Coro Panel unit :=
  let user_id := effective_user_id update in
  admin ← is_admin user_id;
  if negb admin then mret tt
  else
    current ← gets (fun p =>
      add_source_info (forward_settings (config (panel_bot p))));
    modify (with_config (set_add_source_info (negb current)));;
    save_config;;
    let status := if negb current then "开启" else "关闭" in
    reply_text update ("✅ 来源信息显示已" +:+ status).

(** The configuration commands of [register_handlers]. *)
Inductive Command :=
| Start | AddSource | AddTarget | RemoveSource | RemoveTarget
| ListSources | ListTargets | AddAdmin | ListAdmins
| SetDelay | ToggleSourceInfo.

Definition command_handler (command : Command)
    : CommandUpdate -> Coro Panel unit :=
  match command with
  | Start => start_command
  | AddSource => add_source_command
  | AddTarget => add_target_command
  | RemoveSource => remove_source_command
  | RemoveTarget => remove_target_command
  | ListSources => list_sources_command
  | ListTargets => list_targets_command
  | AddAdmin => add_admin_command
  | ListAdmins => list_admins_command
  | SetDelay => set_delay_command
  | ToggleSourceInfo => toggle_source_info_command
  end.

End Commands.

(** The panel after [save_config]. *)
Definition saved (p : Panel) : Panel :=
  let cfg := config (panel_bot p) in
  match file_faults p with
  | outcome :: rest =>
      mkPanel (panel_bot p) (config_writes p ++ [(cfg, outcome)]) rest
  | [] => mkPanel (panel_bot p) (config_writes p ++ [(cfg, None)]) []
  end.

Section CommandEffects.
Variable int : string -> option Z.

(** The change a command asks for: the word it reads as an integer, if
    it needs one and has one. *)
Definition command_argument (update : CommandUpdate) : option Z :=
  match args update with
  | [] => None
  | arg0 :: _ => int arg0
  end.

(** The configuration a command leaves and saves, when it changes (or
    sets again) a setting. *)
Definition config_after (command : Command) (update : CommandUpdate)
    (cfg : Config) : option Config :=
  if bool_decide (effective_user_id update ∈ admins cfg)
  then
    match command with
    | Start | ListSources | ListTargets | ListAdmins => None
    | ToggleSourceInfo =>
        Some (set_add_source_info
                (negb (add_source_info (forward_settings cfg))) cfg)
    | AddSource =>
        id ← command_argument update;
        if bool_decide (id ∉ source_channels cfg)
        then Some (set_source_channels (source_channels cfg ++ [id]) cfg)
        else None
    | AddTarget =>
        id ← command_argument update;
        if bool_decide (id ∉ target_channels cfg)
        then Some (set_target_channels (target_channels cfg ++ [id]) cfg)
        else None
    | RemoveSource =>
        id ← command_argument update;
        if bool_decide (id ∈ source_channels cfg)
        then Some (set_source_channels
                     (list_remove id (source_channels cfg)) cfg)
        else None
    | RemoveTarget =>
        id ← command_argument update;
        if bool_decide (id ∈ target_channels cfg)
        then Some (set_target_channels
                     (list_remove id (target_channels cfg)) cfg)
        else None
    | AddAdmin =>
        id ← command_argument update;
        if bool_decide (id ∉ admins cfg)
        then Some (set_admins (admins cfg ++ [id]) cfg)
        else None
    | SetDelay =>
        delay ← command_argument update;
        if delay <? 0 then None else Some (set_delay_seconds delay cfg)
    end
  else None.

End CommandEffects.

(** A run that did nothing but, at most, answer the command. *)
Definition replied (update : CommandUpdate) (run : Run Panel unit) : Prop :=
  trace run = []
  \/ exists body resp, trace run = [(SendMessage (reply_chat update) body, resp)].

(** ** The configuration file

    What [json.load] returns.  A [dict] is the list of its items, in
    insertion order, looked up by the first item with the key.  (A number
    that is not an integer behaves here as an integer does.) *)

#[local] Set Warnings "-register-all".

Inductive Json :=
| JNull
| JBool (b : bool)
| JNumber (n : Z)
| JString (s : string)
| JList (items : list Json)
| JDict (entries : list (string * Json)).

(** [d.get(key)] *)
Fixpoint dict_get (key : string) (entries : list (string * Json))
    : option Json :=
  match entries with
  | [] => None
  | (k, v) :: rest => if String.eqb k key then Some v else dict_get key rest
  end.

(** [d[key] = value]: the value of an existing key is replaced where it
    stands, a new key is appended. *)
Fixpoint dict_set (key : string) (value : Json)
    (entries : list (string * Json)) : list (string * Json) :=
  match entries with
  | [] => [(key, value)]
  | (k, v) :: rest =>
      if String.eqb k key then (k, value) :: rest
      else (k, v) :: dict_set key value rest
  end.

(** [key in container], which depends on the type of the container: the
    keys of a dict, the items of a list, the substrings of a string;
    [TypeError] otherwise. *)
Definition py_in (key : string) (container : Json) : string + bool :=
  match container with
  | JDict entries => inr (bool_decide (is_Some (dict_get key entries)))
  | JList items =>
      inr (existsb (fun item => match item with
                                | JString s => String.eqb s key
                                | _ => false
                                end) items)
  | JString s => inr (Str.contains s key)
  | _ => inl "TypeError: argument is not iterable"
  end.

(** [container[key]] for a string [key]. *)
Definition py_getitem (container : Json) (key : string) : string + Json :=
  match container with
  | JDict entries =>
      match dict_get key entries with
      | Some v => inr v
      | None => inl "KeyError"
      end
  | JList _ => inl "TypeError: list indices must be integers or slices, not str"
  | JString _ => inl "TypeError: string indices must be integers, not 'str'"
  | _ => inl "TypeError: object is not subscriptable"
  end.

(** [container[key] = value] for a string [key]. *)
Definition py_setitem (container : Json) (key : string) (value : Json)
    : string + Json :=
  match container with
  | JDict entries => inr (JDict (dict_set key value entries))
  | JList _ => inl "TypeError: list indices must be integers or slices, not str"
  | _ => inl "TypeError: object does not support item assignment"
  end.

(** Sequencing of steps that may raise. *)
Definition and_then {A B} (m : string + A) (f : A -> string + B)
    : string + B :=
  match m with
  | inl err => inl err
  | inr a => f a
  end.

(** The inner loop of [load_config], over the items of a default section:
    [config[key][sub_key] = sub_value] changes the dict that [config]
    holds under [key]. *)
Fixpoint merge_section (key : string) (defaults : list (string * Json))
    (config : Json) : string + Json :=
  match defaults with
  | [] => inr config
  | (sub_key, sub_value) :: rest =>
      and_then (py_getitem config key) (fun section =>
      and_then (py_in sub_key section) (fun present =>
      if negb present
      then
        and_then (py_setitem section sub_key sub_value) (fun section' =>
        and_then (py_setitem config key section') (fun config' =>
        merge_section key rest config'))
      else merge_section key rest config))
  end.

(** The outer loop of [load_config], over the items of [default_config]. *)
Fixpoint merge_defaults (defaults : list (string * Json)) (config : Json)
    : string + Json :=
  match defaults with
  | [] => inr config
  | (key, value) :: rest =>
      and_then (py_in key config) (fun present =>
      and_then
        (if negb present then py_setitem config key value
         else match value with
              | JDict section => merge_section key section config
              | _ => inr config
              end)
        (fun config' => merge_defaults rest config'))
  end.

Definition default_config : list (string * Json) :=
  [("admins", JList []);
   ("source_channels", JList []);
   ("target_channels", JList []);
   ("forward_settings",
    JDict [("preserve_sender", JBool true);
           ("add_source_info", JBool true);
           ("filter_content_types", JList []);
           ("keyword_filter", JList []);
           ("delay_seconds", JNumber 0);
           ("batch_forward", JBool false);
           ("max_forwards_per_minute", JNumber 60);
           ("media_group_timeout", JNumber 3)]);
   ("notification_settings",
    JDict [("notify_admin_on_error", JBool true);
           ("daily_report", JBool true);
           ("report_channel", JNull)])].

(** [load_config].  [file] is the configuration file: [None] when it does
    not exist, the error when opening or parsing it raises, its content
    otherwise.  The result is the configuration, and what is written to
    the file (by [save_config(default_config)]), if anything. *)
Definition load_config (file : option (string + Json))
    : Json * option Json :=
  match file with
  | Some content =>
      match and_then content (merge_defaults default_config) with
      | inr config => (config, None)
      | inl _ => (JDict default_config, None)
      end
  | None => (JDict default_config, Some (JDict default_config))
  end.

(** The items of [user] followed by the items of [dflt] it lacks. *)
Definition overlay (user dflt : list (string * Json))
    : list (string * Json) :=
  foldl (fun acc '(k, v) =>
           if bool_decide (is_Some (dict_get k acc)) then acc
           else dict_set k v acc)
        user dflt.

(** What the file and the defaults give for one key. *)
Definition merged (user dflt : option Json) : option Json :=
  match user, dflt with
  | Some (JDict u), Some (JDict d) => Some (JDict (overlay u d))
  | Some v, _ => Some v
  | None, _ => dflt
  end.

(** The sections of the configuration in the file: the values that
    stand where the default is a dict. *)
Definition sections_are_dicts (defaults entries : list (string * Json))
    : Prop :=
  forall key d v,
    dict_get key defaults = Some (JDict d) ->
    dict_get key entries = Some v ->
    exists u, v = JDict u.

(** A value that is no container: [in] raises on it. *)
Definition is_scalar (v : Json) : bool :=
  match v with
  | JNull | JBool _ | JNumber _ => true
  | _ => false
  end.

(** ** [utils.MessageFilter]

    The filter reads its configuration with [get], key by key: a key may
    be absent.  [file_size] is the size Telegram reports for the
    document. *)

Record FilterConfig := mkFilterConfig {
  fc_filter_content_types : option (list string);
  fc_max_file_size_mb : option Z;
  fc_blocked_keywords : option (list string);
  fc_blocked_users : option (list Z)
}.

Definition should_forward (config : FilterConfig) (message : Message)
    (content_type : string) : bool :=
  if bool_decide
       (content_type ∈ default [] (fc_filter_content_types config))
  then false
  else
    let file_size_limit :=
      default 50 (fc_max_file_size_mb config) * 1024 * 1024 in
    if match document message with
       | Some d => bool_decide (file_size_limit < file_size d)
       | None => false
       end
    then false
    else
      if Str.truthy (text message)
         && (let blocked_keywords :=
               default [] (fc_blocked_keywords config) in
             let text_lower := Str.lower (Str.or_empty (text message)) in
             existsb (fun keyword =>
                        Str.contains text_lower (Str.lower keyword))
                     blocked_keywords)
      then false
      else
        match from_user message with
        | Some u =>
            let blocked_users := default [] (fc_blocked_users config) in
            if bool_decide (user_id u ∈ blocked_users) then false else true
        | None => true
        end.

(** The configuration of a [MessageFilter] that takes the content types
    and the keywords of the bot's settings, and nothing else. *)
Definition filter_of_settings (cfg : Config) : FilterConfig :=
  mkFilterConfig (Some (filter_content_types (forward_settings cfg))) None
                 (Some (keyword_filter (forward_settings cfg))) None.

(** The document of the message is larger than [limit_mb] MiB. *)
Definition oversized (limit_mb : Z) (message : Message) : bool :=
  match document message with
  | Some d => bool_decide (limit_mb * 1024 * 1024 < file_size d)
  | None => false
  end.

(** ** More sample data *)

Module Cases.

(** A message from a chat that is not a source of [Sample.config0]. *)
Definition stray_message (mid : Z) : Message :=
  mkMessage mid (mkChat 55 None) None (Some "hi") None [] None None None None
            None None false false (Some Sample.alice) Sample.date0.

(** A bot that filters on a keyword, written in capitals or not. *)
Definition keyword_config (keyword : string) : Config :=
  mkConfig [1] [-100] [10]
           (mkForwardSettings true true [] [keyword] 0 60 3) true.

End Cases.

Module Desk.

(** An [int] for the examples: it reads the decimal numerals, with a
    minus sign or without. *)
Fixpoint digits (acc : Z) (s : string) : option Z :=
  match s with
  | EmptyString => Some acc
  | String c s' =>
      let n := Ascii.nat_of_ascii c in
      if ((48 <=? n)%nat && (n <=? 57)%nat)%bool
      then digits (10 * acc + Z.of_nat (n - 48)) s'
      else None
  end.

Definition decimal (s : string) : option Z :=
  match s with
  | EmptyString => None
  | String c s' =>
      if (Ascii.nat_of_ascii c =? 45)%nat
      then match s' with
           | EmptyString => None
           | String _ _ => Z.opp <$> digits 0 s'
           end
      else digits 0 s
  end.

(** The bot of [Sample.bot0] with the destinations 10 and 20, its file
    not written yet; user 1 is its admin, user 2 is not. *)
Definition panel0 : Panel := mkPanel (Sample.bot0 [10; 20]) [] [].

Definition from_admin (words : list string) : CommandUpdate :=
  mkCommandUpdate 1 500 words.

Definition from_stranger (words : list string) : CommandUpdate :=
  mkCommandUpdate 2 600 words.

(** A provider that delivers no text message: the answers to commands
    fail. *)
Definition mute : Provider := fun n r =>
  match r with
  | SendMessage _ _ => inl "reply failed"
  | _ => Sample.obliging n r
  end.

End Desk.

(** * Properties *)

(** ** Runs of sequences and of handlers *)

Section CompleteLemmas.
Context {Σ : Type}.
Variable provider : Provider.

Lemma run_eta {A} (r : Run Σ A) : mkRun (result r) (final r) (trace r) = r.
Proof. by destruct r. Qed.

Lemma complete_obind {A B} (o : Outcome Σ A) (f : A -> Coro Σ B) n :
  complete provider n (obind o f) = run_bind provider n (complete provider n o) f.
Proof.
  revert n. induction o as [a σ|e σ|r σ k IH]; intros n; simpl.
  - unfold run_bind; simpl. rewrite Nat.add_0_r. by rewrite run_eta.
  - done.
  - rewrite IH. unfold run_bind; simpl.
    destruct (result (complete provider (S n) (k (answer provider n r) σ))); simpl; [done|].
    by rewrite Nat.add_succ_r.
Qed.

Lemma complete_ocatch {A} (o : Outcome Σ A) (h : string -> Coro Σ A) n :
  complete provider n (ocatch o h) = run_catch provider n (complete provider n o) h.
Proof.
  revert n. induction o as [a σ|e σ|r σ k IH]; intros n; simpl.
  - done.
  - destruct e; unfold run_catch; simpl; [|done].
    rewrite Nat.add_0_r. by rewrite run_eta.
  - rewrite IH. unfold run_catch; simpl.
    destruct (result (complete provider (S n) (k (answer provider n r) σ))) as [[msg|]|]; simpl; try done.
    by rewrite Nat.add_succ_r.
Qed.

Lemma complete_bind {A B} (m : Coro Σ A) (f : A -> Coro Σ B) n σ :
  complete provider n ((m ≫= f) σ) = run_bind provider n (complete provider n (m σ)) f.
Proof. apply complete_obind. Qed.

Lemma complete_try_except {A} (m : Coro Σ A) h n σ :
  complete provider n (try_except m h σ) = run_catch provider n (complete provider n (m σ)) h.
Proof. apply complete_ocatch. Qed.
End CompleteLemmas.

Lemma log_forward_done row b : log_forward row b = Done tt (record_row row b).
Proof.
  unfold log_forward, try_except, sqlite_insert, record_row.
  destruct (db_faults b) as [|[err|] rest]; done.
Qed.

(** ** Symbolic runs of the dispatcher *)

Section Basic.
Context {Σ : Type}.
Variable provider : Provider.
Lemma complete_mret {A} (a : A) n (σ : Σ) :
  complete provider n ((mret a : Coro Σ A) σ) = mkRun (inr a) σ [].
Proof. done. Qed.
Lemma complete_ret {A} (a : A) n (σ : Σ) :
  complete provider n (ret a σ) = mkRun (inr a) σ [].
Proof. done. Qed.
Lemma complete_gets {A} (f : Σ -> A) n (σ : Σ) :
  complete provider n (gets f σ) = mkRun (inr (f σ)) σ [].
Proof. done. Qed.
Lemma complete_modify (f : Σ -> Σ) n (σ : Σ) :
  complete provider n (modify f σ) = mkRun (inr tt) (f σ) [].
Proof. done. Qed.
Lemma complete_raise {A} e n (σ : Σ) :
  complete provider n (raise (A:=A) e σ) = mkRun (inl e) σ [].
Proof. done. Qed.
Lemma complete_await r n (σ : Σ) :
  complete provider n (await r σ)
  = mkRun (match answer provider n r with
           | Returned v => inr v
           | Raised e => inl e
           end) σ [(r, answer provider n r)].
Proof. simpl. by destruct (answer provider n r). Qed.
Lemma complete_when (c : bool) (m : Coro Σ unit) n σ :
  complete provider n (when c m σ)
  = if c then complete provider n (m σ) else mkRun (inr tt) σ [].
Proof. by destruct c. Qed.
Lemma complete_for_each_nil {A} (body : A -> Coro Σ unit) n σ :
  complete provider n (for_each [] body σ) = mkRun (inr tt) σ [].
Proof. done. Qed.
Lemma complete_for_each_cons {A} (x : A) xs (body : A -> Coro Σ unit) n σ :
  complete provider n (for_each (x :: xs) body σ)
  = run_bind provider n (complete provider n (body x σ))
      (fun _ => for_each xs body).
Proof. apply complete_obind. Qed.
End Basic.

Lemma complete_logger_write provider l n b :
  complete provider n (logger_write l b)
  = mkRun (inr tt) (with_logger (fun ls => ls ++ [l]) b) [].
Proof. done. Qed.

Lemma complete_log_forward provider row n b :
  complete provider n (log_forward row b) = mkRun (inr tt) (record_row row b) [].
Proof. by rewrite log_forward_done. Qed.

Ltac run_simpl :=
  repeat first
    [ rewrite complete_bind
    | rewrite complete_try_except
    | rewrite complete_await
    | rewrite complete_gets
    | rewrite complete_modify
    | rewrite complete_mret
    | rewrite complete_ret
    | rewrite complete_raise
    | rewrite complete_logger_write
    | rewrite complete_log_forward
    | rewrite complete_for_each_nil
    | rewrite Nat.add_0_r
    | rewrite run_eta
    | progress cbn [run_bind run_catch result final trace length app Nat.add] ].

Section Notify.
Variable provider : Provider.

Lemma notify_loop body admin_ids n b :
  let run :=
    complete provider n
      (for_each admin_ids (fun admin_id =>
         try_except
           (await (SendMessage admin_id body);; mret tt)
           (fun e => logger_write (ErrNotifyAdminFailed admin_id e))) b) in
  Untouched b run
  /\ notifications (trace run) = map (fun a => (a, body)) admin_ids.
Proof.
  revert n b. induction admin_ids as [|a admin_ids IH]; intros n b.
  - simpl. done.
  - cbn zeta. rewrite complete_for_each_cons. run_simpl.
    unfold answer.
    destruct (provider n (SendMessage a body)) as [err|v]; run_simpl.
    + destruct (IH (n + 1)%nat
                  (with_logger (λ ls, ls ++ [ErrNotifyAdminFailed a err]) b))
        as [[] Hn].
      split; [split|]; try done. cbn. by f_equal.
    + destruct (IH (n + 1)%nat b) as [[] Hn].
      split; [split|]; try done. cbn. by f_equal.
Qed.

Lemma notify_run message target_id error_msg n b :
  let run :=
    complete provider n
      (notify_admins_error message target_id error_msg b) in
  Untouched b run
  /\ (notify_admin_on_error (config b) = true ->
      notifications (trace run)
      = failure_notes (config b) (clock b) message target_id error_msg).
Proof.
  unfold notify_admins_error. cbn zeta. run_simpl.
  match goal with
  | |- context [for_each ?l (fun a => try_except (await (SendMessage a ?body);; _) _)] =>
      destruct (notify_loop body l n b) as [Hu Hn]
  end.
  cbn zeta in Hu, Hn. split.
  - destruct Hu. split; try done.
  - intros Hen. unfold failure_notes. rewrite Hen. exact Hn.
Qed.
End Notify.

Lemma commit_rows_app faults rows1 rows2 :
  commit_rows faults (rows1 ++ rows2)
  = commit_rows faults rows1 ++ commit_rows (drop (length rows1) faults) rows2.
Proof.
  revert faults. induction rows1 as [|row rows1 IH]; intros faults; simpl.
  - by rewrite drop_0.
  - destruct faults as [|[err|] rest]; simpl; rewrite IH; try done.
    by rewrite drop_nil.
Qed.

Lemma commit_rows_no_faults rows : commit_rows [] rows = rows.
Proof. induction rows as [|row rows IH]; simpl; by rewrite ?IH. Qed.

Lemma commit_rows_sublist faults rows : sublist (commit_rows faults rows) rows.
Proof.
  revert faults. induction rows as [|row rows IH]; intros faults; simpl.
  - done.
  - destruct faults as [|[err|] rest].
    + by apply sublist_skip.
    + by apply sublist_cons.
    + by apply sublist_skip.
Qed.

Lemma record_row_config row b : config (record_row row b) = config b.
Proof. unfold record_row. by destruct (db_faults b) as [|[?|] ?]. Qed.
Lemma record_row_clock row b : clock (record_row row b) = clock b.
Proof. unfold record_row. by destruct (db_faults b) as [|[?|] ?]. Qed.
Lemma record_row_rows row b :
  forward_logs (record_row row b)
  = forward_logs b ++ commit_rows (db_faults b) [row].
Proof.
  unfold record_row. destruct (db_faults b) as [|[?|] ?]; simpl; try done.
  by rewrite app_nil_r.
Qed.
Lemma record_row_faults row b :
  db_faults (record_row row b) = drop 1 (db_faults b).
Proof.
  unfold record_row. destruct (db_faults b) as [|[?|] ?]; simpl; by rewrite ?drop_0.
Qed.

(** The state after [log_forward] of each of [rows] in turn. *)
Lemma for_each_log_forward {A} (row_of : A -> ForwardLog) xs b :
  for_each xs (fun x => log_forward (row_of x)) b
  = Done tt (foldl (fun b x => record_row (row_of x) b) b xs).
Proof.
  revert b. induction xs as [|x xs IH]; intros b; [done|].
  cbn [for_each foldl]. unfold mbind, coro_bind, bind.
  rewrite log_forward_done. cbn [obind]. apply IH.
Qed.

Lemma record_rows_facts {A} (row_of : A -> ForwardLog) xs b :
  let b' := foldl (fun b x => record_row (row_of x) b) b xs in
  config b' = config b /\ clock b' = clock b
  /\ forward_logs b' = forward_logs b ++ commit_rows (db_faults b) (map row_of xs)
  /\ db_faults b' = drop (length xs) (db_faults b).
Proof.
  revert b. induction xs as [|x xs IH]; intros b; cbn [foldl map length].
  - by rewrite app_nil_r, drop_0.
  - destruct (IH (record_row (row_of x) b)) as (Hc & Hk & Hr & Hf).
    cbn zeta. rewrite Hc, Hk, Hr, Hf.
    rewrite record_row_config, record_row_clock, record_row_rows, record_row_faults.
    repeat split; try done.
    + rewrite <-app_assoc. f_equal.
      change (row_of x :: map row_of xs) with ([row_of x] ++ map row_of xs).
      by rewrite commit_rows_app.
    + by rewrite drop_drop.
Qed.

Section DispatchedLemmas.
Variable provider : Provider.
Variable album : bool.
Variable media : list InputMedia.
Variable rows_of : Z * Response -> list ForwardLog.
Variable notes_of : Z * Response -> list (Z * string).

Lemma Dispatched_seq ts1 ts2 sl1 sl2 b (r1 r2 : Run Bot unit) :
  Dispatched album media rows_of notes_of ts1 sl1 b r1 ->
  Dispatched album media rows_of notes_of ts2 sl2 (final r1) r2 ->
  Dispatched album media rows_of notes_of (ts1 ++ ts2) (sl1 ++ sl2) b
    (mkRun (result r2) (final r2) (trace r1 ++ trace r2)).
Proof.
  intros [R1 P1 Q1 M1 C1 K1 A1 S1 N1 W1 F1] [R2 P2 Q2 M2 C2 K2 A2 S2 N2 W2 F2].
  split; cbn [result final trace].
  - done.
  - intros Ha. unfold copy_sends in *. by rewrite omap_app, P1, P2.
  - intros Ha. unfold album_sends in *. by rewrite omap_app, Q1, Q2.
  - unfold album_sends in *. rewrite omap_app. by apply Forall_app.
  - congruence.
  - congruence.
  - unfold send_attempts in *. rewrite omap_app, fmap_app. congruence.
  - unfold sleeps in *. rewrite omap_app. by rewrite S1, S2.
  - unfold notifications, send_attempts in *.
    rewrite !omap_app, flat_map_app. congruence.
  - unfold send_attempts in *. rewrite omap_app, flat_map_app, commit_rows_app.
    rewrite W2, W1, F1. by rewrite <-app_assoc.
  - unfold send_attempts in *. rewrite omap_app, flat_map_app, length_app.
    rewrite F2, F1. by rewrite drop_drop.
Qed.

Lemma Dispatched_for_each (expected : Z -> list Z)
    (body : Z -> Coro Bot unit) cfg clk :
  (forall t n b, config b = cfg -> clock b = clk ->
     Dispatched album media rows_of notes_of (expected t) [] b (complete provider n (body t b))) ->
  forall targets n b, config b = cfg -> clock b = clk ->
    Dispatched album media rows_of notes_of (flat_map expected targets) [] b
      (complete provider n (for_each targets body b)).
Proof.
  intros Hbody targets. induction targets as [|t targets IH]; intros n b Hc Hk.
  - rewrite complete_for_each_nil. split; try done; cbn.
    + by rewrite app_nil_r.
  - rewrite complete_for_each_cons. unfold run_bind.
    pose proof (Hbody t n b Hc Hk) as H1.
    rewrite (d_result _ _ _ _ _ _ _ _ H1).
    cbn [flat_map]. change (@nil Z) with (@nil Z ++ @nil Z).
    apply Dispatched_seq; [done|].
    apply IH.
    + by rewrite (d_config _ _ _ _ _ _ _ _ H1).
    + by rewrite (d_clock _ _ _ _ _ _ _ _ H1).
Qed.
End DispatchedLemmas.

Ltac bot_simpl :=
  repeat first
    [ progress cbn [config clock forward_logs db_faults stats logger
                    with_stats with_logger]
    | rewrite record_row_config
    | rewrite record_row_clock
    | rewrite record_row_rows
    | rewrite record_row_faults ].

Section NotifyWhen.
Variable provider : Provider.

Lemma notify_when_run message target_id error_msg n b :
  let run :=
    complete provider n
      (when (notify_admin_on_error (config b))
            (notify_admins_error message target_id error_msg) b) in
  Untouched b run
  /\ notifications (trace run)
     = failure_notes (config b) (clock b) message target_id error_msg.
Proof.
  cbn zeta. unfold when, failure_notes.
  destruct (notify_admin_on_error (config b)) eqn:Hn.
  - destruct (notify_run provider message target_id error_msg n b) as [Hu Hnotes].
    split; [done|]. rewrite (Hnotes Hn). unfold failure_notes. by rewrite Hn.
  - split; [by split|done].
Qed.
End NotifyWhen.

Lemma send_attempts_cons ev tr :
  send_attempts (ev :: tr)
  = match send_attempt ev with
    | Some a => a :: send_attempts tr
    | None => send_attempts tr
    end.
Proof. unfold send_attempts. cbn. by destruct (send_attempt ev). Qed.

Lemma notifications_cons ev tr :
  notifications (ev :: tr)
  = match notification ev with
    | Some a => a :: notifications tr
    | None => notifications tr
    end.
Proof. unfold notifications. cbn. by destruct (notification ev). Qed.

Lemma sleeps_cons ev tr :
  sleeps (ev :: tr)
  = match sleep_of ev with
    | Some a => a :: sleeps tr
    | None => sleeps tr
    end.
Proof. unfold sleeps. cbn. by destruct (sleep_of ev). Qed.

Lemma send_attempts_nil : send_attempts [] = [].
Proof. done. Qed.
Lemma copy_sends_nil : copy_sends [] = [].
Proof. done. Qed.
Lemma album_sends_nil : album_sends [] = [].
Proof. done. Qed.
Lemma copy_sends_cons ev tr :
  copy_sends (ev :: tr)
  = match copy_send ev with
    | Some a => a :: copy_sends tr
    | None => copy_sends tr
    end.
Proof. unfold copy_sends. cbn. by destruct (copy_send ev). Qed.
Lemma album_sends_cons ev tr :
  album_sends (ev :: tr)
  = match album_send ev with
    | Some a => a :: album_sends tr
    | None => album_sends tr
    end.
Proof. unfold album_sends. cbn. by destruct (album_send ev). Qed.
Lemma notifications_nil : notifications [] = [].
Proof. done. Qed.
Lemma sleeps_nil : sleeps [] = [].
Proof. done. Qed.

Ltac trace_simpl :=
  repeat first
    [ rewrite send_attempts_nil
    | rewrite copy_sends_nil
    | rewrite album_sends_nil
    | rewrite copy_sends_cons
    | rewrite album_sends_cons
    | rewrite notifications_nil
    | rewrite sleeps_nil
    | rewrite send_attempts_cons
    | rewrite notifications_cons
    | rewrite sleeps_cons
    | progress cbn [send_attempt copy_send album_send notification sleep_of
                    result final trace
                    flat_map fmap list_fmap fst snd app length] ].

(** ** [forward_single_message] *)

Lemma flat_map_singleton {A} (l : list A) : flat_map (fun x => [x]) l = l.
Proof. induction l; simpl; congruence. Qed.

Section Single.
Variable provider : Provider.

Ltac failure_tail message t err :=
  match goal with
  | |- context [complete provider ?k (when _ ?m ?b1)] =>
      let r := fresh "r" in
      destruct (notify_when_run provider message t err k b1) as [[Hu1 Hu2 Hu3 Hu4 Hu5 Hu6 Hu8 Hu9 Hu7] Hnotes];
      revert Hnotes Hu1 Hu2 Hu3 Hu4 Hu5 Hu6 Hu7 Hu8 Hu9;
      cbn zeta;
      generalize (complete provider k (when (notify_admin_on_error (config b1)) m b1));
      intros r; bot_simpl; intros
  end.

Ltac iter_close :=
  split; trace_simpl;
  repeat match goal with
         | H : send_attempts _ = _ |- _ => rewrite H
         | H : copy_sends _ = _ |- _ => rewrite H
         | H : album_sends _ = _ |- _ => rewrite H
         | H : sleeps _ = _ |- _ => rewrite H
         | H : notifications _ = _ |- _ => rewrite H
         end;
  trace_simpl;
  cbn [single_rows single_notes copy_error group_rows group_notes album_error];
  trace_simpl; bot_simpl; rewrite ?app_nil_r; try congruence;
  try (repeat constructor; done).

Lemma forward_single_message_run message n b :
  Dispatched false [] (single_rows message)
             (single_notes (config b) (clock b) message)
             (target_channels (config b)) [] b
             (complete provider n (forward_single_message message b)).
Proof.
  unfold forward_single_message. cbn zeta. run_simpl.
  rewrite <-(flat_map_singleton (target_channels (config b))) at 1.
  eapply Dispatched_for_each; [|reflexivity|reflexivity].
  clear n. intros t n b' Hc Hk. run_simpl.
  unfold answer.
  destruct (provider n _) as [err|v]; run_simpl.
  - failure_tail message t err. iter_close.
  - destruct v as [|mid|mids]; unfold message_id_of; run_simpl.
    + failure_tail message t "AttributeError: message_id"%string. iter_close.
    + iter_close.
    + failure_tail message t "AttributeError: message_id"%string. iter_close.
Qed.
End Single.

(** ** [forward_media_group] *)

Lemma for_each_record {A} (body : A -> Coro Bot unit) (row_of : A -> ForwardLog) xs b :
  (forall x b, body x b = Done tt (record_row (row_of x) b)) ->
  for_each xs body b
  = Done tt (foldl (fun b x => record_row (row_of x) b) b xs).
Proof.
  intros Hbody. revert b. induction xs as [|x xs IH]; intros b; [done|].
  cbn [for_each foldl]. unfold mbind, coro_bind, bind.
  rewrite Hbody. cbn [obind]. apply IH.
Qed.

Lemma create_input_media_done message cap b :
  exists b',
    create_input_media message cap b = Done (input_media_of message cap) b'
    /\ config b' = config b /\ clock b' = clock b
    /\ forward_logs b' = forward_logs b /\ db_faults b' = db_faults b.
Proof.
  unfold create_input_media, input_media_of.
  destruct (last (photo message)); [by exists b|].
  destruct (video message); [by exists b|].
  destruct (document message); [by exists b|].
  destruct (audio message); [by exists b|].
  eexists. split; [reflexivity|done].
Qed.

Lemma build_media_list_done i messages cap b :
  exists b',
    build_media_list i messages cap b = Done (media_list_of i messages cap) b'
    /\ config b' = config b /\ clock b' = clock b
    /\ forward_logs b' = forward_logs b /\ db_faults b' = db_faults b.
Proof.
  revert i b. induction messages as [|m messages IH]; intros i b.
  - by exists b.
  - cbn [build_media_list media_list_of].
    set (c := if (i =? 0)%nat && Str.truthy cap then cap else None).
    assert ((if (i =? 0)%nat && Str.truthy cap
             then create_input_media m cap
             else create_input_media m None) = create_input_media m c) as ->
      by (unfold c; by destruct ((i =? 0)%nat && Str.truthy cap)).
    destruct (create_input_media_done m c b) as (b1 & E1 & ? & ? & ? & ?).
    destruct (IH (S i) b1) as (b2 & E2 & ? & ? & ? & ?).
    exists b2. unfold mbind, coro_bind, bind. rewrite E1. cbn [obind].
    rewrite E2. cbn [obind].
    split; [|repeat split; congruence].
    by destruct (input_media_of m c).
Qed.

Section Group.
Variable provider : Provider.

Ltac failure_tail message t err :=
  match goal with
  | |- context [complete provider ?k (when _ ?m ?b1)] =>
      let r := fresh "r" in
      destruct (notify_when_run provider message t err k b1) as [[Hu1 Hu2 Hu3 Hu4 Hu5 Hu6 Hu8 Hu9 Hu7] Hnotes];
      revert Hnotes Hu1 Hu2 Hu3 Hu4 Hu5 Hu6 Hu7 Hu8 Hu9;
      cbn zeta;
      generalize (complete provider k (when (notify_admin_on_error (config b1)) m b1));
      intros r; bot_simpl; intros
  end.

Ltac iter_close :=
  split; trace_simpl;
  repeat match goal with
         | H : send_attempts _ = _ |- _ => rewrite H
         | H : copy_sends _ = _ |- _ => rewrite H
         | H : album_sends _ = _ |- _ => rewrite H
         | H : sleeps _ = _ |- _ => rewrite H
         | H : notifications _ = _ |- _ => rewrite H
         end;
  trace_simpl;
  cbn [single_rows single_notes copy_error group_rows group_notes album_error];
  trace_simpl; bot_simpl; rewrite ?app_nil_r; try congruence;
  try (repeat constructor; done).

Ltac group_close :=
  split; trace_simpl;
  repeat match goal with
         | H : send_attempts _ = _ |- _ => rewrite H
         | H : copy_sends _ = _ |- _ => rewrite H
         | H : album_sends _ = _ |- _ => rewrite H
         | H : sleeps _ = _ |- _ => rewrite H
         | H : notifications _ = _ |- _ => rewrite H
         end;
  trace_simpl;
  cbn [group_rows group_notes album_error];
  trace_simpl; bot_simpl; rewrite ?app_nil_r, ?length_map; try congruence;
  try (repeat constructor; done).

Ltac group_failure m0 rest t err :=
  unfold first_message; cbn zeta; run_simpl;
  rewrite for_each_log_forward; cbn [complete]; run_simpl;
  change (mret m0 ≫= λ m2 : Message, notify_admins_error m2 t err)
    with (notify_admins_error m0 t err);
  failure_tail m0 t err;
  match goal with
  | H : context [foldl ?f ?b0 ?xs] |- _ =>
      destruct (record_rows_facts (failure_row t true err) xs b0)
        as (Hc2 & Hk2 & Hr2 & Hf2);
      revert Hc2 Hk2 Hr2 Hf2; cbn zeta;
      generalize dependent (foldl f b0 xs); intros b2; bot_simpl; intros
  end;
  group_close.

Lemma forward_media_group_run m0 rest n b :
  let messages := m0 :: rest in
  Dispatched true (media_list_of 0 messages (album_caption (config b) messages))
             (group_rows messages)
             (group_notes (config b) (clock b) messages)
             (flat_map (album_targets (config b) messages) (target_channels (config b))) [] b
             (complete provider n (forward_media_group messages b)).
Proof.
  intros messages. subst messages.
  unfold forward_media_group. run_simpl.
  eapply Dispatched_for_each; [|reflexivity|reflexivity].
  clear n. intros t n b' Hc Hk. run_simpl.
  assert (complete provider n
            ((if add_source_info (forward_settings (config b'))
              then first_message (m0 :: rest) ≫= λ m1, mret (Some (build_caption (config b') m1))
              else mret None) b')
          = mkRun (inr (album_caption (config b') (m0 :: rest))) b' []) as ->.
  { unfold album_caption, first_message.
    by destruct (add_source_info _). }
  run_simpl.
  destruct (build_media_list_done 0 (m0 :: rest) (album_caption (config b') (m0 :: rest)) b')
    as (b1 & E1 & Hc1 & Hk1 & Hr1 & Hf1).
  rewrite E1. cbn [complete]. run_simpl.
  unfold album_targets. rewrite <-Hc.
  destruct (media_list_of 0 (m0 :: rest) (album_caption (config b') (m0 :: rest)))
    as [|im media] eqn:Eml.
  - run_simpl.
    split; trace_simpl; try congruence; try done;
      by rewrite ?app_nil_r, ?drop_0.
  - run_simpl. unfold answer.
    destruct (provider n _) as [err|v]; run_simpl.
    + group_failure m0 rest t err.
    + destruct v as [|mid|mids]; unfold sent_messages_of; run_simpl.
      * group_failure m0 rest t "TypeError: not a sequence of messages"%string.
      * group_failure m0 rest t "TypeError: not a sequence of messages"%string.
      * rewrite (for_each_record _
                   (fun '(original_msg, sent_id) =>
                      success_row t true original_msg sent_id))
          by (intros [o sid] ?; apply log_forward_done).
        cbn [complete]. unfold first_message. run_simpl.
        match goal with
        | |- context [foldl ?f ?b0 ?xs] =>
            destruct (record_rows_facts
                        (fun '(original_msg, sent_id) =>
                           success_row t true original_msg sent_id) xs b0)
              as (Hc2 & Hk2 & Hr2 & Hf2);
            revert Hc2 Hk2 Hr2 Hf2; cbn zeta;
            generalize (foldl f b0 xs); intros b2; bot_simpl; intros
        end.
        group_close.
Qed.
End Group.

(** ** [forward_messages_group] *)

Lemma flat_map_album_targets cfg messages targets :
  flat_map (album_targets cfg messages) targets
  = if bool_decide (media_list_of 0 messages (album_caption cfg messages) ≠ [])
    then targets else [].
Proof.
  unfold album_targets.
  destruct (media_list_of 0 messages (album_caption cfg messages)) as [|im l].
  - rewrite bool_decide_false by naive_solver. by induction targets.
  - rewrite bool_decide_true by done. apply flat_map_singleton.
Qed.

(** A silent step before a dispatch: it only writes to the operational log. *)
Lemma Dispatched_after_log album media rows_of notes_of ts sl b l
    (run : Run Bot unit) :
  Dispatched album media rows_of notes_of ts sl (with_logger (fun ls => ls ++ [l]) b) run ->
  Dispatched album media rows_of notes_of ts sl b run.
Proof. intros [R1 P1 Q1 M1 C1 K1 A1 S1 N1 W1 F1]. by split. Qed.

Lemma Dispatched_after_sleep album media rows_of notes_of ts b d resp
    (run : Run Bot unit) :
  Dispatched album media rows_of notes_of ts [] b run ->
  Dispatched album media rows_of notes_of ts [d] b
    (mkRun (result run) (final run) ((Sleep d, resp) :: trace run)).
Proof.
  intros [R1 P1 Q1 M1 C1 K1 A1 S1 N1 W1 F1]. split; trace_simpl; try done.
  by rewrite S1.
Qed.

Section Batch.
Variable provider : Provider.

Theorem forward_messages_group_run messages n b :
  Dispatched (is_media_group_batch messages)
             (batch_media (config b) messages) (batch_rows messages)
             (batch_notes (config b) (clock b) messages)
             (batch_targets (config b) messages)
             (batch_sleeps (config b) messages) b
             (complete provider n (forward_messages_group messages b)).
Proof.
  unfold forward_messages_group, batch_rows, batch_notes, batch_targets,
    batch_sleeps, batch_media, sendable.
  destruct messages as [|m0 rest].
  { run_simpl. split; trace_simpl; try done; cbn; by rewrite ?app_nil_r, ?drop_0. }
  run_simpl.
  destruct (target_channels (config b)) as [|t0 targets] eqn:Et.
  { run_simpl. split; trace_simpl; try done; cbn; rewrite ?app_nil_r, ?drop_0; try done.
    by repeat case_match. }
  run_simpl.
  assert (forall k (b1 : Bot), config b1 = config b -> clock b1 = clock b ->
    Dispatched (is_media_group_batch (m0 :: rest))
      (if is_media_group_batch (m0 :: rest)
       then media_list_of 0 (m0 :: rest) (album_caption (config b) (m0 :: rest))
       else [])
      (λ attempt, if is_media_group_batch (m0 :: rest)
       then group_rows (m0 :: rest) attempt else single_rows m0 attempt)
      (λ attempt, if is_media_group_batch (m0 :: rest)
       then group_notes (config b) (clock b) (m0 :: rest) attempt
       else single_notes (config b) (clock b) m0 attempt)
      (if if is_media_group_batch (m0 :: rest)
          then bool_decide (media_list_of 0 (m0 :: rest)
                              (album_caption (config b) (m0 :: rest)) ≠ [])
          else bool_decide (m0 :: rest ≠ [])
       then t0 :: targets else []) [] b1
      (complete provider k
         ((if is_media_group_batch (m0 :: rest)
           then logger_write (InfoForwardingGroup (length (m0 :: rest)));;
                forward_media_group (m0 :: rest)
           else logger_write InfoForwardingSingle;;
                forward_single_message m0) b1))) as Hrest.
  { intros k b1 Hc Hk. destruct (is_media_group_batch (m0 :: rest)).
    - run_simpl. eapply Dispatched_after_log.
      pose proof (forward_media_group_run provider m0 rest k
                    (with_logger (λ ls, ls ++ [InfoForwardingGroup (length (m0 :: rest))]) b1)) as H.
      cbn zeta in H. revert H. bot_simpl.
      rewrite flat_map_album_targets, Hc, Hk, Et. done.
    - run_simpl. eapply Dispatched_after_log.
      pose proof (forward_single_message_run provider m0 k
                    (with_logger (λ ls, ls ++ [InfoForwardingSingle]) b1)) as H.
      revert H. bot_simpl. rewrite Hc, Hk, Et.
      by rewrite bool_decide_true. }
  unfold when. destruct (0 <? delay_seconds (forward_settings (config b))).
  - run_simpl. cbn [answer].
    apply Dispatched_after_sleep. by apply Hrest.
  - run_simpl. by apply Hrest.
Qed.
End Batch.

(** * The claims *)

(** ** An empty batch or an empty target list

    C10.  When the batch is empty or no target channel is configured,
    [forward_messages_group] returns at once, without suspending (so
    without the configured delay and without any provider send), and
    leaves the whole state of the bot as it was: no row is written to
    [forward_logs] and no counter of [stats] changes. *)
Theorem forward_messages_group_nothing_to_do messages b :
  messages = [] \/ target_channels (config b) = [] ->
  forward_messages_group messages b = Done tt b.
Proof.
  intros [-> | Ht]; [done|].
  unfold forward_messages_group. destruct messages as [|m0 rest]; [done|].
  unfold mbind, coro_bind, bind, gets. cbn [obind]. by rewrite Ht.
Qed.

Lemma forward_messages_group_nothing_to_do_witness :
  forward_messages_group [] (Sample.bot0 [10; 20]) = Done tt (Sample.bot0 [10; 20])
  /\ forward_messages_group [Sample.text_message 1 "hello"] (Sample.bot0 [])
     = Done tt (Sample.bot0 []).
Proof.
  split.
  - apply forward_messages_group_nothing_to_do. by left.
  - apply forward_messages_group_nothing_to_do. by right.
Defined.

(** ** The delivery log never raises

    C9.  [log_forward] returns normally, without suspending, for every row
    and every behaviour of the database; when the write fails, the row is
    not stored, the failure is written to the operational log, and the
    remaining writes are unaffected.  Whatever the database does, a
    dispatch returns normally and makes all its send attempts. *)
Theorem log_forward_never_raises :
  (forall row b, log_forward row b = Done tt (record_row row b))
  /\ (forall row cfg st rows err rest lines clk,
        log_forward row (mkBot cfg st rows (Some err :: rest) lines clk)
        = Done tt (mkBot cfg st rows rest
                         (lines ++ [ErrLogForwardFailed err]) clk))
  /\ (forall provider n messages b,
        let run := complete provider n (forward_messages_group messages b) in
        result run = inr tt
        /\ (send_attempts (trace run)).*1 = batch_targets (config b) messages).
Proof.
  split; [|split].
  - apply log_forward_done.
  - intros. by rewrite log_forward_done.
  - intros provider n messages b run.
    destruct (forward_messages_group_run provider messages n b). done.
Qed.

Lemma elem_of_flat_map {A B} (f : A -> list B) (l : list A) (y : B) :
  y ∈ flat_map f l <-> exists x, x ∈ l /\ y ∈ f x.
Proof.
  induction l as [|x l IH]; cbn.
  - split; [by intros ?%elem_of_nil|]. by intros (? & ?%elem_of_nil & _).
  - rewrite elem_of_app, IH. split.
    + intros [H|(x' & ? & ?)].
      * exists x. split; [apply list_elem_of_here|done].
      * exists x'. split; [by apply list_elem_of_further|done].
    + intros (x' & [->|?]%elem_of_cons & ?); [by left|]. right. by exists x'.
Qed.

(** ** Failure isolation between destinations

    C4.  When the send to destination [t] fails with the error [err],
    the dispatch still returns normally (nothing is raised past the
    destination's [try]), a send is attempted for every configured
    destination, in order (so also for those after [t]); with a working
    database a failure row carrying [err] is written for [t] and each
    message of the dispatched batch; and, when admin notification is
    enabled, every admin is sent the error text naming the source chat,
    [t], [err] and the time. *)
Theorem provider_failure_is_isolated provider n b messages t err :
  let run := complete provider n (forward_messages_group messages b) in
  (t, Raised (Exception err)) ∈ send_attempts (trace run) ->
  result run = inr tt
  /\ (send_attempts (trace run)).*1 = target_channels (config b)
  /\ (db_faults b = [] ->
      forall m, m ∈ dispatched_batch messages ->
        failure_row t (is_media_group_batch messages) err m
        ∈ forward_logs (final run))
  /\ (notify_admin_on_error (config b) = true ->
      forall admin_id, admin_id ∈ admins (config b) ->
        exists m0, head messages = Some m0
          /\ (admin_id, error_text (chat_title_of m0) t err (strftime (clock b)))
             ∈ notifications (trace run)).
Proof.
  intros run Hfail.
  destruct (forward_messages_group_run provider messages n b)
    as [R _ _ _ C K A S N W F]. fold run in R, C, K, A, S, N, W, F.
  split; [done|]. split; [|split].
  - revert A. unfold batch_targets. destruct (sendable _ _); [done|].
    intros A. apply fmap_nil_inv in A. rewrite A in Hfail. by apply elem_of_nil in Hfail.
  - intros Hdb m Hm. rewrite W, Hdb, commit_rows_no_faults.
    apply elem_of_app. right. apply elem_of_flat_map.
    exists (t, Raised (Exception err)). split; [done|].
    unfold batch_rows, dispatched_batch in *.
    destruct (is_media_group_batch messages).
    + cbn. by apply list_elem_of_fmap_2.
    + destruct messages as [|m0 rest]; [by apply elem_of_nil in Hm|].
      cbn in Hm. apply list_elem_of_singleton in Hm as ->. cbn. apply list_elem_of_here.
  - intros Hen a Ha.
    assert (exists m0 rest, messages = m0 :: rest) as (m0 & rest & ->).
    { destruct messages as [|m0 rest]; [|by eauto].
      destruct (forward_messages_group_run provider [] n b) as [_ _ _ _ _ _ A' _ _ _ _].
      unfold run in Hfail. cbn in Hfail. by apply elem_of_nil in Hfail. }
    exists m0. split; [done|]. rewrite N. apply elem_of_flat_map.
    exists (t, Raised (Exception err)). split; [done|].
    unfold batch_notes.
    assert (failure_notes (config b) (clock b) m0 t err
            = map (fun a => (a, error_text (chat_title_of m0) t err (strftime (clock b))))
                  (admins (config b))) as E.
    { unfold failure_notes. by rewrite Hen. }
    destruct (is_media_group_batch (m0 :: rest)); cbn; rewrite E;
      by apply (list_elem_of_fmap_2 (fun a => (a, _))).
Qed.

Lemma provider_failure_is_isolated_witness :
  let run :=
    complete (Sample.failing_on 20 "boom") 0
      (forward_messages_group [Sample.text_message 1 "hello"]
         (Sample.bot0 [10; 20; 30])) in
  (20, Raised (Exception "boom")) ∈ send_attempts (trace run)
  /\ result run = inr tt
  /\ (send_attempts (trace run)).*1 = [10; 20; 30]
  /\ Sample.text_message 1 "hello" ∈ dispatched_batch [Sample.text_message 1 "hello"]
  /\ failure_row 20 false "boom" (Sample.text_message 1 "hello")
     ∈ forward_logs (final run).
Proof.
  intros run.
  assert ((20, Raised (Exception "boom")) ∈ send_attempts (trace run)) as Hfail.
  { apply list_elem_of_In. vm_compute. tauto. }
  assert (Sample.text_message 1 "hello"
          ∈ dispatched_batch [Sample.text_message 1 "hello"]) as Hm.
  { apply list_elem_of_In. vm_compute. tauto. }
  destruct (provider_failure_is_isolated
              (Sample.failing_on 20 "boom") 0 (Sample.bot0 [10; 20; 30])
              [Sample.text_message 1 "hello"] 20 "boom" Hfail)
    as (R & A & W & N).
  repeat split; try done.
  exact (W eq_refl _ Hm).
Defined.

(** ** Captions

    Whatever the settings, [build_caption] returns the original caption:
    the three pieces of source information it appends are empty. *)

Lemma append_empty_r (s : string) : s +:+ EmptyString = s.
Proof.
  induction s as [|c s IH]; [done|].
  change (String c (s +:+ EmptyString) = String c s). by rewrite IH.
Qed.

(** X2.  [build_caption] returns the original caption of the message (the
    empty string when it has none), whatever the settings are and whoever
    sent the message. *)
Lemma build_caption_is_original_caption cfg message :
  build_caption cfg message = Str.or_empty (caption message).
Proof.
  unfold build_caption.
  destruct (add_source_info (forward_settings cfg)); cbn [negb]; [|done].
  cbv zeta.
  destruct (from_user message) as [u|];
    [destruct (preserve_sender (forward_settings cfg))|];
    change (EmptyString +:+ EmptyString) with EmptyString;
    by rewrite ?append_empty_r.
Qed.

(** C3.  With add-source-info and preserve-sender both enabled, the
    caption built for a photo captioned [hello], sent by Alice, is
    [hello]: it contains the original caption, but neither the sender's
    name nor the formatted time of the message. *)
Theorem build_caption_leaves_out_source_info :
  let cfg := Sample.config0 [10] in
  let message := Sample.photo_message 1 None (Some "hello") in
  add_source_info (forward_settings cfg) = true
  /\ preserve_sender (forward_settings cfg) = true
  /\ from_user message = Some Sample.alice
  /\ build_caption cfg message = "hello"
  /\ Str.contains (build_caption cfg message) "hello" = true
  /\ Str.contains (build_caption cfg message) (full_name Sample.alice) = false
  /\ Str.contains (build_caption cfg message) (strftime (date message)) = false.
Proof. vm_compute. repeat split. Qed.

(** ** Rows per dispatch

    C2.  An album of a photo and a sticker, dispatched to one destination
    whose provider accepts it: one item is sent and one row is written,
    for two messages and one destination, while [messages_forwarded]
    grows by two.  With the sticker first, the one row is the sticker's,
    though the photo is what was sent.  An album of two stickers: nothing
    is sent and no row is written at all. *)
Theorem album_with_unsupported_item_loses_records :
  let b := Sample.bot0 [10] in
  let mixed := [Sample.photo_message 1 (Some "g") None;
                Sample.sticker_message 2 (Some "g")] in
  let swapped := [Sample.sticker_message 1 (Some "g");
                  Sample.photo_message 2 (Some "g") None] in
  let stickers := [Sample.sticker_message 1 (Some "g");
                   Sample.sticker_message 2 (Some "g")] in
  let run1 := complete Sample.obliging 0 (forward_messages_group mixed b) in
  let run2 := complete Sample.obliging 0 (forward_messages_group swapped b) in
  let run3 := complete Sample.obliging 0 (forward_messages_group stickers b) in
  (length (target_channels (config b)) * length mixed = 2)%nat
  /\ result run1 = inr tt
  /\ album_sends (trace run1) = [(10, [InputMediaPhoto "photo-file" None])]
  /\ map original_message_id (forward_logs (final run1)) = [1]
  /\ messages_forwarded (stats (final run1)) = 2
  /\ album_sends (trace run2) = [(10, [InputMediaPhoto "photo-file" None])]
  /\ map content_type (forward_logs (final run2)) = ["sticker"]
  /\ result run3 = inr tt
  /\ trace run3 = []
  /\ forward_logs (final run3) = []
  /\ stats (final run3) = stats b.
Proof. vm_compute. repeat split. Qed.

(** Every answer in the trace of a run is the provider's. *)
Lemma complete_answers {Σ A} provider (o : Outcome Σ A) n :
  Forall (fun ev => exists i, ev.2 = answer provider i ev.1)
         (trace (complete provider n o)).
Proof.
  revert n. induction o as [a σ|e σ|r σ k IH]; intros n; cbn.
  - constructor.
  - constructor.
  - constructor; [by exists n|]. apply IH.
Qed.

Lemma input_media_of_is_Some message cap :
  is_Some (input_media_of message cap) <-> representable message.
Proof.
  unfold representable, input_media_of.
  destruct (last (photo message)); [by split; eauto|].
  destruct (video message); [by split; eauto|].
  destruct (document message); [by split; eauto|].
  destruct (audio message); [by split; eauto|].
  done.
Qed.

Lemma media_list_of_length i messages cap :
  Forall representable messages ->
  length (media_list_of i messages cap) = length messages.
Proof.
  intros Hall. revert i. induction Hall as [|m messages Hm _ IH]; intros i.
  - done.
  - cbn [media_list_of].
    set (c := if (i =? 0)%nat && Str.truthy cap then cap else None).
    apply (input_media_of_is_Some m c) in Hm as [im ->].
    cbn. by rewrite IH.
Qed.

(** ** What a dispatch sends, and the rows it leaves *)

Lemma list_prod_nil_r {A B} (l : list A) : list_prod l (@nil B) = [].
Proof. by induction l. Qed.

Lemma flat_map_pairs {A B} (f : A -> B) (l : list A) :
  flat_map (fun x => [(x, f x)]) l = map (fun x => (x, f x)) l.
Proof. induction l; cbn; congruence. Qed.

Lemma list_prod_singleton {A B} (l : list A) (y : B) :
  list_prod l [y] = map (fun x => (x, y)) l.
Proof. induction l; cbn; congruence. Qed.

(** The rows of the attempts of a loop, against the pairs of destination
    and message. *)
Lemma Forall2_flat_map_prod {A B C D} (R : D -> B -> C -> Prop)
    (g : A -> D) (f : A -> list B) (l : list A) (ms : list C) :
  Forall (fun a => Forall2 (R (g a)) (f a) ms) l ->
  Forall2 (fun b p => R p.1 b p.2) (flat_map f l) (list_prod (map g l) ms).
Proof.
  induction 1 as [|a l Ha _ IH]; cbn; [constructor|].
  apply Forall2_app; [|done].
  apply Forall2_fmap_r. cbn. exact Ha.
Qed.

(** When no copy is made, the send attempts are the albums. *)
Lemma album_sends_attempts tr :
  copy_sends tr = [] -> (album_sends tr).*1 = (send_attempts tr).*1.
Proof.
  induction tr as [|[req resp] tr IH]; [done|].
  rewrite copy_sends_cons, album_sends_cons, send_attempts_cons.
  destruct req; cbn; intros H; try discriminate H; rewrite ?IH; done.
Qed.

Lemma pairs_with_constant {A B} (l : list (A * B)) (y : B) :
  Forall (fun a => a.2 = y) l -> l = map (fun x => (x, y)) l.*1.
Proof.
  induction 1 as [|[x y'] l Hy _ IH]; cbn in *; [done|]. by rewrite <-IH, Hy.
Qed.

Section Sends.
Variable provider : Provider.

Lemma for_each_copy_sends (body : Z -> Coro Bot unit) (sent : Z -> list (Z * Z)) :
  (forall t n b,
     result (complete provider n (body t b)) = inr tt
     /\ copy_sends (trace (complete provider n (body t b))) = sent t) ->
  forall targets n b,
    copy_sends (trace (complete provider n (for_each targets body b)))
    = flat_map sent targets.
Proof.
  intros Hbody targets. induction targets as [|t targets IH]; intros n b.
  - by rewrite complete_for_each_nil.
  - rewrite complete_for_each_cons. unfold run_bind.
    destruct (Hbody t n b) as [R1 S1]. rewrite R1. cbn [trace flat_map].
    unfold copy_sends in *. by rewrite omap_app, S1, IH.
Qed.

Ltac copies_tail message t err :=
  match goal with
  | |- context [complete provider ?k (when _ ?m ?b1)] =>
      let r := fresh "r" in
      destruct (notify_when_run provider message t err k b1)
        as [[Hu1 Hu2 Hu3 Hu4 Hu5 Hu6 Hu8 Hu9 Hu7] Hnotes];
      revert Hnotes Hu1 Hu2 Hu3 Hu4 Hu5 Hu6 Hu7 Hu8 Hu9;
      cbn zeta;
      generalize (complete provider k (when (notify_admin_on_error (config b1)) m b1));
      intros r; intros; split; trace_simpl; [done|];
      match goal with H : copy_sends _ = _ |- _ => by rewrite H end
  end.

(** [forward_single_message] copies the message once to every target, in
    the order of the configuration. *)
Lemma forward_single_message_copies message n b :
  copy_sends (trace (complete provider n (forward_single_message message b)))
  = map (fun t => (t, message_id message)) (target_channels (config b)).
Proof.
  unfold forward_single_message. cbn zeta. run_simpl.
  rewrite <-flat_map_pairs.
  apply for_each_copy_sends.
  clear n b. intros t n b. run_simpl.
  unfold answer.
  destruct (provider n _) as [err|v]; run_simpl.
  - copies_tail message t err.
  - destruct v as [|mid|mids]; unfold message_id_of; run_simpl.
    + copies_tail message t "AttributeError: message_id"%string.
    + split; trace_simpl; done.
    + copies_tail message t "AttributeError: message_id"%string.
Qed.

(** The sends of a dispatch: a batch with the group tag goes out as one
    album per target, any other batch as one copy of its first message per
    target. *)
Lemma forward_messages_group_sends messages n b :
  let run := complete provider n (forward_messages_group messages b) in
  let media :=
    media_list_of 0 messages (album_caption (config b) messages) in
  if is_media_group_batch messages
  then copy_sends (trace run) = []
       /\ album_sends (trace run)
          = match media with
            | [] => []
            | _ :: _ => map (fun t => (t, media)) (target_channels (config b))
            end
  else album_sends (trace run) = []
       /\ copy_sends (trace run)
          = list_prod (target_channels (config b))
                      (map message_id (take 1 messages)).
Proof.
  intros run media.
  destruct (forward_messages_group_run provider messages n b)
    as [_ P Q M _ _ A _ _ _ _]. fold run in P, Q, M, A.
  destruct (is_media_group_batch messages) eqn:Etag.
  - specialize (P eq_refl). split; [done|].
    rewrite (pairs_with_constant _ _ M), album_sends_attempts, A by done.
    unfold batch_targets, sendable, batch_media. rewrite Etag. fold media.
    destruct media as [|im media'].
    + by rewrite bool_decide_false by naive_solver.
    + by rewrite bool_decide_true by done.
  - specialize (Q eq_refl). split; [done|].
    unfold run, forward_messages_group.
    destruct messages as [|m0 rest]; [cbn; by rewrite list_prod_nil_r|].
    change (take 1 (m0 :: rest)) with [m0]. cbn [map].
    rewrite list_prod_singleton.
    run_simpl.
    destruct (target_channels (config b)) as [|t0 targets] eqn:Et; [done|].
    run_simpl. rewrite Etag.
    assert (forall k (b1 : Bot), config b1 = config b ->
      copy_sends (trace (complete provider k
        ((logger_write InfoForwardingSingle;; forward_single_message m0) b1)))
      = map (fun t => (t, message_id m0)) (t0 :: targets)) as Hrest.
    { intros k b1 Hc. run_simpl. rewrite forward_single_message_copies.
      bot_simpl. by rewrite Hc, Et. }
    unfold when. destruct (0 <? delay_seconds (forward_settings (config b))).
    + run_simpl. trace_simpl. by apply Hrest.
    + run_simpl. by apply Hrest.
Qed.
End Sends.

(** The rows for one album that was sent whole. *)
Lemma success_rows_per_message t messages mids :
  length mids = length messages ->
  Forall2 (fun row m =>
             row_about t m row /\ row_consistent row
             /\ is_media_group row = true)
          (map (fun '(original_msg, sent_id) =>
                  success_row t true original_msg sent_id)
               (zip messages mids))
          messages.
Proof.
  revert mids. induction messages as [|m messages IH]; intros [|mid mids] Hlen;
    try discriminate Hlen; cbn; constructor.
  - split; [done|]. split; [|done]. split; [by eexists|done].
  - apply IH. by injection Hlen.
Qed.

Lemma failure_rows_per_message t err messages :
  Forall2 (fun row m =>
             row_about t m row /\ row_consistent row
             /\ is_media_group row = true)
          (map (failure_row t true err) messages) messages.
Proof.
  induction messages as [|m messages IH]; cbn; constructor; [|done].
  split; [done|]. split; [|done]. split; [done|by eexists].
Qed.

(** The rows of each send attempt of a dispatch, message by message. *)
Lemma attempt_rows_per_message provider n b messages :
  (is_media_group_batch messages = true ->
   returns_album provider /\ Forall representable messages) ->
  let run := complete provider n (forward_messages_group messages b) in
  Forall (fun a =>
            Forall2 (fun row m =>
                       row_about a.1 m row /\ row_consistent row
                       /\ is_media_group row = is_media_group_batch messages)
                    (batch_rows messages a) (dispatched_batch messages))
         (send_attempts (trace run)).
Proof.
  intros Hrep run.
  destruct (forward_messages_group_run provider messages n b)
    as [_ P Q M _ _ _ _ _ _ _]. fold run in P, Q, M.
  pose proof (complete_answers provider (forward_messages_group messages b) n)
    as Hans. fold run in Hans.
  apply Forall_forall. intros [t resp] Hin.
  apply list_elem_of_omap in Hin as ([req resp'] & Hev & Hsa).
  rewrite Forall_forall in Hans. destruct (Hans _ Hev) as [i Hresp].
  cbn in Hresp. subst resp'.
  unfold batch_rows, dispatched_batch, batch_media in *.
  destruct (is_media_group_batch messages) eqn:Etag.
  - (* an album *)
    destruct (Hrep eq_refl) as [Hprov Hall].
    destruct req as [d|tc fc mid cap|tc media|tc body]; try done.
    + exfalso. specialize (P eq_refl).
      assert ((tc, mid) ∈ copy_sends (trace run)) as Hc.
      { apply list_elem_of_omap. eexists. split; [exact Hev|done]. }
      rewrite P in Hc. by apply elem_of_nil in Hc.
    + cbn in Hsa. injection Hsa as <- <-.
      assert ((tc, media) ∈ album_sends (trace run)) as Hal.
      { apply list_elem_of_omap. eexists. split; [exact Hev|done]. }
      rewrite Forall_forall in M. specialize (M _ Hal). cbn in M. subst media.
      unfold answer.
      destruct (provider i _) as [err|v] eqn:Ep; cbn [group_rows album_error fst].
      * apply failure_rows_per_message.
      * destruct (Hprov _ _ _ _ Ep) as (mids & -> & Hlen).
        apply success_rows_per_message.
        by rewrite media_list_of_length in Hlen.
  - (* a single copy *)
    destruct messages as [|m0 rest].
    { exfalso. unfold run in Hev. cbn in Hev. by apply elem_of_nil in Hev. }
    destruct req as [d|tc fc mid cap|tc media|tc body]; try done.
    + cbn in Hsa. injection Hsa as <- <-. unfold answer.
      change (take 1 (m0 :: rest)) with [m0]. cbn [fst].
      destruct (provider i _) as [err|[| |]]; cbn;
        (constructor; [|constructor]);
        (split; [done|]); (split; [|done]); split; by try eexists.
    + exfalso. specialize (Q eq_refl).
      assert ((tc, media) ∈ album_sends (trace run)) as Hal.
      { apply list_elem_of_omap. eexists. split; [exact Hev|done]. }
      rewrite Q in Hal. by apply elem_of_nil in Hal.
Qed.

(** With a working database, the rows of a dispatch, against the pairs of
    target and dispatched message. *)
Lemma dispatch_rows_per_message provider n b messages :
  db_faults b = [] ->
  (is_media_group_batch messages = true ->
   returns_album provider /\ Forall representable messages) ->
  let run := complete provider n (forward_messages_group messages b) in
  exists rows,
    forward_logs (final run) = forward_logs b ++ rows
    /\ Forall2 (fun row p =>
                  row_about p.1 p.2 row /\ row_consistent row
                  /\ is_media_group row = is_media_group_batch messages)
               rows
               (list_prod (target_channels (config b))
                          (dispatched_batch messages)).
Proof.
  intros Hdb Hrep run.
  destruct (forward_messages_group_run provider messages n b)
    as [_ _ _ _ _ _ A _ _ W _]. fold run in A, W.
  eexists. split; [by rewrite W, Hdb, commit_rows_no_faults|].
  pose proof (attempt_rows_per_message provider n b messages Hrep) as Hrows.
  cbn zeta in Hrows. fold run in Hrows.
  apply (Forall2_flat_map_prod
           (fun t row m => row_about t m row /\ row_consistent row
                           /\ is_media_group row = is_media_group_batch messages)
           fst) in Hrows.
  change (map fst (send_attempts (trace run)))
    with ((send_attempts (trace run)).*1) in Hrows.
  rewrite A in Hrows.
  unfold batch_targets, sendable, dispatched_batch in *.
  destruct (is_media_group_batch messages) eqn:Etag.
  - destruct (Hrep eq_refl) as [_ Hall].
    rewrite bool_decide_true in Hrows; [done|].
    intros E. apply (f_equal length) in E.
    rewrite media_list_of_length in E by done.
    unfold is_media_group_batch in Etag.
    apply andb_true_iff in Etag as [Hlen%bool_decide_eq_true _].
    cbn in E. lia.
  - destruct messages as [|m0 rest].
    + cbn [take] in Hrows |- *. rewrite list_prod_nil_r in Hrows.
      by rewrite list_prod_nil_r.
    + by rewrite bool_decide_true in Hrows.
Qed.



(** ** The group tag

    C7, as stated, fails on a batch of one message that carries a group
    id: it is not tagged as a group, is sent with [copy_message] and is
    logged with [is_media_group] false. *)
Lemma single_item_album_is_not_tagged :
  let m := Sample.photo_message 1 (Some "g") None in
  let run :=
    complete Sample.obliging 0 (forward_messages_group [m] (Sample.bot0 [10])) in
  ~ (is_media_group_batch [m] = true
     <-> (1 < length [m])%nat \/ Str.truthy (media_group_id m) = true)
  /\ copy_sends (trace run) = [(10, 1)]
  /\ album_sends (trace run) = []
  /\ map is_media_group (forward_logs (final run)) = [false].
Proof.
  split; [|by vm_compute].
  intros [_ H]. specialize (H (or_intror eq_refl)). by vm_compute in H.
Qed.

Lemma batch_rows_flag messages attempt :
  Forall (fun row => is_media_group row = is_media_group_batch messages)
         (batch_rows messages attempt).
Proof.
  unfold batch_rows. destruct attempt as [t resp].
  destruct (is_media_group_batch messages).
  - destruct resp as [[| |mids]|[err|]]; cbn;
      try (apply Forall_nil; done);
      apply Forall_fmap, Forall_true; by try intros [? ?].
  - destruct messages as [|m0 rest]; [by apply Forall_nil|].
    destruct resp as [[| |mids]|[err|]]; cbn; by repeat constructor.
Qed.

Lemma commit_rows_Forall (P : ForwardLog -> Prop) faults rows :
  Forall P rows -> Forall P (commit_rows faults rows).
Proof.
  intros H. revert faults. induction H as [|row rows Hrow _ IH]; intros faults.
  - constructor.
  - cbn. destruct faults as [|[err|] rest]; auto.
Qed.

Lemma flat_map_Forall {A B} (P : B -> Prop) (f : A -> list B) l :
  (forall x, Forall P (f x)) -> Forall P (flat_map f l).
Proof.
  intros H. induction l as [|x l IH]; cbn; [constructor|].
  apply Forall_app. auto.
Qed.

(** C7, amended.  A batch is tagged as a group exactly when it has more
    than one message and its first message carries a (non-empty) group
    id.  A tagged batch is dispatched as an album: one [send_media_group]
    per target, in the order of the configuration, each with the album
    built from the batch (nothing is sent when no item of the batch can
    be represented), and no [copy_message].  Any other batch has only its
    first message dispatched, as a single copy: one [copy_message] of
    that message per target, in order, and no [send_media_group].  Every
    row the dispatch writes carries the tag in [is_media_group]; with a
    working database the rows are one per target and dispatched message,
    in order (for a tagged batch: when every item can be represented and
    the provider returns one sent message per item). *)
Theorem group_tag_is_size_and_group_id provider n b messages :
  let run := complete provider n (forward_messages_group messages b) in
  let tag := is_media_group_batch messages in
  let targets := target_channels (config b) in
  let media :=
    media_list_of 0 messages (album_caption (config b) messages) in
  (tag = true
   <-> (1 < length messages)%nat
       /\ exists m0, head messages = Some m0
                     /\ Str.truthy (media_group_id m0) = true)
  /\ (if tag
      then copy_sends (trace run) = []
           /\ album_sends (trace run)
              = match media with
                | [] => []
                | _ :: _ => map (fun t => (t, media)) targets
                end
      else album_sends (trace run) = []
           /\ copy_sends (trace run)
              = list_prod targets (map message_id (take 1 messages)))
  /\ exists rows,
       forward_logs (final run) = forward_logs b ++ rows
       /\ Forall (fun row => is_media_group row = tag) rows
       /\ (db_faults b = [] ->
           (tag = true ->
            returns_album provider /\ Forall representable messages) ->
           Forall2 (fun row '(target_id, m) => row_about target_id m row)
                   rows
                   (list_prod targets
                              (if tag then messages else take 1 messages))).
Proof.
  intros run tag targets media. split; [|split].
  - unfold tag, is_media_group_batch. rewrite andb_true_iff, bool_decide_eq_true.
    destruct messages as [|m0 rest]; cbn.
    + split; [by intros [_ ?]|]. by intros (_ & ? & ? & _).
    + split.
      * intros [? ?]. split; [done|]. by exists m0.
      * intros (? & m & [= <-] & ?). done.
  - apply forward_messages_group_sends.
  - destruct (forward_messages_group_run provider messages n b)
      as [_ _ _ _ _ _ _ _ _ W _]. fold run in W.
    eexists. split; [exact W|]. split.
    + apply commit_rows_Forall, flat_map_Forall. intros attempt.
      apply batch_rows_flag.
    + intros Hdb Hrep.
      destruct (dispatch_rows_per_message provider n b messages Hdb Hrep)
        as (rows & Hrows & Hall). fold run in Hrows.
      rewrite W in Hrows. apply app_inv_head in Hrows. rewrite Hrows.
      eapply Forall2_impl; [exact Hall|]. by intros row [t m] (? & _).
Qed.

Lemma group_tag_is_size_and_group_id_witness :
  let b := Sample.bot0 [10; 20] in
  let album := [Sample.photo_message 1 (Some "g") None;
                Sample.video_message 2 (Some "g")] in
  let loose := [Sample.photo_message 1 None None;
                Sample.photo_message 2 (Some "g") None] in
  let run := complete Sample.obliging 0 (forward_messages_group album b) in
  let run' := complete Sample.obliging 0 (forward_messages_group loose b) in
  let media := media_list_of 0 album None in
  (is_media_group_batch album = true
   /\ copy_sends (trace run) = []
   /\ album_sends (trace run) = [(10, media); (20, media)]
   /\ Forall (fun row => is_media_group row = true) (forward_logs (final run))
   /\ Forall2 (fun row '(target_id, m) => row_about target_id m row)
              (forward_logs (final run)) (list_prod [10; 20] album))
  /\ (is_media_group_batch loose = false
      /\ album_sends (trace run') = []
      /\ copy_sends (trace run') = [(10, 1); (20, 1)]
      /\ Forall (fun row => is_media_group row = false)
                (forward_logs (final run'))
      /\ Forall2 (fun row '(target_id, m) => row_about target_id m row)
                 (forward_logs (final run'))
                 [(10, Sample.photo_message 1 None None);
                  (20, Sample.photo_message 1 None None)]).
Proof.
  intros b album loose run run' media.
  assert (returns_album Sample.obliging) as Hprov.
  { intros i t ms v [= <-]. eexists. split; [done|].
    by rewrite length_map, length_seq. }
  assert (Forall representable album) as Hrep.
  { repeat constructor; by eexists. }
  split.
  - destruct (group_tag_is_size_and_group_id Sample.obliging 0 b album)
      as (_ & Hsends & rows & Hlogs & Hflag & Hrows).
    change (is_media_group_batch album) with true in Hsends, Hflag, Hrows.
    destruct Hsends as [Hcopies Halbums].
    change (forward_logs (final run) = rows) in Hlogs. rewrite Hlogs.
    split; [done|]. split; [exact Hcopies|]. split; [exact Halbums|].
    split; [exact Hflag|].
    exact (Hrows eq_refl (fun _ => conj Hprov Hrep)).
  - destruct (group_tag_is_size_and_group_id Sample.obliging 0 b loose)
      as (_ & Hsends & rows & Hlogs & Hflag & Hrows).
    change (is_media_group_batch loose) with false in Hsends, Hflag, Hrows.
    destruct Hsends as [Halbums Hcopies].
    change (forward_logs (final run') = rows) in Hlogs. rewrite Hlogs.
    split; [done|]. split; [exact Halbums|]. split; [exact Hcopies|].
    split; [exact Hflag|].
    refine (Hrows eq_refl _). intros H. discriminate H.
Defined.

(** ** The rate limiter

    What [acquire] keeps is a sliding window: the requests less than a
    minute old, and the new one when it is granted; a limiter that holds
    at most [max_per_minute] requests still does afterwards. *)
Lemma acquire_keeps_the_last_minute now self :
  let '(granted, self') := RateLimiter.acquire now self in
  let kept :=
    filter (fun req_time => now - req_time < RateLimiter.minute_us)
           (RateLimiter.requests self) in
  RateLimiter.max_per_minute self' = RateLimiter.max_per_minute self
  /\ RateLimiter.requests self' = (if granted then kept ++ [now] else kept)
  /\ (granted = true
      <-> Z.of_nat (length kept) < RateLimiter.max_per_minute self)
  /\ (Z.of_nat (length (RateLimiter.requests self))
        <= RateLimiter.max_per_minute self ->
      Z.of_nat (length (RateLimiter.requests self'))
        <= RateLimiter.max_per_minute self).
Proof.
  unfold RateLimiter.acquire.
  set (kept := filter _ _).
  assert (length kept <= length (RateLimiter.requests self))%nat as Hlen
    by apply length_filter.
  case_bool_decide as Hfull; cbn.
  - repeat split; try done; try lia.
  - repeat split; try done; try lia.
    rewrite length_app. cbn. lia.
Qed.

(** C8.  A limiter of one send per minute, used by a client that calls
    [wait_if_needed] before each send, at 0 s, at 1 s and, after the
    second call has returned, at 60.000001 s: the second call sleeps for
    59 s and returns at 60 s without having been recorded, so the third is
    granted at once, and two sends fall in the minute that starts at
    60 s. *)
Theorem waiting_caller_is_not_recorded :
  let limiter := RateLimiter.mk 1 [] in
  let calls := [0; 1000000; 60000001] in
  let sends := RateLimiter.send_times calls limiter in
  RateLimiter.wait_if_needed 1000000 1000000 (RateLimiter.mk 1 [0])
    = (inr (Some 59), RateLimiter.mk 1 [0])
  /\ sends = [0; 60000000; 60000001]
  /\ RateLimiter.sends_in_window 60000000 sends = 2%nat
  /\ (Z.of_nat (RateLimiter.sends_in_window 60000000 sends)
      > RateLimiter.max_per_minute limiter).
Proof. vm_compute. repeat split. Qed.

(** ** The media-group handler on the loop *)

Section HandlerSteps.
Context {W : Type}.
Implicit Types σ : St W.

Lemma truthy_group g : g ≠ EmptyString -> Str.truthy (Some g) = true.
Proof. by destruct g. Qed.

Lemma or_empty_group g : Str.or_empty (Some g) = g.
Proof. by destruct g. Qed.

Lemma add_message_group message g cb σ :
  media_group_id message = Some g -> g ≠ EmptyString ->
  add_message message cb σ = Done tt (arrive g message σ).
Proof.
  intros Hg Hne. unfold add_message, arrive.
  rewrite Hg, truthy_group, or_empty_group by done. cbn [negb].
  unfold mbind, coro_bind, bind, modify, gets, cancel, create_task.
  cbn [obind handler with_handler with_media_groups group_timers].
  destruct (group_timers (handler σ) !! g) as [old|]; reflexivity.
Qed.

Lemma timer_starts g cb σ :
  _process_group_after_timeout g cb σ
  = Suspended (Sleep (timeout_seconds (handler σ))) σ (after_sleep g cb).
Proof. reflexivity. Qed.

Lemma after_sleep_cancelled g cb σ :
  after_sleep g cb (Raised CancelledError) σ = Failed CancelledError σ.
Proof. reflexivity. Qed.
End HandlerSteps.

#[local] Set Warnings "-clear-no-such-hyp".

Lemma window_inv_at_rest g L : at_rest g L -> window_inv g (world (shared L)) [] L.
Proof.
  intros [Hs Hc Hq Hb Ht]. split; try done.
  - intros tid g'. by rewrite Hc, lookup_empty.
  - intros tid task. by rewrite Hs, lookup_empty.
  - intros tid. rewrite Hq. set_solver.
  - intros tid. unfold live_timer. by rewrite Ht.
Qed.

Lemma window_inv_update g w0 ms L message :
  g ≠ EmptyString -> media_group_id message = Some g ->
  window_inv g w0 ms L ->
  window_inv g w0 (ms ++ [message]) (observer_step L (Update message)).
Proof.
  intros Hne Hg [Hw Hb Ht Hc Hs Hq Hl].
  unfold observer_step, step.
  rewrite (add_message_group message g) by done.
  destruct L as [σ tasks]. destruct σ as [h a w]. destruct h as [mg gt to].
  destruct a as [next cr cq].
  unfold live_timer in *. cbn in *.
  split; unfold live_timer; cbn.
  - done.
  - rewrite lookup_insert_eq, Hb. by destruct ms.
  - destruct (ms ++ [message]) eqn:E; [by destruct ms|].
    exists (S next). rewrite !lookup_insert_eq. split; [done|]. split; [|by left; eauto].
    assert (S next ∉ cq) as Hn by (intros ?%Hq; lia).
    destruct (gt !! g) as [old|] eqn:Eg; [|done].
    specialize (Hl old eq_refl). set_solver by lia.
  - intros tid g'. rewrite lookup_insert_Some.
    intros [[<- <-]|[Hne' Hcr]].
    + repeat split; try done; try lia.
      * rewrite lookup_delete_ne by lia.
        destruct (tasks !! S next) eqn:E; [|done].
        apply Hs in E. lia.
      * rewrite lookup_insert_eq. done.
    + destruct (Hc _ _ Hcr) as (-> & Hlt & Hnone & Hcan).
      repeat split; try done; try lia.
      * destruct (decide (tid = next)) as [->|?];
          [by rewrite lookup_delete_eq|by rewrite lookup_delete_ne].
      * intros _. destruct (gt !! g) as [old|] eqn:Eg.
        -- destruct (decide (old = tid)) as [->|?]; [set_solver|].
           apply elem_of_union_r, Hcan. congruence.
        -- by apply Hcan.
  - intros tid task. rewrite lookup_delete_Some. intros [Hne' Hsu].
    destruct (Hs _ _ Hsu) as (Hr & Hlt & Hcan).
    repeat split; try done; try lia.
    intros _. destruct (gt !! g) as [old|] eqn:Eg.
    + destruct (decide (old = tid)) as [->|?]; [set_solver|].
      apply elem_of_union_r, Hcan. congruence.
    + by apply Hcan.
  - intros tid Hin.
    assert (tid ∈ cq \/ gt !! g = Some tid) as [?%Hq|?%Hl]; try lia.
    destruct (gt !! g) as [old|]; [|by left]. set_solver.
  - intros tid. rewrite lookup_insert_eq. intros [= <-]. lia.
Qed.

Lemma window_inv_wake g w0 ms L tid resp :
  expires g L (Wake tid resp) = false ->
  window_inv g w0 ms L ->
  window_inv g w0 ms (observer_step L (Wake tid resp)).
Proof.
  intros Hex [Hw Hb Ht Hc Hs Hq Hl].
  unfold observer_step, step.
  destruct L as [σ tasks]. destruct σ as [h a w]. destruct h as [mg gt to].
  destruct a as [next cr cq].
  unfold expires, live_timer in *. cbn in *.
  destruct (cr !! tid) as [g'|] eqn:Ecr.
  - destruct (Hc _ _ Ecr) as (-> & Hlt & Hnone & Hcan).
    destruct (decide (tid ∈ cq)) as [Hin|Hin];
      [rewrite (bool_decide_true (tid ∈ cq)) by done
      |rewrite (bool_decide_false (tid ∈ cq)) by done].
    + (* a replaced timer that never started *)
      assert (gt !! g ≠ Some tid) as Hnl.
      { intros E. destruct ms; cbn in Ht; [congruence|].
        destruct Ht as (t & Et & Hnc & _). congruence. }
      split; unfold live_timer; cbn; try done.
      * destruct ms; cbn in Ht |- *; [done|]. destruct Ht as (t & Et & Hnc & Hor).
        exists t. split; [done|]. split; [set_solver|].
        destruct Hor as [Hor|Hor]; [left|by right].
        rewrite lookup_delete_ne; [done|congruence].
      * intros t g'. rewrite lookup_delete_Some. intros [Hne Hcr].
        destruct (Hc _ _ Hcr) as (-> & ? & ? & Hcan').
        repeat split; try done. intros Hnl'. specialize (Hcan' Hnl'). set_solver.
      * intros t task Hsu. destruct (Hs _ _ Hsu) as (? & ? & Hcan').
        repeat split; try done. intros Hnl'. specialize (Hcan' Hnl').
        assert (t ≠ tid) by congruence. set_solver.
      * intros t Hin'. apply Hq. set_solver.
    + (* the current timer starts to sleep *)
      assert (gt !! g = Some tid) as Hlive.
      { destruct (decide (gt !! g = Some tid)); [done|]. by destruct Hin; apply Hcan. }
      rewrite timer_starts. cbn.
      split; unfold live_timer; cbn; try done.
      * destruct ms; cbn in Ht |- *; [congruence|]. exists tid. split; [done|]. split; [done|].
        right. rewrite lookup_insert_eq. eauto.
      * intros t g'. rewrite lookup_delete_Some. intros [Hne Hcr].
        destruct (Hc _ _ Hcr) as (-> & ? & ? & Hcan').
        repeat split; try done. by rewrite lookup_insert_ne.
      * intros t task. rewrite lookup_insert_Some.
        intros [[<- <-]|[Hne Hsu]]; [by repeat split|].
        destruct (Hs _ _ Hsu) as (? & ? & Hcan'). by repeat split.
  - destruct (tasks !! tid) as [task|] eqn:Esu; [|by split].
    destruct (Hs _ _ Esu) as (Hr & Hlt & Hcan).
    destruct (decide (tid ∈ cq)) as [Hin|Hin];
      [rewrite (bool_decide_true (tid ∈ cq)) by done
      |rewrite (bool_decide_false (tid ∈ cq)) by done].
    + (* a replaced timer is cancelled in its sleep *)
      rewrite Hr, after_sleep_cancelled. cbn.
      assert (gt !! g ≠ Some tid) as Hnl.
      { intros E. destruct ms; cbn in Ht; [congruence|].
        destruct Ht as (t & Et & Hnc & _). congruence. }
      split; unfold live_timer; cbn; try done.
      * destruct ms; cbn in Ht |- *; [done|]. destruct Ht as (t & Et & Hnc & Hor).
        exists t. split; [done|]. split; [set_solver|].
        destruct Hor as [Hor|Hor]; [by left|right].
        rewrite lookup_delete_ne; [done|congruence].
      * intros t g' Hcr.
        destruct (Hc _ _ Hcr) as (-> & ? & ? & Hcan').
        repeat split; try done.
        -- destruct (decide (t = tid)) as [->|?];
             [by rewrite lookup_delete_eq|by rewrite lookup_delete_ne].
        -- intros Hnl'. specialize (Hcan' Hnl').
           assert (t ≠ tid) by congruence. set_solver.
      * intros t task'. rewrite lookup_delete_Some. intros [Hne Hsu].
        destruct (Hs _ _ Hsu) as (? & ? & Hcan').
        repeat split; try done. intros Hnl'. specialize (Hcan' Hnl'). set_solver.
      * intros t Hin'. apply Hq. set_solver.
    + (* the current timer, asleep: its wake-up would end the window *)
      assert (gt !! g = Some tid) as Hlive.
      { destruct (decide (gt !! g = Some tid)); [done|]. by destruct Hin; apply Hcan. }
      rewrite bool_decide_true in Hex by done.
      rewrite bool_decide_true in Hex by eauto. done.
Qed.

(** ** Sorting by message id *)

Lemma insert_by_id_perm x l : insert_by_id x l ≡ₚ x :: l.
Proof.
  induction l as [|y l IH]; cbn; [done|].
  destruct (message_id x <=? message_id y); [done|].
  rewrite IH. apply Permutation_swap.
Qed.

Lemma sort_by_id_perm l : sort_by_id l ≡ₚ l.
Proof.
  induction l as [|x l IH]; cbn; [done|].
  by rewrite insert_by_id_perm, IH.
Qed.

Lemma insert_by_id_sorted x l :
  StronglySorted id_le l -> StronglySorted id_le (insert_by_id x l).
Proof.
  induction 1 as [|y l Hs IH Hy]; cbn.
  - repeat constructor.
  - destruct (Z.leb_spec (message_id x) (message_id y)) as [Hle|Hlt].
    + constructor; [by constructor|]. constructor; [done|].
      eapply Forall_impl; [exact Hy|]. unfold id_le. intros; lia.
    + constructor; [done|].
      rewrite insert_by_id_perm. constructor; [|done]. unfold id_le. lia.
Qed.

Lemma sort_by_id_sorted l : StronglySorted id_le (sort_by_id l).
Proof.
  induction l as [|x l IH]; cbn; [constructor|]. by apply insert_by_id_sorted.
Qed.

Lemma insert_by_id_comm x y l :
  message_id x ≠ message_id y ->
  insert_by_id x (insert_by_id y l) = insert_by_id y (insert_by_id x l).
Proof.
  intros Hne. induction l as [|z l IH]; cbn.
  - destruct (Z.leb_spec (message_id x) (message_id y)),
             (Z.leb_spec (message_id y) (message_id x)); try done; lia.
  - destruct (Z.leb_spec (message_id x) (message_id z)),
             (Z.leb_spec (message_id y) (message_id z)); cbn;
      repeat match goal with
             | |- context [?a <=? ?b] => destruct (Z.leb_spec a b)
             end; try done; try lia.
    by rewrite IH.
Qed.

(** The order of arrival does not matter when the ids are distinct. *)
Lemma sort_by_id_order_irrelevant l1 l2 :
  l1 ≡ₚ l2 -> NoDup (message_id <$> l1) -> sort_by_id l1 = sort_by_id l2.
Proof.
  induction 1 as [|x l1 l2 Hp IH|x y l|l1 l2 l3 Hp1 IH1 Hp2 IH2]; intros Hnd.
  - done.
  - cbn. rewrite IH; [done|]. by apply NoDup_cons in Hnd as [_ ?].
  - cbn. apply insert_by_id_comm.
    cbn in Hnd. apply NoDup_cons in Hnd as [Hnin _].
    intros E. apply Hnin. rewrite E. apply list_elem_of_here.
  - rewrite IH1 by done. apply IH2. by rewrite <-Hp1.
Qed.

Lemma arrivals_cons ev evs :
  arrivals (ev :: evs)
  = match ev with Update m => m :: arrivals evs | Wake _ _ => arrivals evs end.
Proof. by destruct ev. Qed.

Lemma window_inv_run g w0 evs : forall ms L,
  g ≠ EmptyString ->
  within_window g L evs ->
  window_inv g w0 ms L ->
  window_inv g w0 (ms ++ arrivals evs) (foldl observer_step L evs).
Proof.
  induction evs as [|ev evs IH]; intros ms L Hne Hwin Hinv.
  - cbn. by rewrite app_nil_r.
  - destruct Hwin as (Hev & Hex & Hwin). cbn [foldl]. rewrite arrivals_cons.
    destruct ev as [m|tid resp].
    + replace (ms ++ m :: arrivals evs) with ((ms ++ [m]) ++ arrivals evs)
        by by rewrite <-app_assoc.
      apply IH; [done|done|]. by apply window_inv_update.
    + apply IH; [done|done|]. by apply window_inv_wake.
Qed.

(** The timer of [g] wakes from its sleep: the buffer is emitted, sorted,
    and the group is forgotten. *)
Lemma window_inv_fires g w0 m ms L tid v :
  window_inv g w0 (m :: ms) L ->
  live_timer L g = Some tid ->
  is_Some (suspended L !! tid) ->
  let L' := observer_step L (Wake tid (Returned v)) in
  world (shared L') = w0 ++ [sort_by_id (m :: ms)]
  /\ media_groups (handler (shared L')) !! g = None
  /\ group_timers (handler (shared L')) !! g = None.
Proof.
  intros [Hw Hb Ht Hc Hs Hq Hl] Hlive [task Hsu].
  destruct (Hs _ _ Hsu) as (Hr & Hlt & Hcan).
  destruct Ht as (t & Et & Hnc & Hor).
  assert (t = tid) as -> by congruence.
  unfold observer_step, step.
  destruct L as [σ tasks]. destruct σ as [h a w]. destruct h as [mg gt to].
  destruct a as [next cr cq].
  unfold live_timer in *. cbn in *.
  assert (cr !! tid = None) as ->.
  { destruct (cr !! tid) as [g'|] eqn:E; [|done].
    destruct (Hc _ _ E) as (_ & _ & Hnone & _). congruence. }
  rewrite Hsu, bool_decide_false by done. rewrite Hr.
  unfold after_sleep, emit, mbind, coro_bind, bind, gets, modify, when, raise.
  cbn [obind handler aio world media_groups group_timers with_handler
       with_media_groups with_group_timers].
  rewrite Hb.
  cbn [obind handler aio world media_groups group_timers with_handler
       with_media_groups with_group_timers].
  rewrite lookup_insert_eq.
  cbn [obind handler aio world media_groups group_timers with_handler
       with_media_groups with_group_timers].
  rewrite bool_decide_true by eauto.
  cbn [obind handler aio world media_groups group_timers with_handler
       with_media_groups with_group_timers settle shared].
  rewrite !lookup_delete_eq. by rewrite Hw.
Qed.

Lemma window_inv_expire g w0 m ms L :
  window_inv g w0 (m :: ms) L ->
  let L' := expire g L in
  world (shared L') = w0 ++ [sort_by_id (m :: ms)]
  /\ media_groups (handler (shared L')) !! g = None
  /\ group_timers (handler (shared L')) !! g = None.
Proof.
  intros Hinv.
  pose proof (wi_timer _ _ _ _ Hinv) as (tid & Elive & Hnc & Hor).
  unfold expire. rewrite Elive.
  destruct (created (aio (shared L)) !! tid) as [g'|] eqn:Ecr.
  - rewrite bool_decide_true by eauto.
    destruct (wi_created _ _ _ _ Hinv _ _ Ecr) as (-> & _ & Hnone & _).
    assert (expires g L (Wake tid (Returned VNone)) = false) as Hex.
    { unfold expires. rewrite Hnone.
      rewrite (bool_decide_false (is_Some None)) by (by intros [? ?]).
      apply andb_false_r. }
    pose proof (window_inv_wake g _ _ L tid (Returned VNone) Hex Hinv) as Hinv'.
    assert (live_timer (observer_step L (Wake tid (Returned VNone))) g = Some tid
            /\ is_Some (suspended (observer_step L (Wake tid (Returned VNone))) !! tid))
      as [Elive' Hsu'].
    { unfold observer_step, step. rewrite Ecr.
      rewrite bool_decide_false by done. rewrite timer_starts.
      unfold live_timer in *. cbn. rewrite lookup_insert_eq. eauto. }
    by apply (window_inv_fires g w0 m ms _ tid).
  - rewrite bool_decide_false by (by intros [? ?]).
    destruct Hor as [[? ?]|Hsu]; [congruence|].
    by apply (window_inv_fires g w0 m ms _ tid).
Qed.

(** ** One debounce window, one sorted batch

    C1.  Start with nothing pending and nothing buffered for the group
    [g], and let any events follow in which every arriving message
    belongs to [g] and the timer of [g] never runs out (at least one
    message arrives).  Nothing is emitted meanwhile.  When the timer then
    runs out, exactly one batch is given to the callback: the arrived
    messages, each once, in ascending order of message id, the same batch
    whatever order they arrived in (their ids being distinct); and the
    buffer and the timer handle of [g] are deleted. *)
Theorem debounced_group_is_emitted_sorted g L0 evs :
  g ≠ EmptyString ->
  at_rest g L0 ->
  within_window g L0 evs ->
  arrivals evs ≠ [] ->
  let L1 := foldl observer_step L0 evs in
  let L2 := expire g L1 in
  let batch := sort_by_id (arrivals evs) in
  world (shared L1) = world (shared L0)
  /\ world (shared L2) = world (shared L0) ++ [batch]
  /\ batch ≡ₚ arrivals evs
  /\ StronglySorted id_le batch
  /\ (forall ms, ms ≡ₚ arrivals evs ->
        NoDup (message_id <$> ms) -> sort_by_id ms = batch)
  /\ media_groups (handler (shared L2)) !! g = None
  /\ group_timers (handler (shared L2)) !! g = None.
Proof.
  intros Hne Hrest Hwin Harr L1 L2 batch.
  pose proof (window_inv_run g (world (shared L0)) evs [] L0 Hne Hwin
                (window_inv_at_rest g L0 Hrest)) as Hinv.
  cbn [app] in Hinv. fold L1 in Hinv.
  split; [by destruct Hinv|].
  destruct (arrivals evs) as [|m ms] eqn:Ea; [done|].
  destruct (window_inv_expire g _ m ms L1 Hinv) as (Hw & Hb & Ht).
  fold L2 in Hw, Hb, Ht.
  repeat split; try done.
  - apply sort_by_id_perm.
  - apply sort_by_id_sorted.
  - intros ms' Hp Hnd. by apply sort_by_id_order_irrelevant.
Qed.

Lemma debounced_group_is_emitted_sorted_witness :
  let L2 := expire "g1" (foldl observer_step Sample.observer0 Sample.album_events) in
  "g1" ≠ EmptyString
  /\ at_rest "g1" Sample.observer0
  /\ within_window "g1" Sample.observer0 Sample.album_events
  /\ arrivals Sample.album_events ≠ []
  /\ map (map message_id) (world (shared L2)) = [[3; 4; 5]].
Proof.
  assert ("g1" ≠ EmptyString) as Hne by done.
  assert (at_rest "g1" Sample.observer0) as Hrest by (by split).
  assert (within_window "g1" Sample.observer0 Sample.album_events) as Hwin
    by (vm_compute; repeat split).
  assert (arrivals Sample.album_events ≠ []) as Harr by done.
  destruct (debounced_group_is_emitted_sorted "g1" Sample.observer0
              Sample.album_events Hne Hrest Hwin Harr)
    as (_ & Hw & _).
  cbv zeta. rewrite Hw. repeat split; done.
Defined.

(** ** A message that arrives during the forwarding of its group

    C5.  Message 1 of an album arrives and its timer runs out: the batch
    of message 1 is being forwarded, delivered to destination 10 and
    awaited for destination 20, when message 2 of the album arrives.  The
    arrival cancels the forwarding task before it deletes the buffer, and
    the new timer emits messages 1 and 2: message 1 is delivered to
    destination 10 twice, in two batches of the same group. *)
Theorem arrival_during_forwarding_emits_twice :
  let L0 := start_bot (Sample.bot0 [10; 20]) in
  let before := bot_run L0 (take 4 Sample.race_events) in
  let after := bot_run L0 Sample.race_events in
  awaiting <$> suspended before !! 1%nat
    = Some (CopyMessage 20 (-100) 1 (Some EmptyString))
  /\ Sample.row_view <$> forward_logs (world (shared before))
     = [(1, 10, false, true)]
  /\ Sample.row_view <$> forward_logs (world (shared after))
     = [(1, 10, false, true); (1, 10, true, true); (2, 10, true, true);
        (1, 20, true, true); (2, 20, true, true)]
  /\ map_to_list (awaiting <$> suspended after) = []
  /\ map_to_list (media_groups (handler (shared after))) = [].
Proof. vm_compute. repeat split. Qed.

(** ** Filtering

    C6, as stated, fails on an album whose first message, a video, is
    suppressed by the content-type filter while its second message, a
    photo, is not: the photo is forwarded and logged, and the filter has
    been evaluated for both messages. *)
Lemma first_message_does_not_decide_for_the_batch :
  let cfg := config Sample.no_video_bot in
  let video := Sample.video_message 1 (Some "g") in
  let photo := Sample.photo_message 2 (Some "g") None in
  let L :=
    bot_run (start_bot Sample.no_video_bot)
      [Update video; Update photo; Wake 2 (Returned VNone);
       Wake 2 (Returned VNone); Wake 2 (Returned (VMessageId 1002))] in
  ~ (should_filter_message cfg video (get_message_type video) = true ->
     forward_logs (world (shared L)) = [])
  /\ Sample.row_view <$> forward_logs (world (shared L)) = [(2, 10, false, true)]
  /\ messages_received (stats (world (shared L))) = 2.
Proof.
  split; [|by vm_compute].
  intros H. specialize (H eq_refl). by vm_compute in H.
Qed.

(** C6, amended.  The filter is evaluated for each message that arrives
    from a source channel, on the classification of that message, before
    the message is handed to the media-group handler.  A suppressed
    message is dropped there: the handler returns without suspending (no
    provider send), the buffers and timers are untouched, no row is
    written, and only [messages_received] and the operational log change.
    A message that passes is handed to [add_message]. *)
Theorem filter_is_applied_to_each_message message (σ : St Bot) :
  chat_id message ∈ source_channels (config (world σ)) ->
  let kind := get_message_type message in
  let counted :=
    mkSt (handler σ) (aio σ)
      (with_stats (add_received 1)
         (with_logger
            (fun ls => ls ++ [InfoReceived (chat_id message)
                                           (media_group_id message)])
            (world σ))) in
  handle_message (Some message) σ
  = if should_filter_message (config (world σ)) message kind
    then Done tt
           (mkSt (handler σ) (aio σ)
              (with_logger (fun ls => ls ++ [InfoFiltered kind])
                           (world counted)))
    else add_message message bot_callback counted.
Proof.
  intros Hsrc kind counted. unfold handle_message.
  unfold logger_write, mbind, coro_bind, bind, zoom, gets, modify.
  cbn [obind ozoom world handler aio config with_logger].
  rewrite bool_decide_true by done. cbn [negb obind ozoom world handler aio].
  fold kind.
  change (config (with_stats (add_received 1)
            (with_logger (λ ls, ls ++ [InfoReceived (chat_id message) (media_group_id message)]) (world σ))))
    with (config (world σ)).
  destruct (should_filter_message (config (world σ)) message kind); reflexivity.
Qed.

Lemma filter_is_applied_to_each_message_witness :
  let σ := shared (start_bot Sample.no_video_bot) in
  let video := Sample.video_message 1 (Some "g") in
  chat_id video ∈ source_channels (config (world σ))
  /\ exists σ',
       handle_message (Some video) σ = Done tt σ'
       /\ handler σ' = handler σ /\ aio σ' = aio σ
       /\ forward_logs (world σ') = []
       /\ messages_received (stats (world σ')) = 1.
Proof.
  intros σ video.
  assert (chat_id video ∈ source_channels (config (world σ))) as Hsrc
    by (apply list_elem_of_In; vm_compute; tauto).
  split; [done|].
  eexists. split.
  - rewrite (filter_is_applied_to_each_message video σ Hsrc). reflexivity.
  - done.
Defined.

(** ** The scenarios of the specification *)

(** The album [g1] receives the messages 5, 3 and 4; when its timer runs
    out and the provider accepts the album, the rows are written for
    3, 4 and 5 in this order, and the group is forgotten. *)
Example scenario_album_is_forwarded_in_id_order :
  let L :=
    bot_run (start_bot (Sample.bot0 [10]))
      (Sample.album_events
       ++ [Wake 5 (Returned VNone); Wake 5 (Returned VNone);
           Wake 5 (Returned (VMessages [2001; 2002; 2003]))]) in
  Sample.row_view <$> forward_logs (world (shared L))
  = [(3, 10, true, true); (4, 10, true, true); (5, 10, true, true)]
  /\ map_to_list (media_groups (handler (shared L))) = []
  /\ map_to_list (group_timers (handler (shared L))) = []
  /\ media_groups_forwarded (stats (world (shared L))) = 1.
Proof. vm_compute. repeat split. Qed.

(** A text message without group id, no delay, two destinations that
    both accept it: two success rows, and the message counts as forwarded
    once per destination. *)
Example scenario_single_message_two_destinations :
  let run :=
    complete Sample.obliging 0
      (forward_messages_group [Sample.text_message 1 "hello"]
         (Sample.bot0 [10; 20])) in
  Sample.row_view <$> forward_logs (final run)
  = [(1, 10, false, true); (1, 20, false, true)]
  /\ sleeps (trace run) = []
  /\ notifications (trace run) = []
  /\ messages_forwarded (stats (final run)) = 2
  /\ failed_forwards (stats (final run)) = 0.
Proof. vm_compute. repeat split. Qed.

(** The same with a second destination that rejects the message: one
    success row, one failure row with the error text, one notification
    to the admin, and one failed forward. *)
Example scenario_second_destination_fails :
  let run :=
    complete (Sample.failing_on 20 "chat not found") 0
      (forward_messages_group [Sample.text_message 1 "hello"]
         (Sample.bot0 [10; 20])) in
  Sample.row_view <$> forward_logs (final run)
  = [(1, 10, false, true); (1, 20, false, false)]
  /\ error_message <$> forward_logs (final run)
     = [None; Some "chat not found"]
  /\ (notifications (trace run)).*1 = [1]
  /\ messages_forwarded (stats (final run)) = 1
  /\ failed_forwards (stats (final run)) = 1.
Proof. vm_compute. repeat split. Qed.

(** * Further properties

    ** The notifier *)

Section NotifyState.
Variable provider : Provider.

Lemma notify_loop_final body admin_ids n b :
  let run :=
    complete provider n
      (for_each admin_ids (fun admin_id =>
         try_except
           (await (SendMessage admin_id body);; mret tt)
           (fun e => logger_write (ErrNotifyAdminFailed admin_id e))) b) in
  result run = inr tt
  /\ (trace run).*1 = map (fun a => SendMessage a body) admin_ids
  /\ final run
     = with_logger (fun ls => ls ++ omap notify_failure (trace run)) b.
Proof.
  revert n b. induction admin_ids as [|a admin_ids IH]; intros n b.
  - cbn. split; [done|]. split; [done|].
    destruct b. unfold with_logger. cbn. by rewrite app_nil_r.
  - cbn zeta. rewrite complete_for_each_cons. run_simpl.
    unfold answer.
    destruct (provider n (SendMessage a body)) as [err|v]; run_simpl.
    + destruct (IH (n + 1)%nat
                  (with_logger (λ ls, ls ++ [ErrNotifyAdminFailed a err]) b))
        as (Hr & Ht & Hf).
      cbn zeta in Hr, Ht, Hf. rewrite Hr. cbn [result final trace app fmap list_fmap fst].
      split; [done|]. split; [by rewrite Ht|].
      rewrite Hf. unfold with_logger. cbn. by rewrite <-app_assoc.
    + destruct (IH (n + 1)%nat b) as (Hr & Ht & Hf).
      cbn zeta in Hr, Ht, Hf. rewrite Hr. cbn [result final trace app fmap list_fmap fst].
      split; [done|]. split; [by rewrite Ht|].
      by rewrite Hf.
Qed.
End NotifyState.

(** X3.  [notify_admins_error] returns normally whatever the provider
    answers: it sends the error text to every admin, in the order of the
    configuration and also after a send has failed, and it changes nothing
    of the bot but the operational log, which receives one line per failed
    send. *)
Theorem notify_admins_error_never_raises provider message target_id
    error_msg n b :
  let run :=
    complete provider n (notify_admins_error message target_id error_msg b) in
  result run = inr tt
  /\ (trace run).*1
     = map (fun admin_id =>
              SendMessage admin_id
                (error_text (chat_title_of message) target_id error_msg
                            (strftime (clock b))))
           (admins (config b))
  /\ final run
     = with_logger (fun ls => ls ++ omap notify_failure (trace run)) b.
Proof.
  unfold notify_admins_error. cbn zeta. run_simpl.
  match goal with
  | |- context [for_each ?l (fun a => try_except (await (SendMessage a ?body);; _) _)] =>
      destruct (notify_loop_final provider body l n b) as (Hr & Ht & Hf)
  end.
  cbn zeta in Hr, Ht, Hf. done.
Qed.

(** ** The counters of a dispatch *)

Lemma record_row_stats row b : stats (record_row row b) = stats b.
Proof. unfold record_row. by destruct (db_faults b) as [|[?|] ?]. Qed.

Lemma record_rows_stats {A} (row_of : A -> ForwardLog) xs b :
  stats (foldl (fun b x => record_row (row_of x) b) b xs) = stats b.
Proof.
  revert b. induction xs as [|x xs IH]; intros b; cbn [foldl]; [done|].
  by rewrite IH, record_row_stats.
Qed.

Section Tally.
Variable provider : Provider.

Lemma notify_when_stats message target_id error_msg n b :
  stats (final (complete provider n
                  (when (notify_admin_on_error (config b))
                        (notify_admins_error message target_id error_msg) b)))
  = stats b.
Proof.
  unfold when. destruct (notify_admin_on_error (config b)); [|done].
  unfold notify_admins_error. cbn zeta. run_simpl.
  match goal with
  | |- context [for_each ?l (fun a => try_except (await (SendMessage a ?body);; _) _)] =>
      destruct (notify_loop_final provider body l n b) as (_ & _ & ->)
  end.
  done.
Qed.

Lemma Tallied_for_each count (body : Z -> Coro Bot unit) :
  (forall t n b, Tallied count b (complete provider n (body t b))) ->
  forall targets n b,
    Tallied count b (complete provider n (for_each targets body b)).
Proof.
  intros Hbody targets. induction targets as [|t targets IH]; intros n b.
  - rewrite complete_for_each_nil. by split.
  - rewrite complete_for_each_cons. unfold run_bind.
    destruct (Hbody t n b) as [R1 S1]. rewrite R1.
    destruct (IH (n + length (trace (complete provider n (body t b))))%nat
                 (final (complete provider n (body t b)))) as [R2 S2].
    split; cbn [result final trace]; [done|].
    unfold send_attempts in *. rewrite omap_app, foldl_app, <-S1. exact S2.
Qed.

Ltac stats_tail message t err :=
  match goal with
  | |- context [complete provider ?k (when _ ?m ?b1)] =>
      let r := fresh "r" in
      pose proof (notify_when_stats message t err k b1) as Hst;
      destruct (notify_when_run provider message t err k b1)
        as [[Hu1 Hu2 Hu3 Hu4 Hu5 Hu6 Hu8 Hu9 Hu7] Hnotes];
      revert Hst Hnotes Hu1 Hu2 Hu3 Hu4 Hu5 Hu6 Hu7 Hu8 Hu9;
      cbn zeta;
      generalize (complete provider k (when (notify_admin_on_error (config b1)) m b1));
      intros r; bot_simpl; intros
  end.

Ltac tally_close :=
  split; trace_simpl;
  repeat match goal with
         | H : send_attempts _ = _ |- _ => rewrite H
         end;
  trace_simpl;
  repeat first
    [ progress bot_simpl
    | rewrite record_row_stats
    | rewrite record_rows_stats
    | match goal with H : stats _ = _ |- _ => rewrite H end ];
  try done.

Lemma forward_single_message_tally message n b :
  Tallied (count_attempt false 1) b
          (complete provider n (forward_single_message message b)).
Proof.
  unfold forward_single_message. cbn zeta. run_simpl.
  apply Tallied_for_each.
  clear n b. intros t n b. run_simpl.
  unfold answer.
  destruct (provider n _) as [err|v]; run_simpl.
  - stats_tail message t err. tally_close.
  - destruct v as [|mid|mids]; unfold message_id_of; run_simpl.
    + stats_tail message t "AttributeError: message_id"%string. tally_close.
    + tally_close.
    + stats_tail message t "AttributeError: message_id"%string. tally_close.
Qed.

Lemma create_input_media_stats message cap b :
  exists b',
    create_input_media message cap b = Done (input_media_of message cap) b'
    /\ stats b' = stats b.
Proof.
  unfold create_input_media, input_media_of.
  destruct (last (photo message)); [by exists b|].
  destruct (video message); [by exists b|].
  destruct (document message); [by exists b|].
  destruct (audio message); [by exists b|].
  eexists. split; [reflexivity|done].
Qed.

Lemma build_media_list_stats i messages cap b :
  exists b',
    build_media_list i messages cap b = Done (media_list_of i messages cap) b'
    /\ stats b' = stats b.
Proof.
  revert i b. induction messages as [|m messages IH]; intros i b.
  - by exists b.
  - cbn [build_media_list media_list_of].
    set (c := if (i =? 0)%nat && Str.truthy cap then cap else None).
    assert ((if (i =? 0)%nat && Str.truthy cap
             then create_input_media m cap
             else create_input_media m None) = create_input_media m c) as ->
      by (unfold c; by destruct ((i =? 0)%nat && Str.truthy cap)).
    destruct (create_input_media_stats m c b) as (b1 & E1 & ?).
    destruct (IH (S i) b1) as (b2 & E2 & ?).
    exists b2. unfold mbind, coro_bind, bind. rewrite E1. cbn [obind].
    rewrite E2. cbn [obind].
    split; [|congruence].
    by destruct (input_media_of m c).
Qed.

Ltac group_tally_failure m0 rest t err :=
  unfold first_message; cbn zeta; run_simpl;
  rewrite for_each_log_forward; cbn [complete]; run_simpl;
  change (mret m0 ≫= λ m2 : Message, notify_admins_error m2 t err)
    with (notify_admins_error m0 t err);
  stats_tail m0 t err;
  tally_close.

Lemma forward_media_group_tally m0 rest n b :
  let messages := m0 :: rest in
  Tallied (count_attempt true (Z.of_nat (length messages))) b
          (complete provider n (forward_media_group messages b)).
Proof.
  intros messages. subst messages.
  unfold forward_media_group. run_simpl.
  apply Tallied_for_each.
  clear n b. intros t n b'. run_simpl.
  assert (complete provider n
            ((if add_source_info (forward_settings (config b'))
              then first_message (m0 :: rest) ≫= λ m1, mret (Some (build_caption (config b') m1))
              else mret None) b')
          = mkRun (inr (album_caption (config b') (m0 :: rest))) b' []) as ->.
  { unfold album_caption, first_message.
    by destruct (add_source_info _). }
  run_simpl.
  destruct (build_media_list_stats 0 (m0 :: rest) (album_caption (config b') (m0 :: rest)) b')
    as (b1 & E1 & Hs1).
  rewrite E1. cbn [complete]. run_simpl.
  destruct (media_list_of 0 (m0 :: rest) (album_caption (config b') (m0 :: rest)))
    as [|im media] eqn:Eml.
  - run_simpl. split; trace_simpl; done.
  - run_simpl. unfold answer.
    destruct (provider n _) as [err|v]; run_simpl.
    + group_tally_failure m0 rest t err.
    + destruct v as [|mid|mids]; unfold sent_messages_of; run_simpl.
      * group_tally_failure m0 rest t "TypeError: not a sequence of messages"%string.
      * group_tally_failure m0 rest t "TypeError: not a sequence of messages"%string.
      * rewrite (for_each_record _
                   (fun '(original_msg, sent_id) =>
                      success_row t true original_msg sent_id))
          by (intros [o sid] ?; apply log_forward_done).
        cbn [complete]. unfold first_message. run_simpl.
        tally_close.
Qed.

Lemma Tallied_from count b b1 (run : Run Bot unit) :
  stats b1 = stats b -> Tallied count b1 run -> Tallied count b run.
Proof. intros Hs [R S]. split; [done|]. by rewrite <-Hs. Qed.

Lemma forward_messages_group_tally messages n b :
  Tallied (count_attempt (is_media_group_batch messages)
                         (Z.of_nat (length (dispatched_batch messages)))) b
          (complete provider n (forward_messages_group messages b)).
Proof.
  unfold forward_messages_group, dispatched_batch.
  destruct messages as [|m0 rest]; [by split|].
  run_simpl.
  destruct (target_channels (config b)) as [|t0 targets] eqn:Et; [by split|].
  run_simpl.
  assert (forall k (b1 : Bot), stats b1 = stats b ->
    Tallied (count_attempt (is_media_group_batch (m0 :: rest))
               (Z.of_nat (length (if is_media_group_batch (m0 :: rest)
                                  then m0 :: rest else take 1 (m0 :: rest))))) b
      (complete provider k
         ((if is_media_group_batch (m0 :: rest)
           then logger_write (InfoForwardingGroup (length (m0 :: rest)));;
                forward_media_group (m0 :: rest)
           else logger_write InfoForwardingSingle;;
                forward_single_message m0) b1))) as Hrest.
  { intros k b1 Hs. destruct (is_media_group_batch (m0 :: rest)).
    - run_simpl. eapply Tallied_from; [|apply forward_media_group_tally].
      bot_simpl. done.
    - run_simpl. eapply Tallied_from; [|apply forward_single_message_tally].
      bot_simpl. done. }
  unfold when. destruct (0 <? delay_seconds (forward_settings (config b))).
  - run_simpl. cbn [answer].
    destruct (Hrest (n + 1)%nat b eq_refl) as [R S].
    split; cbn [result final trace]; [done|]. by trace_simpl.
  - run_simpl. by apply Hrest.
Qed.

End Tally.

Lemma count_attempts_total album size attempts s :
  let delivered :=
    Z.of_nat (length (filter (fun a => accepted album a = true) attempts)) in
  foldl (fun s a => count_attempt album size a s) s attempts
  = mkStats (messages_received s)
            (messages_forwarded s + delivered * size)
            (failed_forwards s
             + (Z.of_nat (length attempts) - delivered) * size)
            (media_groups_forwarded s + (if album then delivered else 0)).
Proof.
  revert s. induction attempts as [|a attempts IH]; intros s.
  - cbn. destruct s, album; cbn; f_equal; lia.
  - cbn [foldl]. rewrite IH. cbn zeta. rewrite filter_cons.
    unfold count_attempt.
    destruct (accepted album a) eqn:Ea.
    + rewrite decide_True by done. cbn [length].
      destruct album; cbn; f_equal; lia.
    + rewrite decide_False by done. cbn [length].
      destruct album; cbn; f_equal; lia.
Qed.

(** X4.  A dispatch counts every send attempt once for each message of the
    dispatched batch: as forwarded when the provider accepted the send, as
    failed otherwise.  The two counters together grow by the number of
    destinations attempted times the size of the batch; an accepted album
    adds one to [media_groups_forwarded]; [messages_received] is left
    alone. *)
Theorem every_send_attempt_is_counted provider n b messages :
  let run := complete provider n (forward_messages_group messages b) in
  let album := is_media_group_batch messages in
  let size := Z.of_nat (length (dispatched_batch messages)) in
  let attempts := send_attempts (trace run) in
  let delivered :=
    Z.of_nat (length (filter (fun a => accepted album a = true) attempts)) in
  stats (final run)
  = mkStats (messages_received (stats b))
            (messages_forwarded (stats b) + delivered * size)
            (failed_forwards (stats b)
             + (Z.of_nat (length attempts) - delivered) * size)
            (media_groups_forwarded (stats b)
             + (if album then delivered else 0))
  /\ messages_forwarded (stats (final run)) + failed_forwards (stats (final run))
     = messages_forwarded (stats b) + failed_forwards (stats b)
       + Z.of_nat (length (batch_targets (config b) messages)) * size.
Proof.
  intros run album size attempts delivered.
  destruct (forward_messages_group_tally provider messages n b) as [_ S].
  fold run album size attempts in S.
  rewrite count_attempts_total in S. fold delivered in S.
  split; [exact S|].
  destruct (forward_messages_group_run provider messages n b)
    as [_ _ _ _ _ _ A _ _ _ _]. fold run attempts in A.
  rewrite <-A, length_fmap, S. cbn. lia.
Qed.

(** ** Whom a dispatch addresses *)

Lemma failure_notes_admins cfg clk message t err a body :
  (a, body) ∈ failure_notes cfg clk message t err ->
  a ∈ admins cfg /\ notify_admin_on_error cfg = true.
Proof.
  unfold failure_notes. destruct (notify_admin_on_error cfg).
  - intros (a' & [= -> _] & Ha)%list_elem_of_fmap. done.
  - by intros ?%elem_of_nil.
Qed.

Lemma batch_notes_admins cfg clk messages attempt a body :
  (a, body) ∈ batch_notes cfg clk messages attempt ->
  a ∈ admins cfg /\ notify_admin_on_error cfg = true.
Proof.
  unfold batch_notes, group_notes, single_notes. destruct attempt as [t resp].
  destruct (is_media_group_batch messages).
  - destruct (album_error resp); [|by intros ?%elem_of_nil].
    destruct messages; [by intros ?%elem_of_nil|]. apply failure_notes_admins.
  - destruct messages; [by intros ?%elem_of_nil|].
    destruct (copy_error resp); [|by intros ?%elem_of_nil].
    apply failure_notes_admins.
Qed.

(** X5.  Whatever the provider answers, a dispatch addresses nobody but the
    configured destinations and, when error notification is enabled, the
    admins: every copy and every album goes to a target channel, every
    text message to an admin, and the only sleep is the configured
    delay. *)
Theorem dispatch_reaches_only_targets_and_admins provider n b messages :
  let run := complete provider n (forward_messages_group messages b) in
  Forall (fun ev =>
            match ev.1 with
            | Sleep d =>
                d = delay_seconds (forward_settings (config b)) /\ 0 < d
            | CopyMessage to_chat _ _ _ | SendMediaGroup to_chat _ =>
                to_chat ∈ target_channels (config b)
            | SendMessage to_chat _ =>
                to_chat ∈ admins (config b)
                /\ notify_admin_on_error (config b) = true
            end) (trace run).
Proof.
  intros run.
  destruct (forward_messages_group_run provider messages n b)
    as [_ _ _ _ _ _ A S N _ _]. fold run in A, S, N.
  assert (forall t, t ∈ (send_attempts (trace run)).*1 ->
                    t ∈ target_channels (config b)) as Htargets.
  { intros t. rewrite A. unfold batch_targets.
    destruct (sendable _ _); [done|]. by intros ?%elem_of_nil. }
  apply Forall_forall. intros [req resp] Hev. cbn [fst].
  destruct req as [d|to_chat from_chat mid cap|to_chat media|to_chat body].
  - assert (d ∈ sleeps (trace run)) as Hd.
    { apply list_elem_of_omap. by exists (Sleep d, resp). }
    rewrite S in Hd. unfold batch_sleeps in Hd.
    destruct messages; [by apply elem_of_nil in Hd|].
    destruct (target_channels (config b)); [by apply elem_of_nil in Hd|].
    destruct (0 <? delay_seconds _) eqn:Hpos; [|by apply elem_of_nil in Hd].
    apply list_elem_of_singleton in Hd as ->. split; [done|]. lia.
  - apply Htargets, list_elem_of_fmap. exists (to_chat, resp). split; [done|].
    apply list_elem_of_omap. by exists (CopyMessage to_chat from_chat mid cap, resp).
  - apply Htargets, list_elem_of_fmap. exists (to_chat, resp). split; [done|].
    apply list_elem_of_omap. by exists (SendMediaGroup to_chat media, resp).
  - assert ((to_chat, body) ∈ notifications (trace run)) as Hn.
    { apply list_elem_of_omap. by exists (SendMessage to_chat body, resp). }
    rewrite N in Hn. apply elem_of_flat_map in Hn as (attempt & _ & Hn).
    by apply batch_notes_admins in Hn.
Qed.

(** ** The classifier and the album items *)

(** X29.  For a message without text, the classifier and the album
    builder agree: [create_input_media] has an item for the message
    exactly when [get_message_type] classifies it as a photo, a video, a
    document or an audio; a voice message, a sticker, an animation, a
    location, a poll and anything else is left out of an album. *)
Theorem album_items_are_the_four_media_kinds message :
  Str.truthy (text message) = false ->
  representable message <-> get_message_type message ∈ album_kinds.
Proof.
  intros Htext. unfold representable, input_media_of, get_message_type.
  rewrite Htext.
  destruct (photo message) as [|p ps] eqn:Ep.
  - rewrite bool_decide_false by (by intros ?). cbn [last].
    destruct (video message) as [v|].
    { rewrite bool_decide_true by done. split; [|by eauto].
      intros _. apply list_elem_of_In. cbn. tauto. }
    rewrite bool_decide_false by (by intros [? ?]).
    destruct (document message) as [d|].
    { rewrite bool_decide_true by done. split; [|by eauto].
      intros _. apply list_elem_of_In. cbn. tauto. }
    rewrite bool_decide_false by (by intros [? ?]).
    destruct (audio message) as [a|].
    { rewrite bool_decide_true by done. split; [|by eauto].
      intros _. apply list_elem_of_In. cbn. tauto. }
    rewrite bool_decide_false by (by intros [? ?]).
    split; [by intros [? ?]|].
    intros Hin%list_elem_of_In. exfalso.
    repeat (match type of Hin with
            | context [bool_decide ?P] => destruct (bool_decide P)
            | context [if ?b then _ else _] => destruct b
            end);
      cbn in Hin; repeat (destruct Hin as [Hin|Hin]; [discriminate Hin|]);
      done.
  - rewrite bool_decide_true by done.
    assert (is_Some (last (p :: ps))) as [q ->].
    { rewrite last_is_Some. done. }
    split; [|by eauto]. intros _. apply list_elem_of_In. cbn. tauto.
Qed.

Lemma album_items_are_the_four_media_kinds_witness :
  representable (Sample.video_message 1 None)
  /\ ~ representable (Sample.sticker_message 2 None).
Proof.
  split.
  - apply (album_items_are_the_four_media_kinds (Sample.video_message 1 None));
      [reflexivity|].
    apply list_elem_of_In. vm_compute. tauto.
  - intros H.
    apply (album_items_are_the_four_media_kinds
             (Sample.sticker_message 2 None)) in H; [|reflexivity].
    apply list_elem_of_In in H. vm_compute in H.
    repeat (destruct H as [H|H]; [discriminate H|]). done.
Defined.

(** ** What the rows of a dispatch say *)

Lemma batch_rows_about messages attempt row :
  row ∈ batch_rows messages attempt ->
  row_consistent row
  /\ exists m, m ∈ dispatched_batch messages /\ row_about attempt.1 m row.
Proof.
  unfold batch_rows, dispatched_batch. destruct attempt as [t resp].
  destruct (is_media_group_batch messages).
  - unfold group_rows.
    destruct resp as [[| |mids]|[err|]]; cbn;
      try (by intros ?%elem_of_nil).
    + intros (m & -> & Hm)%list_elem_of_fmap. split; [by split; eauto|].
      by exists m.
    + intros (m & -> & Hm)%list_elem_of_fmap. split; [by split; eauto|].
      by exists m.
    + intros ([m sent] & -> & Hm)%list_elem_of_fmap.
      split; [by split; eauto|]. exists m. split; [|done].
      by apply elem_of_zip_l in Hm.
    + intros (m & -> & Hm)%list_elem_of_fmap. split; [by split; eauto|].
      by exists m.
  - destruct messages as [|m0 rest]; [by intros ?%elem_of_nil|].
    unfold single_rows.
    destruct resp as [[| |mids]|[err|]]; cbn;
      try (by intros ?%elem_of_nil);
      intros ->%list_elem_of_singleton;
      (split; [by split; eauto|]); exists m0;
      (split; [apply list_elem_of_here|done]).
Qed.

(** X30.  Every row that a dispatch adds to the delivery log is about a
    message of the dispatched batch and a configured target channel:
    it carries the chat, the id, the content type and the group id of
    that message; and it agrees with itself: a success has the id of the
    sent message and no error, a failure an error and no id. *)
Theorem rows_are_about_the_batch_and_the_targets provider n b messages :
  let run := complete provider n (forward_messages_group messages b) in
  exists rows,
    forward_logs (final run) = forward_logs b ++ rows
    /\ Forall (fun row =>
         row_consistent row
         /\ exists target_id m,
              target_id ∈ target_channels (config b)
              /\ m ∈ dispatched_batch messages
              /\ row_about target_id m row) rows.
Proof.
  intros run.
  destruct (forward_messages_group_run provider messages n b)
    as [_ _ _ _ _ _ A _ _ W _]. fold run in A, W.
  eexists. split; [exact W|].
  apply commit_rows_Forall, Forall_forall. intros row Hrow.
  apply elem_of_flat_map in Hrow as (attempt & Hattempt & Hrow).
  apply batch_rows_about in Hrow as [Hc (m & Hm & Habout)].
  split; [done|]. exists attempt.1, m. split; [|done].
  assert (attempt.1 ∈ (send_attempts (trace run)).*1) as Hin
    by (apply list_elem_of_fmap; by exists attempt).
  rewrite A in Hin. unfold batch_targets in Hin.
  destruct (sendable _ _); [done|]. by apply elem_of_nil in Hin.
Qed.

(** ** The message handler *)

Lemma complete_ozoom {W A} provider (o : Outcome W A) n (σ : St W) :
  complete provider n (ozoom o σ)
  = mkRun (result (complete provider n o))
          (mkSt (handler σ) (aio σ) (final (complete provider n o)))
          (trace (complete provider n o)).
Proof.
  revert n σ. induction o as [a w|e w|r w k IH]; intros n σ; [done|done|].
  cbn [ozoom complete]. cbn zeta. rewrite IH. done.
Qed.

Lemma handle_message_other_chat message (σ : St Bot) :
  chat_id message ∉ source_channels (config (world σ)) ->
  handle_message (Some message) σ
  = Done tt (mkSt (handler σ) (aio σ)
               (with_logger
                  (fun ls => ls ++ [InfoReceived (chat_id message)
                                                 (media_group_id message)])
                  (world σ))).
Proof.
  intros Hsrc. unfold handle_message.
  unfold logger_write, mbind, coro_bind, bind, zoom, gets, modify.
  cbn [obind ozoom world handler aio config with_logger].
  by rewrite bool_decide_false.
Qed.

(** The run of the handler for a message from a source channel: the
    message is dropped by the filter, buffered for its group, or
    dispatched. *)
Lemma handle_message_run provider n message (σ : St Bot) :
  chat_id message ∈ source_channels (config (world σ)) ->
  complete provider n (handle_message (Some message) σ)
  = if should_filter_message (config (world σ)) message
         (get_message_type message)
    then mkRun (inr tt)
           (mkSt (handler σ) (aio σ)
              (with_logger
                 (fun ls => ls ++ [InfoFiltered (get_message_type message)])
                 (world (received message σ)))) []
    else if Str.truthy (media_group_id message)
    then mkRun (inr tt)
           (arrive (Str.or_empty (media_group_id message)) message
                   (received message σ)) []
    else
      let r :=
        complete provider n
          (forward_messages_group [message] (world (received message σ))) in
      mkRun (result r) (mkSt (handler σ) (aio σ) (final r)) (trace r).
Proof.
  intros Hsrc.
  assert (handle_message (Some message) σ
          = if should_filter_message (config (world σ)) message
                 (get_message_type message)
            then Done tt
                   (mkSt (handler σ) (aio σ)
                      (with_logger
                         (fun ls => ls ++ [InfoFiltered (get_message_type message)])
                         (world (received message σ))))
            else add_message message bot_callback (received message σ)) as ->.
  { unfold handle_message, received.
    unfold logger_write, mbind, coro_bind, bind, zoom, gets, modify.
    cbn [obind ozoom world handler aio config with_logger].
    rewrite bool_decide_true by done. cbn [negb obind ozoom world handler aio].
    change (config (with_stats (add_received 1)
              (with_logger (λ ls, ls ++ [InfoReceived (chat_id message) (media_group_id message)]) (world σ))))
      with (config (world σ)).
    by destruct (should_filter_message _ _ _). }
  destruct (should_filter_message _ _ _); [done|].
  destruct (Str.truthy (media_group_id message)) eqn:Hg.
  - destruct (media_group_id message) as [[|c g]|] eqn:Eg; try done.
    by rewrite (add_message_group message (String c g)).
  - unfold add_message. rewrite Hg. cbn [negb].
    unfold bot_callback, zoom. by rewrite complete_ozoom.
Qed.

(** X6.  A message without a group id that comes from a source channel
    and passes the filter is dispatched within the run of its handler, with
    no timer: a send is attempted for every destination, in order and as a
    copy, the buffers and the task table are as before, and
    [messages_received] has grown by one. *)
Theorem ungrouped_message_is_forwarded_at_once provider n message
    (σ : St Bot) :
  chat_id message ∈ source_channels (config (world σ)) ->
  Str.truthy (media_group_id message) = false ->
  should_filter_message (config (world σ)) message (get_message_type message)
  = false ->
  let run := complete provider n (handle_message (Some message) σ) in
  result run = inr tt
  /\ handler (final run) = handler σ
  /\ aio (final run) = aio σ
  /\ (send_attempts (trace run)).*1 = target_channels (config (world σ))
  /\ album_sends (trace run) = []
  /\ messages_received (stats (world (final run)))
     = messages_received (stats (world σ)) + 1.
Proof.
  intros Hsrc Hgroup Hpass run. unfold run.
  rewrite handle_message_run, Hpass, Hgroup by done. cbn zeta.
  cbn [result final trace handler aio world received].
  set (b := with_stats _ _).
  destruct (forward_messages_group_run provider [message] n b)
    as [R _ Q _ _ _ A _ _ _ _].
  destruct (forward_messages_group_tally provider [message] n b) as [_ S].
  rewrite count_attempts_total in S.
  split; [done|]. split; [done|]. split; [done|]. split; [|split].
  - rewrite A. unfold batch_targets, sendable.
    assert (is_media_group_batch [message] = false) as -> by done.
    by rewrite bool_decide_true.
  - by apply Q.
  - rewrite S. done.
Qed.

(** The handler of a message from a source channel returns normally and
    has counted the message, in each of its three cases. *)
Ltac count_source_message provider message n σ :=
  rewrite handle_message_run by done;
  destruct (should_filter_message (config (world σ)) message
              (get_message_type message));
    [done|];
  destruct (Str.truthy (media_group_id message)); [done|];
  cbn zeta; cbn [result final trace handler aio world received];
  match goal with
  | |- context [forward_messages_group [message] ?b] =>
      let R := fresh "R" in
      let S := fresh "S" in
      destruct (forward_messages_group_tally provider [message] n b) as [R S];
      rewrite count_attempts_total in S; rewrite ?R, ?S
  end;
  done.

(** X9.  Every message that comes from a source channel is counted as
    received exactly once by the run of its handler, which returns
    normally: whether the message is filtered out, buffered for its
    group, or dispatched at once, and whatever the provider answers. *)
Theorem every_source_message_is_counted_once provider n message (σ : St Bot) :
  chat_id message ∈ source_channels (config (world σ)) ->
  let run := complete provider n (handle_message (Some message) σ) in
  result run = inr tt
  /\ messages_received (stats (world (final run)))
     = messages_received (stats (world σ)) + 1.
Proof.
  intros Hsrc run. subst run. split.
  - count_source_message provider message n σ.
  - count_source_message provider message n σ.
Qed.

Lemma every_source_message_is_counted_once_witness :
  let σ := shared (start_bot Sample.no_video_bot) in
  let album_item := Sample.photo_message 7 (Some "g") None in
  let run := complete Sample.obliging 0 (handle_message (Some album_item) σ) in
  chat_id album_item ∈ source_channels (config (world σ))
  /\ result run = inr tt
  /\ trace run = []
  /\ messages_received (stats (world (final run))) = 1.
Proof.
  intros σ album_item run.
  assert (chat_id album_item ∈ source_channels (config (world σ))) as Hsrc
    by (apply list_elem_of_In; vm_compute; tauto).
  destruct (every_source_message_is_counted_once Sample.obliging 0 album_item σ
              Hsrc) as [R S].
  split; [done|]. split; [exact R|]. split; [reflexivity|exact S].
Defined.

(** X7.  Updates from chats that are not source channels leave no trace
    but a line each in the operational log: no task is started or
    cancelled, nothing is buffered, and the configuration, the counters,
    the delivery log and the database are as before. *)
Theorem updates_from_other_chats_are_ignored messages : forall (L : Loop Bot),
  Forall (fun m => chat_id m ∉ source_channels (config (world (shared L))))
         messages ->
  (forall tid, is_Some (suspended L !! tid) ->
               (tid < next_task (aio (shared L)))%nat) ->
  let L' := bot_run L (Update <$> messages) in
  suspended L' = suspended L
  /\ handler (shared L') = handler (shared L)
  /\ created (aio (shared L')) = created (aio (shared L))
  /\ cancel_requested (aio (shared L')) = cancel_requested (aio (shared L))
  /\ world (shared L')
     = with_logger
         (fun ls => ls ++ map (fun m => InfoReceived (chat_id m)
                                                     (media_group_id m))
                              messages)
         (world (shared L)).
Proof.
  induction messages as [|m messages IH]; intros L Hall Hids.
  - cbn. repeat split. destruct (world (shared L)). unfold with_logger. cbn.
    by rewrite app_nil_r.
  - apply Forall_cons in Hall as [Hm Hall].
    cbn [fmap list_fmap]. unfold bot_run. cbn [foldl]. fold (bot_run (bot_step L (Update m)) (Update <$> messages)).
    assert (bot_step L (Update m)
            = mkLoop (mkSt (handler (shared L))
                           (mkAsyncio (S (next_task (aio (shared L))))
                                      (created (aio (shared L)))
                                      (cancel_requested (aio (shared L))))
                           (with_logger
                              (fun ls => ls ++ [InfoReceived (chat_id m) (media_group_id m)])
                              (world (shared L))))
                     (suspended L)) as E.
    { unfold bot_step, step. rewrite handle_message_other_chat by done.
      cbn [settle take_task_id with_aio handler aio world next_task created cancel_requested].
      f_equal. apply delete_id.
      destruct (suspended L !! next_task (aio (shared L))) eqn:El; [|done].
      assert (is_Some (suspended L !! next_task (aio (shared L)))) as Hs by eauto.
      apply Hids in Hs. lia. }
    rewrite E.
    match goal with
    | |- context [bot_run ?L1 _] =>
        destruct (IH L1) as (H1 & H2 & H3 & H4 & H5);
          [exact Hall | cbn; intros tid Hs; apply Hids in Hs; lia |]
    end.
    cbn zeta in H1, H2, H3, H4, H5. rewrite H1, H2, H3, H4, H5. cbn.
    repeat split. unfold with_logger. cbn. by rewrite <-app_assoc.
Qed.

Lemma ungrouped_message_is_forwarded_at_once_witness :
  let σ := shared (start_bot (Sample.bot0 [10; 20])) in
  let message := Sample.text_message 1 "hello" in
  let run := complete Sample.obliging 0 (handle_message (Some message) σ) in
  chat_id message ∈ source_channels (config (world σ))
  /\ (send_attempts (trace run)).*1 = [10; 20]
  /\ messages_received (stats (world (final run))) = 1.
Proof.
  intros σ message run.
  assert (chat_id message ∈ source_channels (config (world σ))) as Hsrc
    by (apply list_elem_of_In; vm_compute; tauto).
  destruct (ungrouped_message_is_forwarded_at_once Sample.obliging 0 message σ
              Hsrc eq_refl eq_refl) as (_ & _ & _ & A & _ & S).
  split; [done|]. split; [exact A|exact S].
Defined.

Lemma updates_from_other_chats_are_ignored_witness :
  let L := start_bot (Sample.bot0 [10]) in
  let L' := bot_run L [Update (Cases.stray_message 1); Update (Cases.stray_message 2)] in
  Forall (fun m => chat_id m ∉ source_channels (config (world (shared L))))
         [Cases.stray_message 1; Cases.stray_message 2]
  /\ suspended L' = ∅
  /\ handler (shared L') = handler (shared L)
  /\ stats (world (shared L')) = stats (world (shared L))
  /\ forward_logs (world (shared L')) = [].
Proof.
  intros L L'.
  assert (Forall (fun m => chat_id m ∉ source_channels (config (world (shared L))))
                 [Cases.stray_message 1; Cases.stray_message 2]) as Hall.
  { apply Forall_forall. intros m Hm Hin.
    apply list_elem_of_In in Hm, Hin. vm_compute in Hm, Hin.
    destruct Hm as [<-|[<-|[]]]; by destruct Hin. }
  assert (forall tid, is_Some (suspended L !! tid) ->
                      (tid < next_task (aio (shared L)))%nat) as Hids.
  { intros tid [task Ht]. unfold L in Ht. cbn in Ht. by rewrite lookup_empty in Ht. }
  destruct (updates_from_other_chats_are_ignored
              [Cases.stray_message 1; Cases.stray_message 2] L Hall Hids)
    as (H1 & H2 & _ & _ & H5).
  split; [done|]. split; [exact H1|]. split; [exact H2|].
  unfold L'. cbn [fmap list_fmap] in H5. rewrite H5. done.
Defined.

(** ** The keyword filter and the case of letters *)

Lemma lower_empty s : Str.lower s = EmptyString <-> s = EmptyString.
Proof. by destruct s. Qed.

Lemma truthy_lower o1 o2 :
  Str.lower <$> o1 = Str.lower <$> o2 -> Str.truthy o1 = Str.truthy o2.
Proof.
  destruct o1 as [s1|], o2 as [s2|]; cbn; try done.
  intros [= E]. by destruct s1, s2.
Qed.

Lemma or_empty_lower o1 o2 :
  Str.lower <$> o1 = Str.lower <$> o2 ->
  Str.lower (Str.or_empty o1) = Str.lower (Str.or_empty o2).
Proof.
  destruct o1 as [s1|], o2 as [s2|]; cbn; try done.
  intros [= E]. by destruct s1, s2.
Qed.

Lemma existsb_fmap {A B} (f : A -> B) (p : B -> bool) l :
  existsb p (f <$> l) = existsb (fun x => p (f x)) l.
Proof. induction l as [|x l IH]; cbn; by rewrite ?IH. Qed.

(** X8.  The keyword filter does not look at the case of (ASCII) letters:
    two messages whose texts differ only in case, under configurations
    whose keywords differ only in case, are filtered alike. *)
Theorem keyword_filter_ignores_case cfg1 cfg2 m1 m2 kind :
  filter_content_types (forward_settings cfg1)
  = filter_content_types (forward_settings cfg2) ->
  Str.lower <$> keyword_filter (forward_settings cfg1)
  = Str.lower <$> keyword_filter (forward_settings cfg2) ->
  Str.lower <$> text m1 = Str.lower <$> text m2 ->
  should_filter_message cfg1 m1 kind = should_filter_message cfg2 m2 kind.
Proof.
  intros Hty Hkw Htx. unfold should_filter_message.
  rewrite Hty, (truthy_lower _ _ Htx), (or_empty_lower _ _ Htx).
  assert (bool_decide (keyword_filter (forward_settings cfg1) ≠ [])
          = bool_decide (keyword_filter (forward_settings cfg2) ≠ [])) as ->.
  { apply (f_equal length) in Hkw. rewrite !length_fmap in Hkw.
    destruct (keyword_filter (forward_settings cfg1)),
             (keyword_filter (forward_settings cfg2)); done. }
  set (t := Str.lower (Str.or_empty (text m2))).
  rewrite <-(existsb_fmap Str.lower (Str.contains t)
                          (keyword_filter (forward_settings cfg1))).
  rewrite <-(existsb_fmap Str.lower (Str.contains t)
                          (keyword_filter (forward_settings cfg2))).
  by rewrite Hkw.
Qed.

Lemma keyword_filter_ignores_case_witness :
  should_filter_message (Cases.keyword_config "SpAm")
    (Sample.text_message 1 "Cheap SPAM here") "text"
  = should_filter_message (Cases.keyword_config "spam")
      (Sample.text_message 2 "cheap spam here") "text"
  /\ should_filter_message (Cases.keyword_config "spam")
       (Sample.text_message 2 "cheap spam here") "text" = true.
Proof.
  split; [|reflexivity].
  apply keyword_filter_ignores_case; reflexivity.
Defined.

(** ** Groups do not disturb each other *)

(** X10.  A message that does not belong to the group [g] (a message of
    another group, or one without a group) leaves [g] alone when it
    arrives: the buffer of [g] and its timer are as before, and the
    timer task is neither cancelled nor otherwise touched.  The timers of
    different groups stay different tasks. *)
Theorem other_messages_leave_a_group_alone g message (L : Loop Batches) :
  timers_wf L ->
  Str.or_empty (media_group_id message) ≠ g ->
  let L' := observer_step L (Update message) in
  timers_wf L'
  /\ media_groups (handler (shared L')) !! g
     = media_groups (handler (shared L)) !! g
  /\ live_timer L' g = live_timer L g
  /\ forall tid, live_timer L g = Some tid ->
       (tid ∈ cancel_requested (aio (shared L'))
        <-> tid ∈ cancel_requested (aio (shared L)))
       /\ created (aio (shared L')) !! tid = created (aio (shared L)) !! tid
       /\ suspended L' !! tid = suspended L !! tid.
Proof.
  intros [Hd Hm] Hg L'. subst L'. unfold observer_step, step, live_timer.
  destruct (Str.truthy (media_group_id message)) eqn:Ht.
  - (* a message of another group *)
    destruct (media_group_id message) as [[|c s]|] eqn:Eg; try done.
    cbn in Hg.
    rewrite (add_message_group message (String c s)) by done.
    unfold arrive, take_task_id, with_aio.
    cbn [settle shared suspended handler aio
         world next_task created cancel_requested media_groups group_timers].
    split; [split|split; [|split]];
      cbn [shared handler aio group_timers next_task].
    + intros g1 g2 tid H1 H2.
      destruct (decide (g1 = String c s)) as [->|Hn1],
               (decide (g2 = String c s)) as [->|Hn2]; try done.
      * rewrite lookup_insert_eq in H1. rewrite lookup_insert_ne in H2 by done.
        injection H1 as <-. apply Hm in H2. lia.
      * rewrite lookup_insert_eq in H2. rewrite lookup_insert_ne in H1 by done.
        injection H2 as <-. apply Hm in H1. lia.
      * rewrite lookup_insert_ne in H1, H2 by done. by eapply Hd.
    + intros g1 tid H1.
      destruct (decide (g1 = String c s)) as [->|Hn1].
      * rewrite lookup_insert_eq in H1. injection H1 as <-. lia.
      * rewrite lookup_insert_ne in H1 by done. apply Hm in H1. lia.
    + by rewrite lookup_insert_ne.
    + by rewrite lookup_insert_ne.
    + intros tid Htid. pose proof (Hm _ _ Htid) as Hlt.
      split; [|split].
      * destruct (group_timers (handler (shared L)) !! String c s)
          as [old|] eqn:Eold; [|done].
        assert (tid ≠ old) as Hne.
        { intros ->. apply Hg. by apply (Hd _ _ old). }
        set_solver.
      * rewrite lookup_insert_ne; [done|lia].
      * rewrite lookup_delete_ne; [done|lia].
  - (* a message without a group *)
    unfold add_message. rewrite Ht. cbn [negb].
    unfold emit, modify.
    cbn [settle shared suspended take_task_id with_aio handler aio world
         next_task created cancel_requested].
    split; [split|split; [done|split; [done|]]];
      cbn [shared handler aio group_timers next_task].
    + done.
    + intros g1 tid H1. apply Hm in H1. lia.
    + intros tid Htid. pose proof (Hm _ _ Htid) as Hlt.
      split; [done|]. split; [done|].
      rewrite lookup_delete_ne; [done|lia].
Qed.

Lemma other_messages_leave_a_group_alone_witness :
  let L := observer_step Sample.observer0
             (Update (Sample.photo_message 1 (Some "g1") None)) in
  let L' := observer_step L
              (Update (Sample.photo_message 2 (Some "g2") None)) in
  timers_wf L
  /\ live_timer L "g1" = Some 1%nat
  /\ live_timer L' "g1" = Some 1%nat
  /\ media_groups (handler (shared L')) !! "g1"
     = Some [Sample.photo_message 1 (Some "g1") None].
Proof.
  intros L L'.
  assert (timers_wf Sample.observer0) as Hwf0.
  { split.
    - intros g1 g2 tid H1. cbn in H1. by rewrite lookup_empty in H1.
    - intros g1 tid H1. cbn in H1. by rewrite lookup_empty in H1. }
  assert (timers_wf L) as Hwf.
  { by destruct (other_messages_leave_a_group_alone "g2"
                   (Sample.photo_message 1 (Some "g1") None)
                   Sample.observer0 Hwf0). }
  destruct (other_messages_leave_a_group_alone "g1"
              (Sample.photo_message 2 (Some "g2") None) L Hwf)
    as (_ & Hbuf & Hlive & _); [done|].
  split; [exact Hwf|]. split; [reflexivity|].
  fold L' in Hbuf, Hlive. rewrite Hlive, Hbuf. split; reflexivity.
Defined.

(** ** The rate limiter, continued *)

Lemma sends_in_window_app start l1 l2 :
  RateLimiter.sends_in_window start (l1 ++ l2)
  = (RateLimiter.sends_in_window start l1
     + RateLimiter.sends_in_window start l2)%nat.
Proof.
  unfold RateLimiter.sends_in_window. by rewrite filter_app, length_app.
Qed.

Lemma filter_filter_implied {A} (P Q : A -> Prop)
    `{forall x, Decision (P x)} `{forall x, Decision (Q x)} (l : list A) :
  (forall x, x ∈ l -> P x -> Q x) ->
  filter P (filter Q l) = filter P l.
Proof.
  intros Himp. induction l as [|x l IH]; [done|].
  rewrite (filter_cons Q), (filter_cons P).
  destruct (decide (Q x)) as [Hq|Hq].
  - rewrite filter_cons. destruct (decide (P x)).
    + f_equal. apply IH. intros y Hy. apply Himp. by right.
    + apply IH. intros y Hy. apply Himp. by right.
  - destruct (decide (P x)) as [Hp|Hp].
    + exfalso. apply Hq, Himp; [by left|done].
    + apply IH. intros y Hy. apply Himp. by right.
Qed.

Lemma length_filter_implied {A} (P Q : A -> Prop)
    `{forall x, Decision (P x)} `{forall x, Decision (Q x)} (l : list A) :
  (forall x, x ∈ l -> P x -> Q x) ->
  (length (filter P l) <= length (filter Q l))%nat.
Proof.
  intros Himp. rewrite <-(filter_filter_implied P Q l Himp).
  apply length_filter.
Qed.

Lemma limiter_inv_acquire history last now self :
  limiter_inv history last self ->
  last <= now ->
  let '(granted, self') := RateLimiter.acquire now self in
  limiter_inv (if granted then history ++ [now] else history) now self'
  /\ RateLimiter.max_per_minute self' = RateLimiter.max_per_minute self.
Proof.
  intros [Hreq Hbound] Hnow. unfold RateLimiter.acquire.
  assert (filter (fun r => now - r < RateLimiter.minute_us)
                 (RateLimiter.requests self)
          = filter (fun h => now - h < RateLimiter.minute_us) history) as Hkept.
  { rewrite Hreq. apply filter_filter_implied. intros h _ Hh. lia. }
  rewrite Hkept.
  case_bool_decide as Hfull; cbn; (split; [|done]).
  - by split.
  - split; cbn.
    + rewrite filter_app, filter_cons, decide_True, filter_nil; [done|].
      unfold RateLimiter.minute_us, RateLimiter.second_us. lia.
    + intros start. rewrite sends_in_window_app.
      unfold RateLimiter.sends_in_window at 2.
      rewrite filter_cons, filter_nil.
      destruct (decide (start <= now < start + RateLimiter.minute_us)) as [Hin|Hout].
      * cbn [length].
        pose proof (length_filter_implied
                      (fun h => start <= h < start + RateLimiter.minute_us)
                      (fun h => now - h < RateLimiter.minute_us) history) as Hle.
        unfold RateLimiter.sends_in_window.
        assert (forall h, h ∈ history ->
                  start <= h < start + RateLimiter.minute_us ->
                  now - h < RateLimiter.minute_us) as Himp by (intros; lia).
        specialize (Hle Himp). lia.
      * cbn [length]. specialize (Hbound start). lia.
Qed.

Lemma granted_times_bounded calls : forall history last self start,
  limiter_inv history last self ->
  StronglySorted Z.le calls ->
  Forall (fun c => last <= c) calls ->
  Z.of_nat (RateLimiter.sends_in_window start
              (history ++ granted_times calls self))
  <= Z.max 0 (RateLimiter.max_per_minute self).
Proof.
  induction calls as [|now calls IH]; intros history last self start Hinv Hs Hl.
  - cbn. rewrite app_nil_r. apply Hinv.
  - apply StronglySorted_inv in Hs as [Hs Hnow].
    apply Forall_cons in Hl as [Hl0 Hl].
    pose proof (limiter_inv_acquire history last now self Hinv Hl0) as Hacq.
    cbn [granted_times].
    destruct (RateLimiter.acquire now self) as [granted self'].
    destruct Hacq as [Hinv' Hmax]. rewrite <-Hmax.
    destruct granted.
    + change (now :: granted_times calls self')
        with ([now] ++ granted_times calls self').
      rewrite app_assoc. by apply (IH _ now).
    + by apply (IH _ now).
Qed.

(** X11.  [acquire] alone keeps the limit: for a limiter that starts
    empty and a clock that never goes back, the sends of a client that
    sends only when [acquire] returns [True] never number more than
    [max_per_minute] in any span of 60 seconds (and are none at all when
    [max_per_minute] is not positive). *)
Theorem acquire_bounds_every_minute calls self start :
  Sorted Z.le calls ->
  RateLimiter.requests self = [] ->
  Z.of_nat (RateLimiter.sends_in_window start (granted_times calls self))
  <= Z.max 0 (RateLimiter.max_per_minute self).
Proof.
  intros Hs Hempty.
  apply Sorted_StronglySorted in Hs; [|intros x y z; lia].
  destruct calls as [|now calls]; [cbn; lia|].
  apply (granted_times_bounded (now :: calls) [] now self start).
  - split; [done|]. intros start'. cbn. lia.
  - done.
  - apply StronglySorted_inv in Hs as [_ Hs]. constructor; [lia|done].
Qed.

Lemma acquire_bounds_every_minute_witness :
  let limiter := RateLimiter.mk 2 [] in
  let calls := [0; 1000000; 2000000; 59999999; 60000000; 60000001] in
  Sorted Z.le calls
  /\ granted_times calls limiter = [0; 1000000; 60000000]
  /\ Z.of_nat (RateLimiter.sends_in_window 1 (granted_times calls limiter)) <= 2.
Proof.
  intros limiter calls.
  assert (Sorted Z.le calls) as Hs.
  { repeat (constructor; [|try (constructor; unfold Z.le; by cbn)]). constructor. }
  split; [exact Hs|]. split; [reflexivity|].
  exact (acquire_bounds_every_minute calls limiter 1 Hs eq_refl).
Defined.

Lemma minimum_spec l oldest :
  RateLimiter.minimum l = Some oldest ->
  oldest ∈ l /\ Forall (fun r => oldest <= r) l.
Proof.
  unfold RateLimiter.minimum. destruct l as [|x l]; [done|].
  intros [= <-].
  assert (forall l x, foldl Z.min x l <= x
                      /\ Forall (fun r => foldl Z.min x l <= r) l
                      /\ (foldl Z.min x l = x \/ foldl Z.min x l ∈ l)) as Hmin.
  { clear. induction l as [|y l IH]; intros x; cbn [foldl].
    - split; [lia|]. split; [constructor|by left].
    - destruct (IH (x `min` y)) as (H1 & H2 & H3).
      split; [lia|]. split.
      + constructor; [lia|done].
      + destruct H3 as [->|H3].
        * destruct (Z.min_spec x y) as [[_ ->]|[_ ->]]; [by left|].
          right. by left.
        * right. by right. }
  destruct (Hmin l x) as (H1 & H2 & H3). split.
  - destruct H3 as [->|H3]; [by left|by right].
  - by constructor.
Qed.

(** X12.  When [wait_if_needed] makes its caller sleep (the limiter being
    full, with a positive limit, holding no request from the future, and
    the clock being read the second time less than a day after the first),
    the sleep lasts at most 60 seconds, at least one second when the clock
    has not advanced, and it is long enough: an [acquire] at the end of
    the sleep is granted. *)
Theorem wait_if_needed_waits_for_a_free_slot now later self slept self' :
  0 < RateLimiter.max_per_minute self ->
  Z.of_nat (length (RateLimiter.requests self))
    <= RateLimiter.max_per_minute self ->
  Forall (fun r => r <= now) (RateLimiter.requests self) ->
  now <= later < now + (RateLimiter.day_us - RateLimiter.minute_us) ->
  RateLimiter.wait_if_needed now later self = (inr (Some slept), self') ->
  slept <= 60
  /\ (later = now -> 1 <= slept)
  /\ (RateLimiter.acquire (later + Z.max 0 slept * RateLimiter.second_us)
                          self').1
     = true.
Proof.
  intros Hpos Hlen Hpast Hlater.
  unfold RateLimiter.wait_if_needed, RateLimiter.acquire.
  set (kept := filter (fun r => now - r < RateLimiter.minute_us)
                      (RateLimiter.requests self)).
  assert (length kept <= length (RateLimiter.requests self))%nat as Hk
    by apply length_filter.
  case_bool_decide as Hfull; [|done]. cbn [RateLimiter.requests].
  destruct (RateLimiter.minimum kept) as [oldest|] eqn:Emin; [|done].
  intros [= <- <-]. cbn [RateLimiter.requests RateLimiter.max_per_minute].
  apply minimum_spec in Emin as [Hin Hle].
  assert (0 <= now - oldest < RateLimiter.minute_us) as Hage.
  { apply list_elem_of_filter in Hin as [Hrecent Hin].
    rewrite Forall_forall in Hpast. specialize (Hpast _ Hin). lia. }
  assert (RateLimiter.seconds (later - oldest)
          = (later - oldest) `div` RateLimiter.second_us) as Hsec.
  { unfold RateLimiter.seconds. rewrite Z.mod_small; [done|].
    unfold RateLimiter.day_us, RateLimiter.minute_us, RateLimiter.second_us in *.
    lia. }
  rewrite Hsec.
  unfold RateLimiter.day_us, RateLimiter.minute_us, RateLimiter.second_us in *.
  pose proof (Z.div_mod (later - oldest) 1000000 ltac:(lia)) as Hdm.
  pose proof (Z.mod_pos_bound (later - oldest) 1000000 ltac:(lia)) as Hmb.
  split; [lia|]. split; [intros ->; lia|].
  rewrite bool_decide_false; [done|].
  pose proof (length_filter_lt
                (fun r : Z =>
                   (later
                    + Z.max 0 (60 - (later - oldest) `div` 1000000) * 1000000
                    - r < 60 * 1000000)%Z) kept oldest Hin) as Hlt.
  cbn beta in Hlt. lia.
Qed.

Lemma wait_if_needed_waits_for_a_free_slot_witness :
  let limiter := RateLimiter.mk 2 [0; 1500000] in
  RateLimiter.wait_if_needed 2000000 2000001 limiter
    = (inr (Some 58), limiter)
  /\ (RateLimiter.acquire (2000001 + 58 * RateLimiter.second_us) limiter).1
     = true.
Proof.
  intros limiter. split; [reflexivity|].
  refine (proj2 (proj2 (wait_if_needed_waits_for_a_free_slot
                          2000000 2000001 limiter 58 limiter _ _ _ _ eq_refl))).
  - reflexivity.
  - cbn. lia.
  - repeat constructor; cbn; lia.
  - vm_compute. split; [discriminate|reflexivity].
Defined.

(** X13.  [wait_if_needed] raises (the [ValueError] of [min] on an empty
    list) exactly when the limit is not positive and the limiter holds no
    request of the last minute; with a limit of one or more it never
    raises. *)
Theorem wait_if_needed_raises_without_quota now later self :
  (exists err, (RateLimiter.wait_if_needed now later self).1 = inl err)
  <-> RateLimiter.max_per_minute self <= 0
      /\ Forall (fun r => RateLimiter.minute_us <= now - r)
                (RateLimiter.requests self).
Proof.
  unfold RateLimiter.wait_if_needed, RateLimiter.acquire.
  set (kept := filter (fun r => now - r < RateLimiter.minute_us)
                      (RateLimiter.requests self)).
  assert (kept = [] <-> Forall (fun r => RateLimiter.minute_us <= now - r)
                               (RateLimiter.requests self)) as Hempty.
  { unfold kept. clear.
    induction (RateLimiter.requests self) as [|r l IH].
    - split; [constructor|done].
    - rewrite filter_cons, Forall_cons.
      destruct (decide (now - r < RateLimiter.minute_us)) as [Hr|Hr].
      + split; [done|]. intros [? _]. lia.
      + rewrite IH. split; [|tauto]. intros H. split; [lia|done]. }
  case_bool_decide as Hfull; cbn [fst RateLimiter.requests].
  - destruct kept as [|r kept'] eqn:Ek; cbn.
    + split.
      * intros _. split; [cbn in Hfull; lia|]. by apply Hempty.
      * intros _. by eexists.
    + split.
      * by intros [err ?].
      * intros [_ H]. by apply Hempty in H.
  - split.
    + by intros [err ?].
    + intros [Hmax H]. apply Hempty in H. rewrite H in Hfull. cbn in Hfull. lia.
Qed.

(** ** Escaping for MarkdownV2 *)

Lemma backslash_is_not_reserved : is_escape_char backslash = false.
Proof. reflexivity. Qed.

(** X14.  In the text [escape_markdown_v2] returns, every reserved
    character stands right after a backslash. *)
Theorem escape_markdown_v2_escapes_every_reserved_char text :
  forall pre c post,
    escape_markdown_v2 text = pre +:+ String c post ->
    is_escape_char c = true ->
    exists pre', pre = pre' +:+ String backslash EmptyString.
Proof.
  induction text as [|c0 rest IH]; intros pre c post Heq Hc.
  - by destruct pre.
  - cbn [escape_markdown_v2] in Heq.
    destruct (is_escape_char c0) eqn:Hc0.
    + destruct pre as [|x [|y pre2]].
      * injection Heq as <- _. by rewrite backslash_is_not_reserved in Hc.
      * injection Heq as <- _ _. by exists EmptyString.
      * injection Heq as <- <- Heq.
        destruct (IH _ _ _ Heq Hc) as [pre' ->].
        by exists (String backslash (String c0 pre')).
    + destruct pre as [|x pre2].
      * injection Heq as <- _. congruence.
      * injection Heq as <- Heq.
        destruct (IH _ _ _ Heq Hc) as [pre' ->].
        by exists (String c0 pre').
Qed.

Lemma escape_markdown_v2_escapes_every_reserved_char_witness :
  escape_markdown_v2 "a_b.c" = "a\_b\.c"
  /\ exists pre', "a\_b\" = pre' +:+ String backslash EmptyString.
Proof.
  split; [reflexivity|].
  apply (escape_markdown_v2_escapes_every_reserved_char "a_b.c" "a\_b\" (Ascii.ascii_of_nat 46) "c");
    reflexivity.
Defined.

Lemma escape_markdown_v2_head text :
  match escape_markdown_v2 text with
  | EmptyString => True
  | String d _ => is_escape_char d = false
  end.
Proof.
  destruct text as [|c rest]; [done|]. cbn [escape_markdown_v2].
  destruct (is_escape_char c) eqn:Hc; [reflexivity|done].
Qed.

(** X15.  Escaping loses nothing: dropping the backslash in front of
    each reserved character of the escaped text gives the text back,
    also when the text has backslashes of its own. *)
Theorem unescape_escape_markdown_v2 text :
  unescape (escape_markdown_v2 text) = text.
Proof.
  induction text as [|c rest IH]; [done|].
  cbn [escape_markdown_v2].
  destruct (is_escape_char c) eqn:Hc.
  - cbn [unescape]. rewrite Hc. cbn. by rewrite IH.
  - pose proof (escape_markdown_v2_head rest) as Hhead.
    cbn [unescape].
    destruct (escape_markdown_v2 rest) as [|d tail] eqn:Er.
    + by rewrite <-IH.
    + rewrite Hhead, andb_false_r. by rewrite IH.
Qed.

(** ** Admin commands *)

Lemma save_config_done p : save_config p = Done tt (saved p).
Proof. unfold save_config, saved. by destruct (file_faults p). Qed.

Lemma complete_save_config provider n p :
  complete provider n (save_config p) = mkRun (inr tt) (saved p) [].
Proof. by rewrite save_config_done. Qed.

Section CommandRuns.
Variable int : string -> option Z.
Variable provider : Provider.

Lemma complete_reply_text update body n p :
  complete provider n (reply_text update body p)
  = mkRun (match answer provider n (SendMessage (reply_chat update) body) with
           | Returned _ => inr tt
           | Raised e => inl e
           end) p
          [(SendMessage (reply_chat update) body,
            answer provider n (SendMessage (reply_chat update) body))].
Proof.
  unfold reply_text. run_simpl.
  by destruct (answer provider n (SendMessage (reply_chat update) body)).
Qed.

Ltac command_simpl :=
  repeat first
    [ rewrite complete_reply_text
    | rewrite complete_save_config
    | progress run_simpl ].

Ltac replied_close := first [by left | right; by do 2 eexists].

Lemma command_run command update n p :
  let run := complete provider n (command_handler int command update p) in
  final run
  = match config_after int command update (config (panel_bot p)) with
    | Some cfg' => saved (with_config (fun _ => cfg') p)
    | None => p
    end
  /\ replied update run.
Proof.
  unfold config_after, command_argument, replied.
  destruct command; cbn [command_handler];
    unfold start_command, add_source_command, add_target_command,
      remove_source_command, remove_target_command, list_sources_command,
      list_targets_command, add_admin_command, list_admins_command,
      set_delay_command, toggle_source_info_command, is_admin;
    cbn zeta; command_simpl;
    destruct (bool_decide (effective_user_id update ∈ admins (config (panel_bot p))));
    cbn [negb]; command_simpl;
    try (split; [reflexivity|replied_close]);
    try (destruct (args update) as [|arg0 ?]; command_simpl;
         [split; [reflexivity|replied_close]|];
         cbn [mbind option_bind];
         destruct (int arg0) as [id|]; cbn [mbind option_bind]; command_simpl;
         [|split; [reflexivity|replied_close]]).
  all: try (case_bool_decide; command_simpl; (split; [reflexivity|replied_close])).
  all: try (destruct (id <? 0); command_simpl; (split; [reflexivity|replied_close])).
  all: try (destruct (source_channels (config (panel_bot p))); command_simpl;
            (split; [reflexivity|replied_close])).
  all: try (destruct (target_channels (config (panel_bot p))); command_simpl;
            (split; [reflexivity|replied_close])).
  all: try (destruct (admins (config (panel_bot p))); command_simpl;
            (split; [reflexivity|replied_close])).
Qed.

End CommandRuns.

Lemma saved_bot p : panel_bot (saved p) = panel_bot p.
Proof. unfold saved. by destruct (file_faults p). Qed.

Lemma list_remove_sublist x l : sublist (list_remove x l) l.
Proof.
  induction l as [|y l IH]; cbn; [done|].
  case_bool_decide; [by apply sublist_cons|by apply sublist_skip].
Qed.

Lemma list_remove_NoDup x l : NoDup l -> NoDup (list_remove x l).
Proof.
  intros H. apply (sublist_NoDup _ l); [done|]. apply list_remove_sublist.
Qed.

Lemma elem_of_list_remove x y l :
  NoDup l -> y ∈ list_remove x l <-> y ∈ l /\ y ≠ x.
Proof.
  induction 1 as [|z l Hz Hnd IH]; cbn.
  - split; [by intros ?%elem_of_nil|by intros [?%elem_of_nil _]].
  - case_bool_decide as Hzx.
    + subst z. split.
      * intros Hy. split; [by right|]. by intros ->.
      * intros [[->|Hy]%elem_of_cons Hne]; done.
    + rewrite !elem_of_cons, IH. split.
      * intros [->|[Hy Hne]]; [by split; [left|]|by split; [right|]].
      * intros [[->|Hy] Hne]; [by left|by right].
Qed.

Section CommandTheorems.
Variable int : string -> option Z.
Variable provider : Provider.

Lemma command_config command update n p :
  let run := complete provider n (command_handler int command update p) in
  config (panel_bot (final run))
  = default (config (panel_bot p))
            (config_after int command update (config (panel_bot p)))
  /\ stats (panel_bot (final run)) = stats (panel_bot p)
  /\ forward_logs (panel_bot (final run)) = forward_logs (panel_bot p)
  /\ db_faults (panel_bot (final run)) = db_faults (panel_bot p)
  /\ logger (panel_bot (final run)) = logger (panel_bot p)
  /\ clock (panel_bot (final run)) = clock (panel_bot p).
Proof.
  intros run. destruct (command_run int provider command update n p) as [Hf _].
  fold run in Hf. rewrite Hf.
  destruct (config_after int command update (config (panel_bot p))); [|done].
  by rewrite saved_bot.
Qed.

Ltac config_cases command update p :=
  unfold config_after, command_argument;
  destruct (bool_decide (effective_user_id update
                         ∈ admins (config (panel_bot p)))); [|cbn];
  [destruct command; try (destruct (args update) as [|? ?]);
   cbn [mbind option_bind default];
   try (destruct (int _) as [?|]); cbn [mbind option_bind default];
   try case_bool_decide; try (destruct (_ <? 0)); cbn|].

(** X16.  A configuration command sent by a user who is not an admin
    changes nothing at all: the bot, its configuration, the file and the
    file system are as before.  [/start] answers with the refusal; every
    other command returns without a word. *)
Theorem commands_of_others_change_nothing command update n p :
  effective_user_id update ∉ admins (config (panel_bot p)) ->
  let run := complete provider n (command_handler int command update p) in
  final run = p
  /\ (command ≠ Start -> result run = inr tt /\ trace run = [])
  /\ (command = Start ->
      (trace run).*1
      = [SendMessage (reply_chat update) "❌ 您没有权限使用此机器人"]).
Proof.
  intros Hno run. subst run.
  destruct command; cbn [command_handler];
    unfold start_command, add_source_command, add_target_command,
      remove_source_command, remove_target_command, list_sources_command,
      list_targets_command, add_admin_command, list_admins_command,
      set_delay_command, toggle_source_info_command, is_admin;
    cbn zeta; run_simpl; rewrite bool_decide_false by done; cbn [negb];
    repeat first [rewrite complete_reply_text | progress run_simpl];
    (split; [reflexivity|]); split; try done.
Qed.

(** X17.  No configuration command takes an admin away: the admins
    before a command are the first admins after it, whoever sent the
    command and whatever the provider answered. *)
Theorem commands_never_remove_an_admin command update n p :
  let run := complete provider n (command_handler int command update p) in
  admins (config (panel_bot p))
    `prefix_of` admins (config (panel_bot (final run))).
Proof.
  intros run.
  destruct (command_config command update n p) as [Hc _]. fold run in Hc.
  rewrite Hc. config_cases command update p; try done.
  by apply prefix_app_r.
Qed.

(** X18.  The commands keep the three lists of the configuration free of
    duplicates. *)
Theorem commands_keep_the_lists_without_duplicates command update n p :
  NoDup (admins (config (panel_bot p))) ->
  NoDup (source_channels (config (panel_bot p))) ->
  NoDup (target_channels (config (panel_bot p))) ->
  let run := complete provider n (command_handler int command update p) in
  NoDup (admins (config (panel_bot (final run))))
  /\ NoDup (source_channels (config (panel_bot (final run))))
  /\ NoDup (target_channels (config (panel_bot (final run)))).
Proof.
  intros Ha Hs Ht run.
  destruct (command_config command update n p) as [Hc _]. fold run in Hc.
  rewrite Hc. config_cases command update p;
    repeat split; try done;
    try (apply NoDup_app; repeat split;
         [done|by intros ? ? ->%list_elem_of_singleton|apply NoDup_singleton]);
    by apply list_remove_NoDup.
Qed.

(** X19.  A command either leaves the configuration and the file alone,
    or saves once, and what it saves is the configuration it leaves. *)
Theorem commands_save_what_they_change command update n p :
  let run := complete provider n (command_handler int command update p) in
  let cfg' := config (panel_bot (final run)) in
  (cfg' = config (panel_bot p)
   /\ config_writes (final run) = config_writes p
   /\ file_faults (final run) = file_faults p)
  \/ (config_writes (final run)
      = config_writes p ++ [(cfg', mjoin (head (file_faults p)))]
      /\ file_faults (final run) = tail (file_faults p)).
Proof.
  intros run cfg'. subst cfg'.
  destruct (command_run int provider command update n p) as [Hf _].
  fold run in Hf. rewrite Hf.
  destruct (config_after int command update (config (panel_bot p)));
    [right|by left].
  unfold saved. by destruct (file_faults (with_config _ p)) eqn:E;
    cbn in E; rewrite E.
Qed.

End CommandTheorems.

Lemma config_after_admin int command update cfg :
  effective_user_id update ∈ admins cfg ->
  config_after int command update cfg
  = match command with
    | Start | ListSources | ListTargets | ListAdmins => None
    | ToggleSourceInfo =>
        Some (set_add_source_info
                (negb (add_source_info (forward_settings cfg))) cfg)
    | AddSource =>
        id ← command_argument int update;
        if bool_decide (id ∉ source_channels cfg)
        then Some (set_source_channels (source_channels cfg ++ [id]) cfg)
        else None
    | AddTarget =>
        id ← command_argument int update;
        if bool_decide (id ∉ target_channels cfg)
        then Some (set_target_channels (target_channels cfg ++ [id]) cfg)
        else None
    | RemoveSource =>
        id ← command_argument int update;
        if bool_decide (id ∈ source_channels cfg)
        then Some (set_source_channels
                     (list_remove id (source_channels cfg)) cfg)
        else None
    | RemoveTarget =>
        id ← command_argument int update;
        if bool_decide (id ∈ target_channels cfg)
        then Some (set_target_channels
                     (list_remove id (target_channels cfg)) cfg)
        else None
    | AddAdmin =>
        id ← command_argument int update;
        if bool_decide (id ∉ admins cfg)
        then Some (set_admins (admins cfg ++ [id]) cfg)
        else None
    | SetDelay =>
        delay ← command_argument int update;
        if delay <? 0 then None else Some (set_delay_seconds delay cfg)
    end.
Proof. intros Ha. unfold config_after. by rewrite bool_decide_true. Qed.

Section CommandsAndDispatch.
Variable int : string -> option Z.
Variable provider : Provider.

(** X20.  Once an admin has removed a target channel (the targets being
    free of duplicates), no dispatch attempts a send to it any more. *)
Theorem removed_target_gets_no_more_sends update n p arg0 rest t
    provider' n' messages :
  effective_user_id update ∈ admins (config (panel_bot p)) ->
  args update = arg0 :: rest ->
  int arg0 = Some t ->
  NoDup (target_channels (config (panel_bot p))) ->
  let run := complete provider n (remove_target_command int update p) in
  let dispatch :=
    complete provider' n'
      (forward_messages_group messages (panel_bot (final run))) in
  (t ∉ target_channels (config (panel_bot (final run))))
  /\ (t ∉ (send_attempts (trace dispatch)).*1).
Proof.
  intros Hadmin Hargs Hint Hnd run dispatch.
  destruct (command_config int provider RemoveTarget update n p) as [Hc _].
  cbn [command_handler] in Hc. fold run in Hc.
  rewrite config_after_admin in Hc by done.
  unfold command_argument in Hc. rewrite Hargs, Hint in Hc.
  cbn [mbind option_bind] in Hc.
  assert (t ∉ target_channels (config (panel_bot (final run)))) as Hgone.
  { rewrite Hc. case_bool_decide as Hin; cbn; [|done].
    rewrite elem_of_list_remove by done. by intros [_ ?]. }
  split; [done|].
  destruct (forward_messages_group_run provider' messages n' (panel_bot (final run)))
    as [_ _ _ _ _ _ A _ _ _ _]. fold dispatch in A.
  rewrite A. unfold batch_targets.
  destruct (sendable _ _); [done|]. by intros ?%elem_of_nil.
Qed.

(** X21.  Once an admin has added a target channel, the next dispatch of
    a message attempts a send to it, after the sends to the targets there
    were before; this holds also when saving the configuration or
    answering the command failed. *)
Theorem added_target_is_served update n p arg0 rest t provider' n' message :
  effective_user_id update ∈ admins (config (panel_bot p)) ->
  args update = arg0 :: rest ->
  int arg0 = Some t ->
  t ∉ target_channels (config (panel_bot p)) ->
  let run := complete provider n (add_target_command int update p) in
  let dispatch :=
    complete provider' n'
      (forward_messages_group [message] (panel_bot (final run))) in
  (send_attempts (trace dispatch)).*1
  = target_channels (config (panel_bot p)) ++ [t].
Proof.
  intros Hadmin Hargs Hint Hnew run dispatch.
  destruct (command_config int provider AddTarget update n p) as [Hc _].
  cbn [command_handler] in Hc. fold run in Hc.
  rewrite config_after_admin in Hc by done.
  unfold command_argument in Hc. rewrite Hargs, Hint in Hc.
  cbn [mbind option_bind] in Hc. rewrite bool_decide_true in Hc by done.
  cbn in Hc.
  destruct (forward_messages_group_run provider' [message] n' (panel_bot (final run)))
    as [_ _ _ _ _ _ A _ _ _ _]. fold dispatch in A.
  rewrite A. unfold batch_targets, sendable.
  assert (is_media_group_batch [message] = false) as -> by done.
  rewrite bool_decide_true by done. by rewrite Hc.
Qed.

(** X23.  The delay an admin sets is the sleep of the next dispatch: a
    positive number of seconds is slept once, before the first send, and
    zero is not slept at all; a negative number is refused and changes
    nothing. *)
Theorem set_delay_sets_the_sleep update n p arg0 rest d provider' n' message :
  effective_user_id update ∈ admins (config (panel_bot p)) ->
  args update = arg0 :: rest ->
  int arg0 = Some d ->
  target_channels (config (panel_bot p)) ≠ [] ->
  let run := complete provider n (set_delay_command int update p) in
  let dispatch :=
    complete provider' n'
      (forward_messages_group [message] (panel_bot (final run))) in
  if d <? 0 then final run = p
  else sleeps (trace dispatch) = if 0 <? d then [d] else [].
Proof.
  intros Hadmin Hargs Hint Htargets run dispatch.
  destruct (command_run int provider SetDelay update n p) as [Hf _].
  cbn [command_handler] in Hf. fold run in Hf.
  rewrite config_after_admin in Hf by done.
  unfold command_argument in Hf. rewrite Hargs, Hint in Hf.
  cbn [mbind option_bind] in Hf.
  destruct (d <? 0) eqn:Hneg; [done|].
  destruct (forward_messages_group_run provider' [message] n' (panel_bot (final run)))
    as [_ _ _ _ _ _ _ S _ _ _]. fold dispatch in S.
  rewrite S, Hf, saved_bot. unfold batch_sleeps. cbn.
  by destruct (target_channels (config (panel_bot p))).
Qed.

(** X24.  [/toggle_source_info] is its own inverse: sent twice by an
    admin, it leaves the configuration as it was, whatever happened to
    the two answers and the two writes of the file. *)
Theorem toggle_source_info_twice_restores update n p provider' n' :
  effective_user_id update ∈ admins (config (panel_bot p)) ->
  let run1 := complete provider n (toggle_source_info_command update p) in
  let run2 :=
    complete provider' n' (toggle_source_info_command update (final run1)) in
  add_source_info (forward_settings (config (panel_bot (final run1))))
  = negb (add_source_info (forward_settings (config (panel_bot p))))
  /\ config (panel_bot (final run2)) = config (panel_bot p)
  /\ length (config_writes (final run2)) = S (S (length (config_writes p))).
Proof.
  intros Hadmin run1 run2.
  destruct (command_run (fun _ => None) provider ToggleSourceInfo update n p)
    as [Hf1 _].
  cbn [command_handler] in Hf1. fold run1 in Hf1.
  rewrite config_after_admin in Hf1 by done.
  destruct (command_run (fun _ => None) provider' ToggleSourceInfo update n'
              (final run1))
    as [Hf2 _].
  cbn [command_handler] in Hf2. fold run2 in Hf2.
  assert (config (panel_bot (final run1))
          = set_add_source_info
              (negb (add_source_info (forward_settings (config (panel_bot p)))))
              (config (panel_bot p))) as Hc1
    by (by rewrite Hf1, saved_bot).
  rewrite config_after_admin in Hf2 by (by rewrite Hc1).
  split; [by rewrite Hc1|]. split.
  - rewrite Hf2, saved_bot. cbn [with_config panel_bot config]. rewrite Hc1.
    destruct (config (panel_bot p)) as [a s t [] e]. cbn.
    by rewrite negb_involutive.
  - rewrite Hf2, Hf1. unfold saved.
    repeat (match goal with
            | |- context [match file_faults ?q with _ => _ end] =>
                destruct (file_faults q) eqn:?
            end; cbn in *);
      rewrite ?length_app; cbn; lia.
Qed.

End CommandsAndDispatch.

Section CommandsAndSources.
Variable int : string -> option Z.
Variable provider : Provider.

(** X22.  The source commands take effect on the next message.  Once an
    admin has added a source channel, a message from it is received and
    counted; once an admin has removed one (the sources being free of
    duplicates), a message from it is ignored: its handler only writes
    the line of the operational log. *)
Theorem source_commands_take_effect update n p arg0 rest s provider' n'
    message (σ σ' : St Bot) :
  effective_user_id update ∈ admins (config (panel_bot p)) ->
  args update = arg0 :: rest ->
  int arg0 = Some s ->
  NoDup (source_channels (config (panel_bot p))) ->
  chat_id message = s ->
  let added := complete provider n (add_source_command int update p) in
  let removed := complete provider n (remove_source_command int update p) in
  world σ = panel_bot (final added) ->
  world σ' = panel_bot (final removed) ->
  messages_received
    (stats (world (final (complete provider' n'
                            (handle_message (Some message) σ)))))
  = messages_received (stats (panel_bot p)) + 1
  /\ handle_message (Some message) σ'
     = Done tt (mkSt (handler σ') (aio σ')
                  (with_logger
                     (fun ls => ls ++ [InfoReceived (chat_id message)
                                                    (media_group_id message)])
                     (world σ'))).
Proof.
  intros Hadmin Hargs Hint Hnd Hchat added removed Hw Hw'.
  split.
  - destruct (command_config int provider AddSource update n p)
      as (Hc & Hs & _).
    cbn [command_handler] in Hc, Hs. fold added in Hc, Hs.
    rewrite config_after_admin in Hc by done.
    unfold command_argument in Hc. rewrite Hargs, Hint in Hc.
    cbn [mbind option_bind] in Hc.
    assert (chat_id message ∈ source_channels (config (world σ))) as Hsrc.
    { rewrite Hw, Hc, Hchat. case_bool_decide as Hin; cbn.
      - apply elem_of_app. right. by apply list_elem_of_singleton.
      - done. }
    rewrite <-Hs, <-Hw. count_source_message provider' message n' σ.
  - destruct (command_config int provider RemoveSource update n p) as [Hc _].
    cbn [command_handler] in Hc. fold removed in Hc.
    rewrite config_after_admin in Hc by done.
    unfold command_argument in Hc. rewrite Hargs, Hint in Hc.
    cbn [mbind option_bind] in Hc.
    apply handle_message_other_chat.
    rewrite Hw', Hc, Hchat. case_bool_decide as Hin; cbn; [|done].
    rewrite elem_of_list_remove by done. by intros [_ ?].
Qed.

End CommandsAndSources.

Lemma commands_of_others_change_nothing_witness :
  let run :=
    complete Sample.obliging 0
      (command_handler Desk.decimal AddTarget (Desk.from_stranger ["30"])
                       Desk.panel0) in
  (effective_user_id (Desk.from_stranger ["30"])
     ∉ admins (config (panel_bot Desk.panel0)))
  /\ final run = Desk.panel0
  /\ trace run = [].
Proof.
  intros run.
  assert (effective_user_id (Desk.from_stranger ["30"])
            ∉ admins (config (panel_bot Desk.panel0))) as Hno.
  { intros Hin%list_elem_of_In. vm_compute in Hin. by destruct Hin. }
  destruct (commands_of_others_change_nothing Desk.decimal Sample.obliging
              AddTarget (Desk.from_stranger ["30"]) 0 Desk.panel0 Hno)
    as (Hf & Hq & _).
  split; [done|]. split; [exact Hf|]. by apply Hq.
Defined.

Lemma commands_keep_the_lists_without_duplicates_witness :
  let run :=
    complete Sample.obliging 0
      (command_handler Desk.decimal AddTarget (Desk.from_admin ["20"])
                       Desk.panel0) in
  NoDup (target_channels (config (panel_bot Desk.panel0)))
  /\ NoDup (target_channels (config (panel_bot (final run)))).
Proof.
  intros run.
  assert (NoDup (admins (config (panel_bot Desk.panel0)))) as Ha
    by (cbn; by apply (bool_decide_unpack _)).
  assert (NoDup (source_channels (config (panel_bot Desk.panel0)))) as Hs
    by (cbn; by apply (bool_decide_unpack _)).
  assert (NoDup (target_channels (config (panel_bot Desk.panel0)))) as Ht
    by (cbn; by apply (bool_decide_unpack _)).
  destruct (commands_keep_the_lists_without_duplicates Desk.decimal
              Sample.obliging AddTarget (Desk.from_admin ["20"]) 0 Desk.panel0
              Ha Hs Ht) as (_ & _ & Ht').
  split; [exact Ht|exact Ht'].
Defined.

Lemma removed_target_gets_no_more_sends_witness :
  let run :=
    complete Sample.obliging 0
      (remove_target_command Desk.decimal (Desk.from_admin ["10"]) Desk.panel0) in
  let dispatch :=
    complete Sample.obliging 0
      (forward_messages_group [Sample.text_message 1 "hello"]
                              (panel_bot (final run))) in
  NoDup (target_channels (config (panel_bot Desk.panel0)))
  /\ (send_attempts (trace dispatch)).*1 = [20]
  /\ (10 ∉ (send_attempts (trace dispatch)).*1).
Proof.
  intros run dispatch.
  assert (effective_user_id (Desk.from_admin ["10"])
            ∈ admins (config (panel_bot Desk.panel0))) as Hadmin
    by (apply list_elem_of_In; vm_compute; tauto).
  assert (NoDup (target_channels (config (panel_bot Desk.panel0)))) as Ht
    by (cbn; by apply (bool_decide_unpack _)).
  destruct (removed_target_gets_no_more_sends Desk.decimal Sample.obliging
              (Desk.from_admin ["10"]) 0 Desk.panel0 "10" [] 10
              Sample.obliging 0 [Sample.text_message 1 "hello"]
              Hadmin eq_refl eq_refl Ht) as [_ Hnot].
  split; [exact Ht|]. split; [reflexivity|exact Hnot].
Defined.

Lemma added_target_is_served_witness :
  let run :=
    complete Desk.mute 0
      (add_target_command Desk.decimal (Desk.from_admin ["-30"])
         (mkPanel (Sample.bot0 [10; 20]) [] [Some "disk full"])) in
  let dispatch :=
    complete Sample.obliging 0
      (forward_messages_group [Sample.text_message 1 "hello"]
                              (panel_bot (final run))) in
  result run = inl (Exception "reply failed")
  /\ config_writes (final run)
     = [(config (panel_bot (final run)), Some "disk full")]
  /\ (send_attempts (trace dispatch)).*1 = [10; 20; -30].
Proof.
  intros run dispatch. split; [reflexivity|]. split; [reflexivity|].
  refine (added_target_is_served Desk.decimal _ (Desk.from_admin ["-30"]) 0
            _ "-30" [] (-30) Sample.obliging 0 (Sample.text_message 1 "hello")
            _ eq_refl eq_refl _).
  - apply list_elem_of_In; vm_compute; tauto.
  - intros Hin%list_elem_of_In. vm_compute in Hin.
    destruct Hin as [H|[H|[]]]; discriminate H.
Defined.

Lemma set_delay_sets_the_sleep_witness :
  let run :=
    complete Sample.obliging 0
      (set_delay_command Desk.decimal (Desk.from_admin ["5"]) Desk.panel0) in
  let dispatch :=
    complete Sample.obliging 0
      (forward_messages_group [Sample.text_message 1 "hello"]
                              (panel_bot (final run))) in
  sleeps (trace dispatch) = [5].
Proof.
  intros run dispatch.
  refine (set_delay_sets_the_sleep Desk.decimal Sample.obliging
            (Desk.from_admin ["5"]) 0 Desk.panel0 "5" [] 5 Sample.obliging 0
            (Sample.text_message 1 "hello") _ eq_refl eq_refl _).
  - apply list_elem_of_In; vm_compute; tauto.
  - done.
Defined.

Lemma toggle_source_info_twice_restores_witness :
  let run1 :=
    complete Sample.obliging 0
      (toggle_source_info_command (Desk.from_admin []) Desk.panel0) in
  let run2 :=
    complete Sample.obliging 0
      (toggle_source_info_command (Desk.from_admin []) (final run1)) in
  add_source_info (forward_settings (config (panel_bot (final run1)))) = false
  /\ config (panel_bot (final run2)) = config (panel_bot Desk.panel0).
Proof.
  intros run1 run2.
  assert (effective_user_id (Desk.from_admin [])
            ∈ admins (config (panel_bot Desk.panel0))) as Hadmin
    by (apply list_elem_of_In; vm_compute; tauto).
  destruct (toggle_source_info_twice_restores Sample.obliging
              (Desk.from_admin []) 0 Desk.panel0 Sample.obliging 0 Hadmin)
    as (H1 & H2 & _).
  split; [exact H1|exact H2].
Defined.

Lemma source_commands_take_effect_witness :
  let update := Desk.from_admin ["-100"] in
  let removed :=
    complete Sample.obliging 0
      (remove_source_command Desk.decimal update Desk.panel0) in
  let σ' := mkSt new_handler new_asyncio (panel_bot (final removed)) in
  let message := Sample.text_message 1 "hello" in
  NoDup (source_channels (config (panel_bot Desk.panel0)))
  /\ exists σ'',
       handle_message (Some message) σ' = Done tt σ''
       /\ stats (world σ'') = stats (panel_bot Desk.panel0).
Proof.
  intros update removed σ' message.
  assert (effective_user_id update
            ∈ admins (config (panel_bot Desk.panel0))) as Hadmin
    by (apply list_elem_of_In; vm_compute; tauto).
  assert (NoDup (source_channels (config (panel_bot Desk.panel0)))) as Hs
    by (cbn; by apply (bool_decide_unpack _)).
  destruct (source_commands_take_effect Desk.decimal Sample.obliging update 0
              Desk.panel0 "-100" [] (-100) Sample.obliging 0 message
              (mkSt new_handler new_asyncio
                 (panel_bot (final (complete Sample.obliging 0
                    (add_source_command Desk.decimal update Desk.panel0)))))
              σ' Hadmin eq_refl eq_refl Hs eq_refl eq_refl eq_refl)
    as [_ Hignored].
  split; [exact Hs|]. eexists. split; [exact Hignored|reflexivity].
Defined.

(** ** The configuration file *)

Lemma dict_get_set_eq key value entries :
  dict_get key (dict_set key value entries) = Some value.
Proof.
  induction entries as [|[k v] rest IH]; cbn.
  - by rewrite String.eqb_refl.
  - destruct (String.eqb k key) eqn:E; cbn; by rewrite E.
Qed.

Lemma dict_get_set_ne key key' value entries :
  key' ≠ key ->
  dict_get key' (dict_set key value entries) = dict_get key' entries.
Proof.
  intros Hne.
  assert (String.eqb key key' = false) as Hf
    by (apply String.eqb_neq; congruence).
  induction entries as [|[k v] rest IH]; cbn.
  - by rewrite Hf.
  - destruct (String.eqb k key) eqn:E; cbn.
    + apply String.eqb_eq in E as ->. by rewrite Hf.
    + by rewrite IH.
Qed.

Lemma dict_get_set key key' value entries :
  dict_get key' (dict_set key value entries)
  = if String.eqb key key' then Some value else dict_get key' entries.
Proof.
  destruct (String.eqb key key') eqn:E.
  - apply String.eqb_eq in E as ->. apply dict_get_set_eq.
  - apply dict_get_set_ne. apply String.eqb_neq in E. congruence.
Qed.

Lemma dict_set_set key v1 v2 entries :
  dict_set key v2 (dict_set key v1 entries) = dict_set key v2 entries.
Proof.
  induction entries as [|[k v] rest IH]; cbn.
  - by rewrite String.eqb_refl.
  - destruct (String.eqb k key) eqn:E; cbn; rewrite E; [done|by rewrite IH].
Qed.

Lemma dict_set_same key value entries :
  dict_get key entries = Some value -> dict_set key value entries = entries.
Proof.
  induction entries as [|[k v] rest IH]; cbn; [done|].
  destruct (String.eqb k key) eqn:E.
  - by intros [= ->].
  - intros H. by rewrite IH.
Qed.

(** A setting of [overlay user dflt] is the user's when the user has it,
    the default otherwise. *)
Lemma dict_get_overlay key dflt : forall user,
  dict_get key (overlay user dflt)
  = match dict_get key user with
    | Some v => Some v
    | None => dict_get key dflt
    end.
Proof.
  unfold overlay.
  induction dflt as [|[k v] dflt IH]; intros user; cbn [foldl dict_get].
  - by destruct (dict_get key user).
  - rewrite IH. case_bool_decide as Hk.
    + destruct (dict_get key user) eqn:Eu; [done|].
      destruct (String.eqb k key) eqn:E; [|done].
      apply String.eqb_eq in E as ->. rewrite Eu in Hk. by destruct Hk.
    + rewrite dict_get_set.
      destruct (String.eqb k key) eqn:E.
      * apply String.eqb_eq in E as ->.
        destruct (dict_get key user) eqn:Eu; [|done].
        exfalso. apply Hk. by eexists.
      * done.
Qed.

Lemma merge_section_dict key dflt : forall entries user,
  dict_get key entries = Some (JDict user) ->
  merge_section key dflt (JDict entries)
  = inr (JDict (dict_set key (JDict (overlay user dflt)) entries)).
Proof.
  unfold overlay.
  induction dflt as [|[k v] dflt IH]; intros entries user Hget;
    cbn [merge_section foldl].
  - by rewrite dict_set_same.
  - cbn [py_getitem]. rewrite Hget. cbn [and_then py_in].
    case_bool_decide as Hk; cbn [negb].
    + by apply IH.
    + cbn [py_setitem and_then].
      rewrite (IH _ (dict_set k v user)) by apply dict_get_set_eq.
      by rewrite dict_set_set.
Qed.

Lemma merge_defaults_dict defaults : forall entries,
  NoDup defaults.*1 ->
  (forall key d v, (key, JDict d) ∈ defaults ->
     dict_get key entries = Some v -> exists u, v = JDict u) ->
  exists result,
    merge_defaults defaults (JDict entries) = inr (JDict result)
    /\ forall key,
         dict_get key result
         = merged (dict_get key entries) (dict_get key defaults).
Proof.
  induction defaults as [|[k v] defaults IH]; intros entries Hnd Hsec.
  - exists entries. split; [done|]. intros key. cbn.
    by destruct (dict_get key entries) as [[]|].
  - cbn [fmap list_fmap fst] in Hnd. apply NoDup_cons in Hnd as [Hk Hnd].
    assert (dict_get k defaults = None) as Hkd.
    { clear -Hk. induction defaults as [|[k' v'] defaults IH]; cbn; [done|].
      destruct (String.eqb k' k) eqn:E.
      - apply String.eqb_eq in E as ->. exfalso. apply Hk. cbn. by left.
      - apply IH. intros Hin. apply Hk. cbn. by right. }
    cbn [merge_defaults py_in and_then].
    assert (forall entries',
      (forall key, key ≠ k -> dict_get key entries' = dict_get key entries) ->
      forall key d v0, (key, JDict d) ∈ defaults ->
        dict_get key entries' = Some v0 -> exists u, v0 = JDict u) as Hsec'.
    { intros entries' Hsame key d v0 Hin Hget.
      assert (key ≠ k) as Hne.
      { intros ->. apply Hk. apply list_elem_of_fmap. by exists (k, JDict d). }
      rewrite Hsame in Hget by done.
      eapply Hsec; [|done]. by right. }
    case_bool_decide as Hpresent; cbn [negb].
    + (* the file has the key *)
      destruct Hpresent as [v0 Hv0].
      assert (exists entries',
        (match v with
         | JDict section => merge_section k section (JDict entries)
         | _ => inr (JDict entries)
         end) = inr (JDict entries')
        /\ dict_get k entries' = merged (Some v0) (Some v)
        /\ forall key, key ≠ k ->
             dict_get key entries' = dict_get key entries)
        as (entries' & -> & Hk' & Hsame).
      { destruct v as [| | | | |section];
          try (exists entries; split; [done|]; split; [|done];
               rewrite Hv0; by destruct v0).
        destruct (Hsec k section v0) as [u ->]; [by left|done|].
        rewrite (merge_section_dict k section entries u) by done.
        eexists. split; [done|]. split.
        - by rewrite dict_get_set_eq.
        - intros key Hne. by rewrite dict_get_set_ne. }
      cbn [and_then].
      destruct (IH entries' Hnd (Hsec' entries' Hsame)) as (result & -> & Hres).
      exists result. split; [done|]. intros key. rewrite Hres. cbn [dict_get].
      destruct (String.eqb k key) eqn:E.
      * apply String.eqb_eq in E as <-. rewrite Hk', Hkd, Hv0.
        cbn. by destruct v0 as [| | | | |u0], v as [| | | | |d0].
      * rewrite Hsame; [done|]. apply String.eqb_neq in E. congruence.
    + (* the file lacks the key *)
      cbn [py_setitem and_then].
      assert (dict_get k entries = None) as Hnone.
      { destruct (dict_get k entries) eqn:E; [|done]. exfalso. apply Hpresent. by eexists. }
      destruct (IH (dict_set k v entries) Hnd) as (result & -> & Hres).
      { apply Hsec'. intros key Hne. by apply dict_get_set_ne. }
      exists result. split; [done|]. intros key. rewrite Hres. cbn [dict_get].
      rewrite dict_get_set.
      destruct (String.eqb k key) eqn:E.
      * apply String.eqb_eq in E as <-. rewrite Hkd, Hnone. cbn.
        by destruct v.
      * done.
Qed.

Lemma dict_get_elem_of key v entries :
  NoDup entries.*1 -> dict_get key entries = Some v -> (key, v) ∈ entries.
Proof.
  induction entries as [|[k v'] entries IH]; cbn; [done|].
  intros [Hk Hnd]%NoDup_cons.
  destruct (String.eqb k key) eqn:E.
  - apply String.eqb_eq in E as ->. intros [= ->]. by left.
  - intros H. right. by apply IH.
Qed.

Lemma elem_of_dict_get key v entries :
  NoDup entries.*1 -> (key, v) ∈ entries -> dict_get key entries = Some v.
Proof.
  induction entries as [|[k v'] entries IH]; cbn.
  - by intros _ ?%elem_of_nil.
  - intros [Hk Hnd]%NoDup_cons [[= -> ->]|Hin]%elem_of_cons.
    + by rewrite String.eqb_refl.
    + destruct (String.eqb k key) eqn:E; [|by apply IH].
      apply String.eqb_eq in E as ->. exfalso. apply Hk.
      apply list_elem_of_fmap. by exists (key, v).
Qed.

Lemma default_config_keys : NoDup default_config.*1.
Proof. by apply (bool_decide_unpack _). Qed.

(** X25.  When the file holds a dict whose sections (the values where
    the default is a dict) are dicts, [load_config] returns the file's
    configuration completed from [default_config], and writes nothing:
    under every key, the file's value if the file has one, the default
    otherwise; and in a section, under every key, the file's value if the
    section of the file has one, the default otherwise. *)
Theorem load_config_keeps_the_file_and_adds_the_defaults entries :
  sections_are_dicts default_config entries ->
  exists result,
    load_config (Some (inr (JDict entries))) = (JDict result, None)
    /\ (forall key,
          dict_get key result
          = merged (dict_get key entries) (dict_get key default_config))
    /\ (forall user dflt key,
          dict_get key (overlay user dflt)
          = match dict_get key user with
            | Some v => Some v
            | None => dict_get key dflt
            end).
Proof.
  intros Hsec.
  destruct (merge_defaults_dict default_config entries default_config_keys)
    as (result & Hm & Hres).
  { intros key d v Hin Hget. eapply Hsec; [|done].
    by apply elem_of_dict_get; [apply default_config_keys|]. }
  exists result. unfold load_config. cbn [and_then]. rewrite Hm.
  split; [done|]. split; [done|]. intros user dflt key. apply dict_get_overlay.
Qed.

Lemma load_config_keeps_the_file_and_adds_the_defaults_witness :
  let entries :=
    [("target_channels", JList [JNumber 10]);
     ("forward_settings", JDict [("delay_seconds", JNumber 5)])] in
  sections_are_dicts default_config entries
  /\ exists result,
       load_config (Some (inr (JDict entries))) = (JDict result, None)
       /\ dict_get "target_channels" result = Some (JList [JNumber 10])
       /\ dict_get "admins" result = Some (JList [])
       /\ exists section,
            dict_get "forward_settings" result = Some (JDict section)
            /\ dict_get "delay_seconds" section = Some (JNumber 5)
            /\ dict_get "media_group_timeout" section = Some (JNumber 3).
Proof.
  intros entries.
  assert (sections_are_dicts default_config entries) as Hsec.
  { intros key d v Hd Hv. unfold entries in Hv. cbn [dict_get] in Hv.
    destruct (String.eqb "target_channels" key) eqn:E1.
    - apply String.eqb_eq in E1 as <-. cbn in Hd. discriminate Hd.
    - destruct (String.eqb "forward_settings" key); [|discriminate Hv].
      injection Hv as <-. by eexists. }
  split; [exact Hsec|].
  destruct (load_config_keeps_the_file_and_adds_the_defaults entries Hsec)
    as (result & Hload & Hres & Hov).
  exists result. split; [exact Hload|].
  rewrite !Hres. split; [reflexivity|]. split; [reflexivity|].
  eexists. split; [reflexivity|]. split; reflexivity.
Defined.

Lemma merge_section_outcome k d : forall entries,
  (exists err, merge_section k d (JDict entries) = inl err)
  \/ exists entries',
       merge_section k d (JDict entries) = inr (JDict entries')
       /\ forall key, key ≠ k -> dict_get key entries' = dict_get key entries.
Proof.
  induction d as [|[sub_key sub_value] d IH]; intros entries;
    cbn [merge_section].
  - right. by exists entries.
  - cbn [py_getitem].
    destruct (dict_get k entries) as [section|]; cbn [and_then];
      [|left; by eexists].
    destruct (py_in sub_key section) as [err|present]; cbn [and_then];
      [left; by eexists|].
    destruct present; cbn [negb]; [apply IH|].
    destruct (py_setitem section sub_key sub_value) as [err|section'];
      cbn [and_then py_setitem]; [left; by eexists|].
    destruct (IH (dict_set k section' entries))
      as [[err Herr]|(entries' & He & Hsame)].
    + left. by eexists.
    + right. exists entries'. split; [done|].
      intros key Hne. rewrite Hsame by done. by apply dict_get_set_ne.
Qed.

Lemma merge_defaults_scalar_section defaults key sk sv d :
  forall entries v,
    NoDup defaults.*1 ->
    (key, JDict ((sk, sv) :: d)) ∈ defaults ->
    dict_get key entries = Some v ->
    is_scalar v = true ->
    exists err, merge_defaults defaults (JDict entries) = inl err.
Proof.
  induction defaults as [|[k val] defaults IH]; intros entries v Hnd Hin Hget Hv.
  - by apply elem_of_nil in Hin.
  - cbn [fmap list_fmap fst] in Hnd. apply NoDup_cons in Hnd as [Hk Hnd].
    cbn [merge_defaults py_in and_then].
    apply elem_of_cons in Hin as [[= <- <-]|Hin].
    + rewrite bool_decide_true by (by eexists). cbn [negb merge_section py_getitem].
      rewrite Hget. cbn [and_then].
      destruct v; try done; by eexists.
    + assert (key ≠ k) as Hne.
      { intros ->. apply Hk. apply list_elem_of_fmap.
        by exists (k, JDict ((sk, sv) :: d)). }
      case_bool_decide as Hpresent; cbn [negb].
      * destruct val as [| | | | |section]; cbn [and_then];
          try (by apply (IH entries v)).
        destruct (merge_section_outcome k section entries)
          as [[err ->]|(entries' & -> & Hsame)]; cbn [and_then].
        -- by eexists.
        -- apply (IH entries' v); try done. by rewrite Hsame.
      * cbn [py_setitem and_then].
        apply (IH (dict_set k val entries) v); try done.
        by rewrite dict_get_set_ne.
Qed.

Lemma merge_defaults_not_dict content :
  (forall entries, content ≠ JDict entries) ->
  exists err, merge_defaults default_config content = inl err.
Proof.
  intros Hno.
  destruct content as [|b|n|s|items|entries];
    try (by eexists); [| |by destruct (Hno entries)];
    unfold default_config; cbn [merge_defaults py_in and_then];
    repeat (match goal with
            | |- context [negb ?b] => destruct b; cbn
            end); by eexists.
Qed.

(** X26.  A file that [load_config] cannot merge is dropped as a whole:
    when the file holds something else than a dict, or a dict in which a
    section (a value where the default is a dict) is [null], a boolean or
    a number, [load_config] returns [default_config], with none of the
    settings of the file, and writes nothing. *)
Theorem load_config_drops_a_file_it_cannot_merge content :
  (forall entries, content ≠ JDict entries)
  \/ (exists entries key d v,
        content = JDict entries
        /\ dict_get key default_config = Some (JDict d)
        /\ dict_get key entries = Some v
        /\ is_scalar v = true) ->
  load_config (Some (inr content)) = (JDict default_config, None).
Proof.
  unfold load_config. cbn [and_then].
  intros [Hno|(entries & key & d & v & -> & Hd & Hv & Hs)].
  - by destruct (merge_defaults_not_dict content Hno) as [err ->].
  - apply dict_get_elem_of in Hd; [|apply default_config_keys].
    assert (exists sk sv d', d = (sk, sv) :: d') as (sk & sv & d' & ->).
    { unfold default_config in Hd.
      repeat (apply elem_of_cons in Hd as [[= _ Hd]|Hd]; try done;
              try (subst d; by do 3 eexists)).
      by apply elem_of_nil in Hd. }
    destruct (merge_defaults_scalar_section default_config key sk sv d'
                entries v default_config_keys Hd Hv Hs) as [err ->].
    done.
Qed.

Lemma load_config_drops_a_file_it_cannot_merge_witness :
  load_config
    (Some (inr (JDict [("admins", JList [JNumber 7]);
                       ("target_channels", JList [JNumber 10]);
                       ("forward_settings", JNull)])))
  = (JDict default_config, None).
Proof.
  apply load_config_drops_a_file_it_cannot_merge. right.
  exists [("admins", JList [JNumber 7]);
          ("target_channels", JList [JNumber 10]);
          ("forward_settings", JNull)], "forward_settings".
  do 2 eexists. repeat split; reflexivity.
Defined.

Lemma merge_section_keeps_keys k d : forall entries,
  (exists err, merge_section k d (JDict entries) = inl err)
  \/ exists entries',
       merge_section k d (JDict entries) = inr (JDict entries')
       /\ forall key, is_Some (dict_get key entries) ->
                      is_Some (dict_get key entries').
Proof.
  induction d as [|[sub_key sub_value] d IH]; intros entries;
    cbn [merge_section].
  - right. by exists entries.
  - cbn [py_getitem].
    destruct (dict_get k entries) as [section|]; cbn [and_then];
      [|left; by eexists].
    destruct (py_in sub_key section) as [err|present]; cbn [and_then];
      [left; by eexists|].
    destruct present; cbn [negb]; [apply IH|].
    destruct (py_setitem section sub_key sub_value) as [err|section'];
      cbn [and_then py_setitem]; [left; by eexists|].
    destruct (IH (dict_set k section' entries))
      as [[err Herr]|(entries' & He & Hkeys)].
    + left. by eexists.
    + right. exists entries'. split; [done|].
      intros key Hkey. apply Hkeys. rewrite dict_get_set.
      by destruct (String.eqb k key).
Qed.

Lemma merge_defaults_keys defaults : forall entries,
  (exists err, merge_defaults defaults (JDict entries) = inl err)
  \/ exists result,
       merge_defaults defaults (JDict entries) = inr (JDict result)
       /\ (forall key, is_Some (dict_get key entries) ->
                       is_Some (dict_get key result))
       /\ (forall key, key ∈ defaults.*1 -> is_Some (dict_get key result)).
Proof.
  induction defaults as [|[k val] defaults IH]; intros entries.
  - right. exists entries. split; [done|]. split; [done|].
    by intros key ?%elem_of_nil.
  - cbn [merge_defaults py_in and_then].
    assert (forall entries',
      (forall key, is_Some (dict_get key entries) ->
                   is_Some (dict_get key entries')) ->
      is_Some (dict_get k entries') ->
      (exists err, merge_defaults defaults (JDict entries') = inl err)
      \/ exists result,
           merge_defaults defaults (JDict entries') = inr (JDict result)
           /\ (forall key, is_Some (dict_get key entries) ->
                           is_Some (dict_get key result))
           /\ (forall key, key ∈ ((k, val) :: defaults).*1 ->
                           is_Some (dict_get key result))) as Hnext.
    { intros entries' Hkeys Hk.
      destruct (IH entries') as [Herr|(result & Hm & Hold & Hnew)];
        [by left|right].
      exists result. split; [done|]. split; [by auto|].
      intros key [->|Hin]%elem_of_cons; by auto. }
    case_bool_decide as Hpresent; cbn [negb].
    + destruct val as [| | | | |section]; cbn [and_then];
        try (by apply Hnext).
      destruct (merge_section_keeps_keys k section entries)
        as [[err ->]|(entries' & -> & Hkeys)]; cbn [and_then].
      * left. by eexists.
      * apply Hnext; by auto.
    + cbn [py_setitem and_then]. apply Hnext.
      * intros key Hkey. rewrite dict_get_set. by destruct (String.eqb k key).
      * rewrite dict_get_set_eq. by eexists.
Qed.

(** X27.  Whatever the configuration file is (missing, unreadable, or
    holding any value whatever), [load_config] returns a dict that has
    every top-level key of [default_config]. *)
Theorem load_config_always_has_the_top_level_settings file :
  exists result,
    (load_config file).1 = JDict result
    /\ forall key, key ∈ default_config.*1 -> is_Some (dict_get key result).
Proof.
  assert (forall key, key ∈ default_config.*1 ->
                      is_Some (dict_get key default_config)) as Hdefault.
  { intros key Hin. cbn in Hin.
    repeat (apply elem_of_cons in Hin as [->|Hin]; [by eexists|]).
    by apply elem_of_nil in Hin. }
  destruct file as [[err|content]|]; try (by exists default_config).
  unfold load_config. cbn [and_then].
  destruct (merge_defaults default_config content) as [err|config] eqn:Em;
    [by exists default_config|].
  assert (exists entries, content = JDict entries) as [entries ->].
  { destruct content as [|b|n|s|items|entries]; [| | | | |by eexists];
      match type of Em with
      | merge_defaults _ ?c = _ =>
          assert (forall entries, c ≠ JDict entries) as Hno by done;
          destruct (merge_defaults_not_dict c Hno) as [err' Herr]; congruence
      end. }
  destruct (merge_defaults_keys default_config entries)
    as [[err Herr]|(result & Hm & _ & Hkeys)]; [congruence|].
  exists result. rewrite Hm in Em. injection Em as <-. done.
Qed.

(** ** [utils.MessageFilter] and the filter of the bot *)

(** X28.  A [MessageFilter] set up with the content types and the
    keywords of the bot's settings forwards exactly the messages that the
    bot's own filter lets through, less those with a document of more
    than 50 MiB, the limit that applies when none is configured. *)
Theorem should_forward_agrees_with_the_bot cfg message kind :
  should_forward (filter_of_settings cfg) message kind
  = negb (should_filter_message cfg message kind)
    && negb (oversized 50 message).
Proof.
  unfold should_forward, should_filter_message, filter_of_settings, oversized.
  cbn [fc_filter_content_types fc_max_file_size_mb fc_blocked_keywords
       fc_blocked_users default from_option]. unfold id.
  destruct (bool_decide (kind ∈ filter_content_types (forward_settings cfg)));
    [done|].
  cbn zeta.
  assert (forall u : User,
            (if bool_decide (user_id u ∈ @nil Z) then false else true) = true)
    as Huser.
  { intros u. rewrite bool_decide_false; [done|]. apply not_elem_of_nil. }
  assert (match from_user message with
          | Some u => if bool_decide (user_id u ∈ @nil Z) then false else true
          | None => true
          end = true) as ->
    by (destruct (from_user message); [apply Huser|done]).
  destruct (match document message with
            | Some d => bool_decide (50 * 1024 * 1024 < file_size d)
            | None => false
            end); [by rewrite andb_false_r|].
  rewrite andb_true_r.
  destruct (Str.truthy (text message)); cbn [andb]; [|done].
  destruct (keyword_filter (forward_settings cfg)) as [|k ks]; [done|].
  rewrite bool_decide_true by done.
  by destruct (existsb _ _).
Qed.
